(** * astro: ephemeris pipeline and event search, embedded in Rocq

    The program is matthewdargan/astro, a Go port of the Plan 9 [astro]
    command.  Two revisions of its single source file are covered:
    [src/astro.go] and [src/unnamed/part_000], called the second revision
    below, in which the identifiers are camel-cased ([piNorm], [sunEl],
    [pts], [pt], ...).  Where the two revisions differ only in identifiers
    one definition stands for both and the second name is given in its
    comment; where they differ in behaviour ([pinorm] against [piNorm],
    the two [geo]) both are embedded.

    Number model.  Go's [float64] is embedded as the real numbers [R]:
    every arithmetic operation is the exact one, [math.Sin], [math.Cos],
    [math.Sqrt] are [sin], [cos], [sqrt], and [math.Pi] is [PI].  Rounding,
    infinities and NaN are outside this model; the module [Float64] runs
    the loops of [pinorm] on binary64 itself, to show where the two part.
    Go's [int] is [Z]. *)

From Stdlib Require Import Floats.
From Stdlib Require Import Reals Lra Lia ZArith List Bool String.
From Equations Require Import Equations.
Import ListNotations.

Open Scope R_scope.

(** ** Go's numeric primitives *)

Module Go.

(** Comparisons of two [float64] values, as booleans. *)
Definition ltb (x y : R) : bool := if Rlt_dec x y then true else false.
Definition leb (x y : R) : bool := if Rle_dec x y then true else false.
Definition gtb (x y : R) : bool := ltb y x.

(** Truncation toward zero, the rounding of a float-to-integer conversion
    and of [math.Mod]'s quotient. *)
Definition trunc (x : R) : Z :=
  if Rle_dec 0 x then Int_part x else (- Int_part (- x))%Z.

Definition min_int : Z := (- 2 ^ 63)%Z.
Definition max_int : Z := (2 ^ 63 - 1)%Z.

(** [int(t)] for a [float64] [t].  The language leaves the result
    implementation-dependent when the truncated value does not fit the
    integer type; [unrep] is that implementation's choice. *)
Definition int (unrep : R -> Z) (t : R) : Z :=
  let z := trunc t in
  if ((min_int <=? z) && (z <=? max_int))%Z then z else unrep t.

(** Arithmetic on [int] wraps around at 64 bits. *)
Definition wrap (z : Z) : Z := ((z + 2 ^ 63) mod 2 ^ 64 - 2 ^ 63)%Z.
Definition add_int (a b : Z) : Z := wrap (a + b).
Definition sub_int (a b : Z) : Z := wrap (a - b).

(** [float64(i)] for an [int] [i]. *)
Definition float64 (i : Z) : R := IZR i.

(** [math.Mod(x, y)]: the remainder of [x / y] with the sign of [x]. *)
Definition Mod (x y : R) : R := x - y * IZR (trunc (x / y)).

(** [math.Atan2(y, x)]: the angle of the point [(x, y)], in [(-PI, PI]]. *)
Definition Atan2 (y x : R) : R :=
  if Rlt_dec 0 x then atan (y / x)
  else if Rlt_dec x 0 then
    (if Rle_dec 0 y then atan (y / x) + PI else atan (y / x) - PI)
  else if Rlt_dec 0 y then PI / 2
  else if Rlt_dec y 0 then - (PI / 2)
  else 0.

(** The builtin [min] on two [float64] values. *)
Definition min (x y : R) : R := if Rle_dec x y then x else y.

End Go.

(** ** Constants of the two revisions *)

Definition pipi : R := 2 * PI.
Definition radian : R := PI / 180.
Definition radsec : R := radian / 3600.
Definition converge : R := 1 / 10 ^ 14.
Definition per : R := 1.
Definition npts : nat := 12.
Definition deld : R := per / INR npts.
Definition maxe : R := 999 / 1000.
Definition nevents : nat := 100.

(** ** Angle normalisation *)

(** [pinorm] of astro.go:
<<
  for a < -math.Pi { a += pipi }
  for a > math.Pi { a -= pipi }
  return a
>>
    Each loop is a recursion whose measure is the number of turns left. *)
Equations? pinorm_up (a : R) : R
  by wf (Z.to_nat (up ((- PI - a) / pipi))) lt :=
  pinorm_up a with Rlt_dec a (- PI) => {
    | left _ := pinorm_up (a + pipi);
    | right _ := a }.
Proof.
  unfold pipi.
  pose proof PI_RGT_0 as Hpi.
  set (x := (- PI - a) / (2 * PI)).
  replace ((- PI - (a + 2 * PI)) / (2 * PI)) with (x - 1)
    by (unfold x; field; lra).
  assert (Hx : 0 < x).
  { unfold x. apply Rdiv_lt_0_compat; lra. }
  destruct (archimed x) as [Hu1 Hu2].
  assert (Hup : (up x - 1)%Z = up (x - 1)).
  { apply tech_up; rewrite minus_IZR; lra. }
  rewrite <- Hup.
  assert (0 < up x)%Z by (apply lt_IZR; lra).
  lia.
Qed.

Equations? pinorm_down (a : R) : R
  by wf (Z.to_nat (up ((a - PI) / pipi))) lt :=
  pinorm_down a with Rgt_dec a PI => {
    | left _ := pinorm_down (a - pipi);
    | right _ := a }.
Proof.
  unfold pipi.
  pose proof PI_RGT_0 as Hpi.
  set (x := (a - PI) / (2 * PI)).
  replace ((a - 2 * PI - PI) / (2 * PI)) with (x - 1)
    by (unfold x; field; lra).
  assert (Hx : 0 < x).
  { unfold x. apply Rdiv_lt_0_compat; lra. }
  destruct (archimed x) as [Hu1 Hu2].
  assert (Hup : (up x - 1)%Z = up (x - 1)).
  { apply tech_up; rewrite minus_IZR; lra. }
  rewrite <- Hup.
  assert (0 < up x)%Z by (apply lt_IZR; lra).
  lia.
Qed.

Definition pinorm (a : R) : R := pinorm_down (pinorm_up a).

(** The same two loops on binary64 floating-point numbers.  Here a loop
    need not end, so each takes [fuel], and [None] is a loop still running
    after [fuel] iterations. *)
Module Float64.

Definition Pi : float := 0x1.921fb54442d18p+1%float.
Definition pipi : float := (2 * Pi)%float.

Fixpoint pinorm_up (fuel : nat) (a : float) : option float :=
  match fuel with
  | O => None
  | S fuel' =>
      if (a <? - Pi)%float then pinorm_up fuel' (a + pipi)%float else Some a
  end.

Fixpoint pinorm_down (fuel : nat) (a : float) : option float :=
  match fuel with
  | O => None
  | S fuel' =>
      if (Pi <? a)%float then pinorm_down fuel' (a - pipi)%float else Some a
  end.

Definition pinorm (fuel : nat) (a : float) : option float :=
  match pinorm_up fuel a with
  | Some b => pinorm_down fuel b
  | None => None
  end.

End Float64.

(** [piNorm] of the second revision:
<<
  return math.Mod(a+math.Pi, 2*math.Pi) - math.Pi
>> *)
Definition piNorm (a : R) : R := Go.Mod (a + PI) (2 * PI) - PI.

(** [pyth]: [x *= x; if x > 1 { x = 1 }; return math.Sqrt(1 - x)] in
    astro.go, [math.Sqrt(1 - min(x*x, 1))] in the second revision. *)
Definition pyth (x : R) : R :=
  let x2 := x * x in
  let x3 := if Go.gtb x2 1 then 1 else x2 in
  sqrt (1 - x3).

Definition pyth' (x : R) : R := sqrt (1 - Go.min (x * x) 1).

(** ** Data model *)

(** [obj1]: one position sample. *)
Record obj1 : Type := mk_obj1 {
  ra : R; decl2 : R; semi2 : R; az : R; el : R; mag : R }.

(** The zero value of [obj1]. *)
Definition obj1_zero : obj1 := mk_obj1 0 0 0 0 0 0.

(** The Go array [[npts + 2]obj1].  An index below [len_point] names a
    sample; what the function gives elsewhere is not part of the array. *)
Definition samples : Type := nat -> obj1.
Definition len_point : nat := npts + 2.

(** An indexing [a[i]] whose index is computed at run time: it panics
    ([None]) outside [0 <= i < len(a)]. *)
Definition index (a : samples) (i : Z) : option obj1 :=
  if ((0 <=? i) && (i <? Z.of_nat len_point))%Z
  then Some (a (Z.to_nat i)) else None.

(** The assignment [a[i] = v]. *)
Definition store (a : samples) (i : nat) (v : obj1) : samples :=
  fun j => if Nat.eqb j i then v else a j.

(** [obj2]: a body, with its model [f] acting on the module-level
    variables (of type [G]) and its window of samples. *)
Record obj2 (G : Type) : Type := mk_obj2 {
  name : string; fname : string; f : G -> G; point : samples }.
Arguments mk_obj2 {G}.
Arguments name {G}.
Arguments fname {G}.
Arguments f {G}.
Arguments point {G}.

(** [obj3]: the five contacts of a close approach, time and elevation. *)
Record obj3 : Type := mk_obj3 {
  t1 : R; e1 : R; t2 : R; e2 : R; t3 : R; e3 : R;
  t4 : R; e4 : R; t5 : R; e5 : R }.

(** [evt]: an event, with its message, time and flags. *)
Record evt : Type := mk_evt { s : string; tim : R; flag : Z }.

(** [occt]: a quadratic interpolant and its current value [act]. *)
Record occt : Type := mk_occt {
  act : obj1; del0 : obj1; del1 : obj1; del2 : obj1 }.

(** The errors the search engine creates with [errors.New]. *)
Inductive error : Type :=
| bad_1            (* "bad 1 \n", "bad 1\n" in the second revision *)
| bad_2            (* "bad 2 \n", "bad 2\n" in the second revision *)
| too_many_events. (* "too many events" *)

(** The flag bits.  They follow [1 << iota] in the constant block, so
    their values depend on the position in it: [dark] is the 13th
    constant of astro.go and the 10th of the second revision. *)
Module AstroGo.
Definition dark : Z := Z.shiftl 1 12.
Definition signif : Z := Z.shiftl 1 13.
Definition ptime : Z := Z.shiftl 1 14.
Definition light : Z := Z.shiftl 1 15.
End AstroGo.

Module Rev2.
Definition dark : Z := Z.shiftl 1 9.
Definition signif : Z := Z.shiftl 1 10.
Definition ptime : Z := Z.shiftl 1 11.
Definition light : Z := Z.shiftl 1 12.
End Rev2.

(** ** Panics *)

(** A computation that may panic on an index out of range. *)
Definition bind {A B : Type} (m : option A) (k : A -> option B) : option B :=
  match m with Some a => k a | None => None end.

Notation "x <- m ;; k" := (bind m (fun x => k))
  (at level 61, m at next level, right associativity).

(** ** Loops *)

(** [for i := lo; i < lo + n; i++ { if ... { return/break } }]: the
    result of the first iteration that leaves the loop, if any. *)
Fixpoint first_from {A : Type} (n lo : nat) (body : nat -> option A)
  : option A :=
  match n with
  | O => None
  | S n' =>
      match body lo with
      | Some r => Some r
      | None => first_from n' (S lo) body
      end
  end.

(** ** Separation of two samples *)

(** [dist]: the angle between two samples, in seconds of arc.  The two
    revisions differ in their [pyth] only, and the two return the same. *)
Definition dist (o1 o2 : obj1) : R :=
  let d := sin (decl2 o1) * sin (decl2 o2) +
           cos (decl2 o1) * cos (decl2 o2) * cos (ra o1 - ra o2) in
  Rabs (Go.Atan2 (pyth d) d) / radsec.

(** ** Threshold crossings *)

(** [rise]:
<<
  for i := 1; i < len(o.point); i++ {
      e1, e2 := o.point[i-1].el, o.point[i].el
      if e1 <= el && e2 > el { return float64(i-1) + (el-e1)/(e2-e1) }
  }
  return -1
>> *)
Definition rise_at (p : samples) (th : R) (i : nat) : option R :=
  let e1 := el (p (i - 1)%nat) in
  let e2 := el (p i) in
  if Go.leb e1 th && Go.gtb e2 th
  then Some (Go.float64 (Z.of_nat i - 1) + (th - e1) / (e2 - e1))
  else None.

Definition rise {G : Type} (o : obj2 G) (th : R) : R :=
  match first_from (len_point - 1) 1 (rise_at (point o) th) with
  | Some r => r
  | None => -1
  end.

(** [set]: the same scan with the test [e1 > el && e2 <= el]. *)
Definition set_at (p : samples) (th : R) (i : nat) : option R :=
  let e1 := el (p (i - 1)%nat) in
  let e2 := el (p i) in
  if Go.gtb e1 th && Go.leb e2 th
  then Some (Go.float64 (Z.of_nat i - 1) + (th - e1) / (e2 - e1))
  else None.

Definition set {G : Type} (o : obj2 G) (th : R) : R :=
  match first_from (len_point - 1) 1 (set_at (point o) th) with
  | Some r => r
  | None => -1
  end.

(** ** The event sink *)

Section Sink.

(** The result of [int(t)] where the truncated [t] is not an [int]. *)
Variable unrep : R -> Z.
(** The flag bits of the revision at hand. *)
Variables dark light : Z.
(** The samples of the Sun, [osun.point]. *)
Variable osun_point : samples.

(** [sunel] ([sunEl] in the second revision):
<<
  i := int(t)
  if i < 0 || i > npts { return -90 }
  return osun.point[i].el + (t-float64(i))*(osun.point[i+1].el-osun.point[i].el)
>> *)
Definition sunel (t : R) : option R :=
  let i := Go.int unrep t in
  if ((i <? 0) || (i >? Z.of_nat npts))%Z then Some (-90)
  else
    p <- index osun_point i ;;
    q <- index osun_point (i + 1) ;;
    Some (el p + (t - Go.float64 i) * (el q - el p)).

(** [e.flag&dark > 0 && sunel(e.tim) > -12]: the right operand is
    evaluated only when the left one holds. *)
Definition dark_gate (e : evt) : option bool :=
  if (Z.land (flag e) dark >? 0)%Z
  then v <- sunel (tim e) ;; Some (Go.gtb v (-12))
  else Some false.

(** [e.flag&light > 0 && sunel(e.tim) < 0]. *)
Definition light_gate (e : evt) : option bool :=
  if (Z.land (flag e) light >? 0)%Z
  then v <- sunel (tim e) ;; Some (Go.ltb v 0)
  else Some false.

(** [event]: the buffer [events] is passed in and out; the first
    component of the result is the returned error, [None] for [nil].
<<
  if e.flag&dark > 0 && sunel(e.tim) > -12 { return nil }
  if e.flag&light > 0 && sunel(e.tim) < 0 { return nil }
  if len(events) >= nevents { return errors.New("too many events") }
  events = append(events, e)
  return nil
>> *)
Definition event (events : list evt) (e : evt)
  : option (option error * list evt) :=
  g1 <- dark_gate e ;;
  if g1 : bool then Some (None, events)
  else
    g2 <- light_gate e ;;
    if g2 : bool then Some (None, events)
    else if (nevents <=? List.length events)%nat
         then Some (Some too_many_events, events)
         else Some (None, events ++ [e]).

End Sink.

(** ** Conjunctions, eclipses and occultations *)

(** The module-level variables [occult] writes: the contact record [occ],
    the two interpolants [occ1] and [occ2], and the variables of the
    ephemeris ([eday], [ra], [decl2], ...), of type [G]. *)
Record vars (G : Type) : Type := mk_vars {
  occ : obj3; occ1 : occt; occ2 : occt; eph : G }.
Arguments mk_vars {G}.
Arguments occ {G}.
Arguments occ1 {G}.
Arguments occ2 {G}.
Arguments eph {G}.

(** The state of a three-point minimum scan: whether it left by [break],
    the loop index, the abscissa and the last three separations. *)
Record scan : Type := mk_scan {
  sc_ok : bool; sc_i : Z; sc_x : R;
  sc_d1 : R; sc_d2 : R; sc_d3 : R;
  sc_occ1 : occt; sc_occ2 : occt }.

(** [occ.t1 = -100; ...; occ.t5 = -100]: the elevations keep their values. *)
Definition occ_reset (o : obj3) : obj3 :=
  mk_obj3 (-100) (e1 o) (-100) (e2 o) (-100) (e3 o)
          (-100) (e4 o) (-100) (e5 o).

Definition with_c1 (o : obj3) (t e : R) : obj3 :=
  mk_obj3 t e (t2 o) (e2 o) (t3 o) (e3 o) (t4 o) (e4 o) (t5 o) (e5 o).
Definition with_c2 (o : obj3) (t e : R) : obj3 :=
  mk_obj3 (t1 o) (e1 o) t e (t3 o) (e3 o) (t4 o) (e4 o) (t5 o) (e5 o).
Definition with_c3 (o : obj3) (t e : R) : obj3 :=
  mk_obj3 (t1 o) (e1 o) (t2 o) (e2 o) t e (t4 o) (e4 o) (t5 o) (e5 o).
Definition with_c4 (o : obj3) (t e : R) : obj3 :=
  mk_obj3 (t1 o) (e1 o) (t2 o) (e2 o) (t3 o) (e3 o) t e (t5 o) (e5 o).
Definition with_c5 (o : obj3) (t e : R) : obj3 :=
  mk_obj3 (t1 o) (e1 o) (t2 o) (e2 o) (t3 o) (e3 o) (t4 o) (e4 o) t e.

(** [setpt] ([pt] in the second revision): evaluates the interpolant at
    [x]; [act.az] and [act.mag] are not written. *)
Definition setpt (o : occt) (x : R) : occt :=
  let y := x * (x - 1) in
  mk_occt
    (mk_obj1 (ra (del0 o) + x * ra (del1 o) + y * ra (del2 o))
             (decl2 (del0 o) + x * decl2 (del1 o) + y * decl2 (del2 o))
             (semi2 (del0 o) + x * semi2 (del1 o) + y * semi2 (del2 o))
             (az (act o))
             (el (del0 o) + x * el (del1 o) + y * el (del2 o))
             (mag (act o)))
    (del0 o) (del1 o) (del2 o).

(** The first [i] in [2 .. len-1] with [d2 <= d1 && d2 <= d3]:
<<
  d1 = dist(o1.point[i-2], o2.point[i-2])
  d2 = dist(o1.point[i-1], o2.point[i-1])
  d3 = dist(o1.point[i], o2.point[i])
  if d2 <= d1 && d2 <= d3 { ok = true; break }
>> *)
Definition coarse_at (p1 p2 : samples) (i : nat) : option (nat * R * R * R) :=
  let d1 := dist (p1 (i - 2)%nat) (p2 (i - 2)%nat) in
  let d2 := dist (p1 (i - 1)%nat) (p2 (i - 1)%nat) in
  let d3 := dist (p1 i) (p2 i) in
  if Go.leb d2 d1 && Go.leb d2 d3 then Some (i, d1, d2, d3) else None.

Definition coarse (p1 p2 : samples) : option (nat * R * R * R) :=
  first_from (len_point - 2) 2 (coarse_at p1 p2).

(** The medium and the fine scan, [n] iterations from index [i]:
<<
  setpt(&occ1, x)
  setpt(&occ2, x)
  d1, d2 = d2, d3
  d3 = dist(occ1.act, occ2.act)
  if i >= 2 && d2 <= d1 && d2 <= d3 { ok = true; break }
  x += step
>> *)
Fixpoint minscan (n : nat) (i : Z) (step : R) (st : scan) : scan :=
  match n with
  | O => st
  | S n' =>
      let o1 := setpt (sc_occ1 st) (sc_x st) in
      let o2 := setpt (sc_occ2 st) (sc_x st) in
      let d1 := sc_d2 st in
      let d2 := sc_d3 st in
      let d3 := dist (act o1) (act o2) in
      if (2 <=? i)%Z && Go.leb d2 d1 && Go.leb d2 d3
      then mk_scan true i (sc_x st) d1 d2 d3 o1 o2
      else minscan n' (i + 1)%Z step
             (mk_scan false i (sc_x st + step) d1 d2 d3 o1 o2)
  end.

Section Occult.

Variable G : Type.
(** [setime(d)] on the variables of the ephemeris. *)
Variable setime : R -> G -> G.
(** The sample [setobj] reads off them: [ra], [decl2], [semi2], [az],
    [el], [mag]. *)
Variable cur : G -> obj1.
(** The module-level [day]. *)
Variable day : R.
(** The normaliser: [pinorm] in astro.go, [piNorm] in the second revision. *)
Variable norm : R -> R.
Variable unrep : R -> Z.

(** [set3pt] ([pts] in the second revision): the forward differences of
    three consecutive samples. *)
Definition set3pt (p : samples) (i : nat) (oc : occt) : occt :=
  let p1 := p i in
  let p2 := p (i + 1)%nat in
  let p3 := p (i + 2)%nat in
  mk_occt (act oc)
    (mk_obj1 (ra p1) (decl2 p1) (semi2 p1)
             (az (del0 oc)) (el p1) (mag (del0 oc)))
    (mk_obj1 (norm (ra p2 - ra p1)) (norm (decl2 p2 - decl2 p1))
             (semi2 p2 - semi2 p1)
             (az (del1 oc)) (el p2 - el p1) (mag (del1 oc)))
    (mk_obj1 (norm (ra p1 + ra p3 - 2 * ra p2) / 2)
             (norm (decl2 p1 + decl2 p3 - 2 * decl2 p2) / 2)
             ((semi2 p1 + semi2 p3 - 2 * semi2 p2) / 2)
             (az (del2 oc))
             ((el p1 + el p3 - 2 * el p2) / 2)
             (mag (del2 oc))).

(** The three true positions around the medium minimum:
<<
  setime(day + deld*(di+x))
  o1.f(); setobj(&xo1.point[i])
  o2.f(); setobj(&xo2.point[i])
  x += 2 * dx
>> *)
Fixpoint resample (n i : nat) (o1 o2 : obj2 G) (di dx x : R)
  (xo1 xo2 : samples) (g : G) : samples * samples * G :=
  match n with
  | O => (xo1, xo2, g)
  | S n' =>
      let g0 := setime (day + deld * (di + x)) g in
      let g1 := f o1 g0 in
      let xo1' := store xo1 i (cur g1) in
      let g2 := f o2 g1 in
      let xo2' := store xo2 i (cur g2) in
      resample n' (S i) o1 o2 di dx (x + 2 * dx) xo1' xo2' g2
  end.

Section Contacts.

Variables (i1 : Z) (di dx d3 d4 : R).

(** The scan after the minimum; the loop has no bound, [fuel] counts its
    iterations and [None] is a scan that has not left the loop yet.
<<
  setpt(&occ1, x); setpt(&occ2, x)
  d1 = d2
  d2 = dist(occ1.act, occ2.act)
  if i != i1 {
      if d1 <= d3 && d2 > d3 { occ.t4 = di + (float64(i)-.5)*dx; occ.e4 = occ1.act.el }
      if d2 > d4 {
          if d1 <= d4 { occ.t5 = di + (float64(i)-.5)*dx; occ.e5 = occ1.act.el }
          break
      }
  }
  x += 1. / 120
  i++
>> *)
Fixpoint scan_after (fuel : nat) (i : Z) (x d2 : R) (o : obj3)
  (oc1 oc2 : occt) : option (obj3 * R * occt * occt) :=
  match fuel with
  | O => None
  | S fuel' =>
      let oc1 := setpt oc1 x in
      let oc2 := setpt oc2 x in
      let d1 := d2 in
      let d2 := dist (act oc1) (act oc2) in
      let t := di + (Go.float64 i - 5 / 10) * dx in
      if negb (i =? i1)%Z then
        let o := if Go.leb d1 d3 && Go.gtb d2 d3
                 then with_c4 o t (el (act oc1)) else o in
        if Go.gtb d2 d4 then
          let o := if Go.leb d1 d4 then with_c5 o t (el (act oc1)) else o in
          Some (o, d2, oc1, oc2)
        else scan_after fuel' (Go.add_int i 1) (x + 1 / 120) d2 o oc1 oc2
      else scan_after fuel' (Go.add_int i 1) (x + 1 / 120) d2 o oc1 oc2
  end.

(** The scan before the minimum: the same loop with [occ.t2], [occ.e2],
    [occ.t1], [occ.e1], [x -= 1. / 120] and [i--]. *)
Fixpoint scan_before (fuel : nat) (i : Z) (x d2 : R) (o : obj3)
  (oc1 oc2 : occt) : option (obj3 * R * occt * occt) :=
  match fuel with
  | O => None
  | S fuel' =>
      let oc1 := setpt oc1 x in
      let oc2 := setpt oc2 x in
      let d1 := d2 in
      let d2 := dist (act oc1) (act oc2) in
      let t := di + (Go.float64 i - 5 / 10) * dx in
      if negb (i =? i1)%Z then
        let o := if Go.leb d1 d3 && Go.gtb d2 d3
                 then with_c2 o t (el (act oc1)) else o in
        if Go.gtb d2 d4 then
          let o := if Go.leb d1 d4 then with_c1 o t (el (act oc1)) else o in
          Some (o, d2, oc1, oc2)
        else scan_before fuel' (Go.sub_int i 1) (x - 1 / 120) d2 o oc1 oc2
      else scan_before fuel' (Go.sub_int i 1) (x - 1 / 120) d2 o oc1 oc2
  end.

End Contacts.

(** The number of steps of the medium scan:
    [n := 2880 * per / npts; ... range int(n + 1)]. *)
Definition medium_steps : nat :=
  Z.to_nat (Go.int unrep (2880 * per / INR npts + 1)).

(** The medium scan of [occult], from the coarse minimum [c]: the
    interpolants through the three samples around it, and [int(n + 1)]
    steps of [dx = 2 / n]. *)
Definition medium_start (o1 o2 : obj2 G) (v : vars G) (c : nat * R * R * R)
  : scan :=
  let '(i, d1, d2, d3) := c in
  let i := (i - 2)%nat in
  mk_scan false (Z.of_nat i) 0 d1 d2 d3
          (set3pt (point o1) i (occ1 v)) (set3pt (point o2) i (occ2 v)).

Definition medium (o1 o2 : obj2 G) (v : vars G) (c : nat * R * R * R)
  : scan :=
  let n := 2880 * per / INR npts in
  minscan medium_steps 0 (2 / n) (medium_start o1 o2 v c).

(** The fine scan of [occult], from the medium minimum [m]: the three
    re-computed positions, their interpolants, and 241 steps of 1/120.
    With the scan come the variables of the ephemeris and [di]. *)
Definition fine_start (o1 o2 : obj2 G) (v : vars G) (c : nat * R * R * R)
  (m : scan) : scan * G * R :=
  let '(i, _, _, _) := c in
  let n := 2880 * per / INR npts in
  let dx := 2 / n in
  let di := Go.float64 (Z.of_nat (i - 2)) + (sc_x m - 3 * dx) in
  let '(xo1, xo2, g) :=
    resample 3 0 o1 o2 di dx 0 (fun _ => obj1_zero) (fun _ => obj1_zero)
             (eph v) in
  (mk_scan false (sc_i m) 0 (sc_d1 m) (sc_d2 m) (sc_d3 m)
           (set3pt xo1 0 (sc_occ1 m)) (set3pt xo2 0 (sc_occ2 m)),
   g, di).

Definition fine (o1 o2 : obj2 G) (v : vars G) (c : nat * R * R * R)
  (m : scan) : scan * G * R :=
  let '(st, g, di) := fine_start o1 o2 v c m in
  (minscan 241 0 (1 / 120) st, g, di).

(** The end of [occult], once the fine scan [fs] has found a minimum
    within the sum of the semidiameters: the time of the minimum, then the
    scan after it and the scan before it.
<<
  i1 := i - 1
  x1 := x - 1./120
  occ.t3 = di + float64(i1)*dx
  occ.e3 = occ1.act.el
  d3 = occ1.act.semi2 - occ2.act.semi2
  if d3 < 0 { d3 = -d3 }
  d4 := occ1.act.semi2 + occ2.act.semi2
>> *)
Definition contacts (fuel : nat) (fs : scan) (g : G) (di : R) (o : obj3)
  : option (option error * vars G) :=
  let dx := 2 / (2880 * per / INR npts) / 60 in
  let i1 := Go.sub_int (sc_i fs) 1 in
  let x1 := sc_x fs - 1 / 120 in
  let o := with_c3 o (di + Go.float64 i1 * dx) (el (act (sc_occ1 fs))) in
  let d3 := semi2 (act (sc_occ1 fs)) - semi2 (act (sc_occ2 fs)) in
  let d3 := if Go.ltb d3 0 then - d3 else d3 in
  let d4 := semi2 (act (sc_occ1 fs)) + semi2 (act (sc_occ2 fs)) in
  r <- scan_after i1 di dx d3 d4 fuel i1 x1 (sc_d2 fs) o
         (sc_occ1 fs) (sc_occ2 fs) ;;
  let '(o, d2, oc1, oc2) := r in
  r' <- scan_before i1 di dx d3 d4 fuel i1 x1 d2 o oc1 oc2 ;;
  let '(o, _, oc1, oc2) := r' in
  Some (None, mk_vars o oc1 oc2 g).

(** [occult]: [None] when a contact scan is still running after [fuel]
    iterations; otherwise the returned error ([None] for [nil]) and the
    module-level variables. *)
Definition occult (fuel : nat) (o1 o2 : obj2 G) (v : vars G)
  : option (option error * vars G) :=
  let o := occ_reset (occ v) in
  match coarse (point o1) (point o2) with
  | None => Some (None, mk_vars o (occ1 v) (occ2 v) (eph v))
  | Some c =>
      let m := medium o1 o2 v c in
      if negb (sc_ok m)
      then Some (Some bad_1, mk_vars o (sc_occ1 m) (sc_occ2 m) (eph v))
      else if Go.gtb (sc_d2 m) (semi2 (act (sc_occ1 m)) +
                                semi2 (act (sc_occ2 m)) + 50)
      then Some (None, mk_vars o (sc_occ1 m) (sc_occ2 m) (eph v))
      else
        let '(fs, g, di) := fine o1 o2 v c m in
        if negb (sc_ok fs)
        then Some (Some bad_2, mk_vars o (sc_occ1 fs) (sc_occ2 fs) g)
        else if Go.gtb (sc_d2 fs) (semi2 (act (sc_occ1 fs)) +
                                   semi2 (act (sc_occ2 fs)))
        then Some (None, mk_vars o (sc_occ1 fs) (sc_occ2 fs) g)
        else contacts fuel fs g di o
  end.

End Occult.

(** ** Geocentric to topocentric coordinates *)

(** The module-level variables [geo] reads and writes. *)
Module Var.
Record t : Type := mk {
  gst : R; alpha : R; delta : R; wlong : R; nlat : R;
  erad : R; glat : R; hp : R; semi : R;
  lha : R; decl : R; decl2 : R; semi2 : R; ra : R;
  az : R; el : R; mag : R }.
End Var.

(** [setobj] ([obj] in the second revision): the sample held by the
    module-level variables. *)
Definition setobj (v : Var.t) : obj1 :=
  mk_obj1 (Var.ra v) (Var.decl2 v) (Var.semi2 v)
          (Var.az v) (Var.el v) (Var.mag v).

(** [geo], with the normaliser and the [pyth] of the revision:
<<
  lha = gst - alpha - wlong
  decl = delta
  sa = math.Cos(decl) * math.Sin(lha)
  ca = math.Cos(decl)*math.Cos(lha) - erad*math.Cos(glat)*math.Sin(hp)
  sd = math.Sin(decl) - erad*math.Sin(glat)*math.Sin(hp)
  lha = math.Atan2(sa, ca)
  decl2 = math.Atan2(sd, math.Sqrt(sa*sa+ca*ca))
  f = math.Sqrt(sa*sa + ca*ca + sd*sd)
  semi2 = semi / f
  ra = gst - lha - wlong
  ra = pinorm(ra)
  sel = math.Sin(nlat)*math.Sin(decl2) + math.Cos(nlat)*math.Cos(decl2)*math.Cos(lha)
  el = math.Atan2(sel, pyth(sel))
  saz = math.Sin(lha) * math.Cos(decl2)
  caz = math.Cos(nlat)*math.Sin(decl2) - math.Sin(nlat)*math.Cos(decl2)*math.Cos(lha)
  az = math.Pi + math.Atan2(saz, -caz)
  az /= radian
  el /= radian
>>
    The second revision reads [delta] where astro.go reads its copy [decl],
    and leaves [decl] alone. *)
Definition geo_with (norm : R -> R) (py : R -> R) (keep_decl : bool)
  (v : Var.t) : Var.t :=
  let lha0 := Var.gst v - Var.alpha v - Var.wlong v in
  let decl := Var.delta v in
  let sa := cos decl * sin lha0 in
  let ca := cos decl * cos lha0
            - Var.erad v * cos (Var.glat v) * sin (Var.hp v) in
  let sd := sin decl - Var.erad v * sin (Var.glat v) * sin (Var.hp v) in
  let lha := Go.Atan2 sa ca in
  let decl2 := Go.Atan2 sd (sqrt (sa * sa + ca * ca)) in
  let f := sqrt (sa * sa + ca * ca + sd * sd) in
  let semi2 := Var.semi v / f in
  let ra := norm (Var.gst v - lha - Var.wlong v) in
  let sel := sin (Var.nlat v) * sin decl2
             + cos (Var.nlat v) * cos decl2 * cos lha in
  let el := Go.Atan2 sel (py sel) in
  let saz := sin lha * cos decl2 in
  let caz := cos (Var.nlat v) * sin decl2
             - sin (Var.nlat v) * cos decl2 * cos lha in
  let az := PI + Go.Atan2 saz (- caz) in
  Var.mk (Var.gst v) (Var.alpha v) (Var.delta v) (Var.wlong v) (Var.nlat v)
         (Var.erad v) (Var.glat v) (Var.hp v) (Var.semi v)
         lha (if keep_decl then Var.decl v else decl) decl2 semi2 ra
         (az / radian) (el / radian) (Var.mag v).

(** [geo] of astro.go. *)
Definition geo (v : Var.t) : Var.t := geo_with pinorm pyth false v.

(** [geo] of the second revision. *)
Definition geo' (v : Var.t) : Var.t := geo_with piNorm pyth' true v.

(** ** Kepler's equation and the comet *)

(** The loop every Keplerian body runs; it has no bound, and [None] is a
    loop still running after [fuel] iterations.
<<
  for {
      dele = (anom - enom + ecc*math.Sin(enom)) / (1. - ecc*math.Cos(enom))
      enom += dele
      if math.Abs(dele) <= converge { break }
  }
>> *)
Fixpoint kepler_loop (fuel : nat) (anom ecc enom : R) : option R :=
  match fuel with
  | O => None
  | S fuel' =>
      let dele := (anom - enom + ecc * sin enom) / (1 - ecc * cos enom) in
      let enom := enom + dele in
      if Go.leb (Rabs dele) converge then Some enom
      else kepler_loop fuel' anom ecc enom
  end.

(** [enom = anom + ecc*math.Sin(anom)], then the loop. *)
Definition kepler (fuel : nat) (anom ecc : R) : option R :=
  kepler_loop fuel anom ecc (anom + ecc * sin anom).

Module Elem.
(** [cometElem]: time of perihelion, perihelion distance, eccentricity,
    inclination, argument of perihelion, longitude of ascending node. *)
Record cometElem : Type := mk {
  t : R; q : R; e : R; i : R; w : R; o : R }.
End Elem.

(** The eccentricity [comet] works with:
<<
  ecc = elem.e
  if ecc > maxe { ecc = maxe }
>>
    ([0.999] is written out in the second revision). *)
Definition comet_ecc (elem : Elem.cometElem) : R :=
  let ecc := Elem.e elem in
  if Go.gtb ecc maxe then maxe else ecc.

(** The mean anomaly [comet] passes to the solver, at ephemeris day [eday]:
<<
  mrad = elem.q / (1 - ecc)
  motion = .01720209895 * math.Sqrt(1/(mrad*mrad*mrad)) / radian
  anom = (eday - (elem.t - 2415020)) * motion * radian
>> *)
Definition comet_anom (elem : Elem.cometElem) (eday : R) : R :=
  let ecc := comet_ecc elem in
  let mrad := Elem.q elem / (1 - ecc) in
  let motion := 1720209895 / 10 ^ 11 * sqrt (1 / (mrad * mrad * mrad))
                / radian in
  (eday - (Elem.t elem - 2415020)) * motion * radian.

(** The eccentric anomaly of the comet: the only call of the solver in
    [comet]. *)
Definition comet_enom (fuel : nat) (elem : Elem.cometElem) (eday : R)
  : option R :=
  kepler fuel (comet_anom elem eday) (comet_ecc elem).

(** ** What the scans look for *)

(** The separation of two interpolants at the abscissa [x]. *)
Definition separation (oc1 oc2 : occt) (x : R) : R :=
  dist (act (setpt oc1 x)) (act (setpt oc2 x)).

(** The value [d (k-1)] is at most its two neighbours:
    [d[k-2] >= d[k-1] <= d[k]], the test of the scans at index [k]. *)
Definition min_at (d : nat -> R) (k : nat) : Prop :=
  d (k - 1)%nat <= d (k - 2)%nat /\ d (k - 1)%nat <= d k.

(** Among the values [d 0 .. d (n-1)], one that is at most its two
    neighbours. *)
Definition interior_minimum (d : nat -> R) (n : nat) : Prop :=
  exists k : nat, (2 <= k < n)%nat /\ min_at d k.

(** The separations a scan of two interpolants sees, from [x0] in steps
    of [step]. *)
Definition seps (oc1 oc2 : occt) (x0 step : R) (k : nat) : R :=
  separation oc1 oc2 (x0 + INR k * step).

(** What holds of the state of such a scan when iteration [i] begins. *)
Definition scan_inv (oc1 oc2 : occt) (x0 step : R) (i : nat) (st : scan)
  : Prop :=
  sc_ok st = false /\
  sc_x st = x0 + INR i * step /\
  (forall x, setpt (sc_occ1 st) x = setpt oc1 x) /\
  (forall x, setpt (sc_occ2 st) x = setpt oc2 x) /\
  ((1 <= i)%nat -> sc_d3 st = seps oc1 oc2 x0 step (i - 1)) /\
  ((2 <= i)%nat -> sc_d2 st = seps oc1 oc2 x0 step (i - 2)).

(** Two positions that differ by whole turns. *)
Definition same_place (p q : obj1) : Prop :=
  (exists k : Z, ra p = ra q + IZR k * pipi) /\
  (exists k : Z, decl2 p = decl2 q + IZR k * pipi).

(** ** The other scans of the search *)

(** [betcross] ([betCross] in the second revision), over the samples of the
    Sun, whose [mag] holds its longitude:
<<
  for i := 1; i < len(osun.point); i++ {
      d1, d2 := osun.point[i-1].mag, osun.point[i].mag
      if b >= d1 && b < d2 { return float64(i) - (b-d2)/(d1-d2) }
  }
  return -1
>> *)
Definition betcross_at (p : samples) (b : R) (i : nat) : option R :=
  let d1 := mag (p (i - 1)%nat) in
  let d2 := mag (p i) in
  if Go.leb d1 b && Go.ltb b d2
  then Some (Go.float64 (Z.of_nat i) - (b - d2) / (d1 - d2))
  else None.

Definition betcross (osun_point : samples) (b : R) : R :=
  match first_from (len_point - 1) 1 (betcross_at osun_point b) with
  | Some r => r
  | None => -1
  end.

(** [solstice]: the target [d3], the right ascension the loop compares,
    and the loop, which carries [d2] from one sample to the next.
<<
  d3 := float64(n)*math.Pi/2 - math.Pi
  if n == 0 { d3 += math.Pi }
  var d1, d2 float64
  for i := range len(osun.point) - 1 {
      d1, d2 = d2, osun.point[i].ra
      if n == 0 {
          d2 -= math.Pi
          if d2 < -math.Pi { d2 += pipi }
      }
      if i >= 1 && d3 >= d1 && d3 < d2 { return float64(i) - (d3-d2)/(d1-d2) }
  }
  return -1
>> *)
Definition solstice_target (n : Z) : R :=
  let d3 := Go.float64 n * PI / 2 - PI in
  if (n =? 0)%Z then d3 + PI else d3.

Definition solstice_ra (n : Z) (p : samples) (i : nat) : R :=
  let d2 := ra (p i) in
  if (n =? 0)%Z then
    let d2 := d2 - PI in
    if Go.ltb d2 (- PI) then d2 + pipi else d2
  else d2.

Fixpoint solstice_loop (n : Z) (p : samples) (k i : nat) (d2 : R) : R :=
  match k with
  | O => -1
  | S k' =>
      let d1 := d2 in
      let d2 := solstice_ra n p i in
      let d3 := solstice_target n in
      if (1 <=? i)%nat && Go.leb d1 d3 && Go.ltb d3 d2
      then Go.float64 (Z.of_nat i) - (d3 - d2) / (d1 - d2)
      else solstice_loop n p k' (S i) d2
  end.

Definition solstice (osun_point : samples) (n : Z) : R :=
  solstice_loop n osun_point (len_point - 1) 0 0.

(** [melong] ([meLong] in the second revision): the first three samples
    whose middle elongation from the Sun is at least the two others.
<<
  for i := 2; i < len(o.point); i++ {
      d1 := dist(o.point[i-2], osun.point[i-2])
      d2 := dist(o.point[i-1], osun.point[i-1])
      d3 := dist(o.point[i], osun.point[i])
      if d2 >= d1 && d2 >= d3 { return i - 2 }
  }
  return -1
>> *)
Definition melong_at (p osun_point : samples) (i : nat) : option Z :=
  let d1 := dist (p (i - 2)%nat) (osun_point (i - 2)%nat) in
  let d2 := dist (p (i - 1)%nat) (osun_point (i - 1)%nat) in
  let d3 := dist (p i) (osun_point i) in
  if Go.leb d1 d2 && Go.leb d3 d2 then Some (Z.of_nat i - 2)%Z else None.

Definition melong {G : Type} (osun_point : samples) (o : obj2 G) : Z :=
  match first_from (len_point - 2) 2 (melong_at (point o) osun_point) with
  | Some r => r
  | None => (-1)%Z
  end.

(** The test and the value of [solstice] at an index [i >= 1], where
    [d1] is the right ascension the loop kept from sample [i - 1]. *)
Definition solstice_at (n : Z) (p : samples) (i : nat) : option R :=
  let d1 := solstice_ra n p (i - 1)%nat in
  let d2 := solstice_ra n p i in
  let d3 := solstice_target n in
  if Go.leb d1 d3 && Go.ltb d3 d2
  then Some (Go.float64 (Z.of_nat i) - (d3 - d2) / (d1 - d2))
  else None.

(** The samples of the Sun read as elevations: [betcross] scans the
    field [mag] the way [rise] scans [el]. *)
Definition mag_as_el (p : samples) : obj2 unit :=
  mk_obj2 "sun" "The sun" (fun g => g)
          (fun i => mk_obj1 0 0 0 0 (mag (p i)) 0).

(** ** The order of the events *)

(** The comparison [evflush] ([flushEvents]) hands to [slices.SortFunc]:
<<
  t1, t2 := e1.tim, e2.tim
  if e1.flag&signif > 0 { t1 -= 1000. }
  if e2.flag&signif > 0 { t2 -= 1000. }
  return cmp.Compare(t1, t2)
>> *)
Definition sort_key (signif : Z) (e : evt) : R :=
  if (Z.land (flag e) signif >? 0)%Z then tim e - 1000 else tim e.

Definition evt_cmp (signif : Z) (e1 e2 : evt) : Z :=
  let t1 := sort_key signif e1 in
  let t2 := sort_key signif e2 in
  if Go.ltb t1 t2 then (-1)%Z else if Go.ltb t2 t1 then 1%Z else 0%Z.

(** ** The window of the star search *)

(** The hours of right ascension [stars] keeps, from the first and the
    last sample of the Moon, and whether they wrap around 24 hours:
<<
  sd := 1000 * radsec
  lomoon := omoon.point[0].ra - sd
  if lomoon < 0 { lomoon += pipi }
  himoon := omoon.point[npts+1].ra + sd
  if himoon > pipi { himoon -= pipi }
  lomoon *= 12 / math.Pi
  himoon *= 12 / math.Pi
  wrap := false
  if lomoon > himoon { wrap = true }
>> *)
Definition moon_window (omoon_point : samples) : R * R * bool :=
  let sd := 1000 * radsec in
  let lomoon := ra (omoon_point 0%nat) - sd in
  let lomoon := if Go.ltb lomoon 0 then lomoon + pipi else lomoon in
  let himoon := ra (omoon_point (npts + 1)%nat) + sd in
  let himoon := if Go.gtb himoon pipi then himoon - pipi else himoon in
  let lomoon := lomoon * (12 / PI) in
  let himoon := himoon * (12 / PI) in
  (lomoon, himoon, Go.gtb lomoon himoon).

(** Whether [stars] passes over a star of right ascension [alpha], in
    astro.go:
<<
  if wrap && alpha < lomoon && alpha > himoon {
      continue
  } else if alpha < lomoon || alpha > himoon {
      continue
  }
>> *)
Definition star_skipped (w : R * R * bool) (alpha : R) : bool :=
  let '(lomoon, himoon, wrap) := w in
  if wrap && Go.ltb alpha lomoon && Go.gtb alpha himoon then true
  else if Go.ltb alpha lomoon || Go.gtb alpha himoon then true
  else false.

(** The same test in the second revision:
<<
  if wrap && (alpha < lomoon && alpha > himoon) ||
     !wrap && (alpha < lomoon || alpha > himoon) { continue }
>> *)
Definition star_skipped' (w : R * R * bool) (alpha : R) : bool :=
  let '(lomoon, himoon, wrap) := w in
  wrap && (Go.ltb alpha lomoon && Go.gtb alpha himoon)
  || negb wrap && (Go.ltb alpha lomoon || Go.gtb alpha himoon).

(** ** The terms of the perturbation series *)

(** [abs], on [int]: the negation wraps around.
<<
  if x < 0 { x = -x }
  return x
>> *)
Definition abs (x : Z) : Z := if (x <? 0)%Z then Go.sub_int 0 x else x.

(** [for i := n; i > 0; i-- { x *= k }]. *)
Fixpoint times (n : nat) (k x : R) : R :=
  match n with
  | O => x
  | S n' => times n' k (x * k)
  end.

Section Moon.

(** The module-level arguments and factors of the lunar series. *)
Variables mnom msun noded dmoon k1 k2 k3 k4 : R.

(** [trigx]:
<<
  x := coef * f((float64(i)*mnom+float64(j)*msun+float64(k)*noded+float64(m)*dmoon+angle)*radian)
  for i := abs(i); i > 0; i-- { x *= k1 }
  for j := abs(j); j > 0; j-- { x *= k2 }
  for k := abs(k); k > 0; k-- { x *= k3 }
  if m&1 != 0 { x *= k4 }
  return x
>>
    The second revision tests [m&1 > 0], which is the same. *)
Definition trigx (coef : R) (i j k m : Z) (angle : R) (f : R -> R) : R :=
  let x := coef * f ((Go.float64 i * mnom + Go.float64 j * msun
                      + Go.float64 k * noded + Go.float64 m * dmoon
                      + angle) * radian) in
  let x := times (Z.to_nat (abs i)) k1 x in
  let x := times (Z.to_nat (abs j)) k2 x in
  let x := times (Z.to_nat (abs k)) k3 x in
  if negb (Z.land m 1 =? 0)%Z then x * k4 else x.

Definition sinx (coef : R) (i j k m : Z) (angle : R) : R :=
  trigx coef i j k m angle sin.

Definition cosx (coef : R) (i j k m : Z) (angle : R) : R :=
  trigx coef i j k m angle cos.

End Moon.

(** [trigadd] ([trigAdd]), on slices; [None] is an index out of range.
    The inner loop adds one multiple per coefficient to the phase, and
    [j] runs on through [cac]:
<<
  for _, c := range coefs {
      a2 += float64(cac[j]) * c
      j++
  }
>> *)
Fixpoint phase (cac : list Z) (coefs : list R) (j : nat) (a2 : R)
  : option (R * nat) :=
  match coefs with
  | [] => Some (a2, j)
  | c :: coefs' =>
      n <- nth_error cac j ;;
      phase cac coefs' (S j) (a2 + Go.float64 n * c)
  end.

(** The outer loop, two entries of [caf] at a time:
<<
  for i := 0; i < len(caf); i += 2 {
      a1, a2 := caf[i], caf[i+1]
      ...
      sum += a1 * f(a2)
  }
  return sum
>> *)
Fixpoint trigadd_from (f : R -> R) (caf : list R) (cac : list Z)
  (coefs : list R) (j : nat) (sum : R) : option R :=
  match caf with
  | [] => Some sum
  | a1 :: rest =>
      match rest with
      | [] => None
      | a2 :: caf' =>
          r <- phase cac coefs j a2 ;;
          trigadd_from f caf' cac coefs (snd r) (sum + a1 * f (fst r))
      end
  end.

Definition trigadd (f : R -> R) (caf : list R) (cac : list Z)
  (coefs : list R) : option R :=
  trigadd_from f caf cac coefs 0 0.

Definition cosadd := trigadd cos.
Definition sinadd := trigadd sin.

(** ** Days and instants *)

(** A [time.Time] is an instant with nanosecond precision: here the
    nanoseconds since the Unix epoch.  [t.Unix()] is the whole seconds
    before it, and [t.Add(d)] the instant [d] nanoseconds later, for a
    [time.Duration] [d], which is an [int64]. *)
Definition Time : Type := Z.
Definition Unix (t : Time) : Z := (t / 10 ^ 9)%Z.
Definition Add (t : Time) (d : Z) : Time := (t + d)%Z.
Definition Second : Z := (10 ^ 9)%Z.
Definition secondsPerDay : R := 24 * 60 * 60.

(** [time.Date(1899, 12, 31, 12, 0, 0, 0, time.UTC)]: twelve hours before
    1900, which is 2208988800 seconds before 1970. *)
Definition t1899 : Time := ((- 2208988800 - 12 * 3600) * 10 ^ 9)%Z.

(** [timeToJulian]; [t.Local()] leaves the instant as it is.
<<
  return float64(t.Unix()-t1899.Unix()) / secondsPerDay
>> *)
Definition timeToJulian (t : Time) : R :=
  Go.float64 (Go.sub_int (Unix t) (Unix t1899)) / secondsPerDay.

(** [julianToTime]:
<<
  s := jd * secondsPerDay
  t := t1899.Add(time.Duration(s) * time.Second)
>> *)
Definition julianToTime (unrep : R -> Z) (jd : R) : Time :=
  let s := jd * secondsPerDay in
  Add t1899 (Go.wrap (Go.int unrep s * Second)).

(** ** The series as a sum *)

(** The sum [g 0 + g 1 + ... + g (n - 1)]. *)
Fixpoint sum_over (n : nat) (g : nat -> R) : R :=
  match n with
  | O => 0
  | S n' => g 0%nat + sum_over n' (fun q => g (S q))
  end.

(** The series [trigadd] adds up, written with the indices of its tables:
    term [p] has the amplitude [caf[2p]] and the phase [caf[2p+1]] plus
    the multiples [cac[p*K .. p*K + K - 1]] of the [K] coefficients. *)
Definition series (f : R -> R) (caf : list R) (cac : list Z)
  (coefs : list R) : R :=
  let K := List.length coefs in
  sum_over (List.length caf / 2) (fun p =>
    nth (2 * p) caf 0
    * f (nth (2 * p + 1) caf 0
         + sum_over K (fun q =>
             IZR (nth (p * K + q) cac 0%Z) * nth q coefs 0))).

(** ** The tables of the series *)

(** The amplitudes and phases ([...f]) and the multiples ([...c]) of the
    series of the Sun, of Mercury, of Venus and of the nutation, as in
    src/astro.go; the second revision has the same numbers. *)
Definition sunf : list (list R) :=
  [[-0.265; 0; 3.760; 0; 0.200; 0];
   [-0.021; 0; 5.180; 0; 1.882; 3.8991; -0.030; 0];
   [0.075; 5.1766; 4.838; 5.2203; 0.074; 3.6285; 0.116; 2.5988; 5.526;
    2.5885; 2.497; 5.5143; 0.044; 5.4350; 0.666; 3.1016; 1.559; 6.0258;
    1.024; 5.5527; 0.210; 3.5989; 0.144; 3.4104; 0.152; 6.0004; 0.084;
    4.1120; 0.037; 3.8711; 0.123; 3.4086; 0.154; 6.2762; 0.038; 4.6094;
    0.020; 5.1313; 0.042; 4.5239; 0.032; 0.8517; 0.273; 3.7996; 0.048;
    4.5431; 0.041; 6.0388; 2.043; 6.0020; 1.770; 3.4977; 0.028; 2.5831;
    0.129; 5.1348; 0.425; 5.9146; 0.034; 1.2391; 0.500; 1.8357; 0.585;
    5.8304; 0.085; 0.9529; 0.204; 1.7593; 0.020; 3.2463; 0.154; 3.9689;
    0.101; 1.6808; 0.049; 3.0805; 0.106; 3.8868; 0.052; 6.0895; 0.021;
    3.7559; 0.028; 5.2011; 0.062; 6.0388; 0.044; 1.8483; 0.045; 3.9759;
    0.021; 5.3931; 0.026; 1.9722; 0.163; 3.4662; 7.208; 3.1334; 2.600;
    4.5940; 0.073; 4.8223; 0.069; 1.4102; 2.731; 1.5210; 1.610; 1.9110;
    0.073; 4.4087; 0.164; 2.9758; 0.556; 1.4425; 0.210; 1.7261; 0.044;
    2.9356; 0.080; 1.3561; 0.419; 1.7555; 0.320; 4.7030; 0.108; 5.0719;
    0.112; 5.1243; 0.021; 5.0440];
   [6.454; 0; 0.177; 0; -0.424; 0; 0.039; 0; -0.064; 0; 0.172; 0];
   [-0.092; 1.6354; -0.067; 2.1468; -0.210; 2.6494; -0.166; 4.6338];
   [0.576; 0; -0.047; 0; 0.021; 0];
   [2.359e-6; 3.6607; 6.842e-6; 1.0180; 0.869e-6; 3.9567; 1.045e-6; 1.5332;
    1.497e-6; 4.4691; 0.376e-6; 2.0295; 2.057e-6; 4.0941; 0.215e-6; 4.3459;
    0.478e-6; 0.2648; 0.208e-6; 1.9548; 7.067e-6; 1.5630; 0.244e-6; 5.9097;
    4.026e-6; 6.2526; 1.459e-6; 0.3409; 0.281e-6; 1.4172; 0.803e-6; 6.1533;
    0.429e-6; 0.1850];
   [13.36e-6; 0; -1.33e-6; 0; 0.37e-6; 0; 0.36e-6; 0]].

Definition sunc : list (list Z) :=
  [[4; -7; 3; 0; -8; 4; 0; 3; 15; -8; 0; 0];
   [4; -7; 3; 0; 0; -8; 4; 0; 3; 0; 0; 13; -8; 0; 1; 15; -8; 0; 0; 0];
   [0; 0; 1; 0; 0; 0; -1; 1; 0; 0; 0; -2; 1; 0; 0; 0; -1; 2; 0; 0; 0; -2; 2;
    0; 0; 0; -3; 2; 0; 0; 0; -4; 2; 0; 0; 0; -3; 3; 0; 0; 0; -4; 3; 0; 0; 0;
    -5; 3; 0; 0; 0; -4; 4; 0; 0; 0; -5; 4; 0; 0; 0; -6; 4; 0; 0; 0; -5; 5;
    0; 0; 0; -6; 5; 0; 0; 0; -7; 5; 0; 0; 0; -8; 5; 0; 0; 0; -6; 6; 0; 0; 0;
    -7; 7; 0; 0; 0; -12; 8; 0; 0; 0; -14; 8; 0; 0; -1; 1; 0; 0; 0; -1; 0; 0;
    0; 0; -2; 3; 0; 0; 0; -2; 2; 0; 0; 0; -2; 1; 0; 0; 0; -2; 0; 0; 0; 0;
    -3; 3; 0; 0; 0; -3; 2; 0; 0; 0; -4; 4; 0; 0; 0; -4; 3; 0; 0; 0; -4; 2;
    0; 0; 0; -5; 4; 0; 0; 0; -5; 3; 0; 0; 0; -6; 5; 0; 0; 0; -6; 4; 0; 0; 0;
    -6; 3; 0; 0; 0; -7; 5; 0; 0; 0; -7; 4; 0; 0; 0; -8; 5; 0; 0; 0; -8; 4;
    0; 0; 0; -9; 6; 0; 0; 0; -9; 5; 0; 0; 0; -11; 6; 0; 0; 0; -13; 7; 0; 0;
    0; -15; 9; 0; 0; 0; -17; 9; 0; 0; 0; 0; 2; 0; -1; 0; 0; 1; 0; -1; 0; 0;
    0; 0; -1; 0; 0; -1; 0; -1; 0; 0; 3; 0; -2; 0; 0; 2; 0; -2; 0; 0; 1; 0;
    -2; 0; 0; 0; 0; -2; 0; 0; 3; 0; -3; 0; 0; 2; 0; -3; 0; 0; 1; 0; -3; 0;
    0; 3; 0; -4; 0; 0; 2; 0; -4; 0; 0; 1; 0; 0; -1; 0; 0; 0; 0; -1; 0; 2; 0;
    0; -2; 0; 1; 0; 0; -2; 0; 2; 0; 0; -3];
   [1; 0; 0; 1; 1; 0; 1; -1; 0; 3; -1; 0; 1; 0; 1; 1; 0; -1];
   [-2; 1; 0; -3; 2; 0; -4; 2; 0; 1; 0; -2];
   [1; 0; 0; 1; -1; 0; -1; 0; 2];
   [0; -1; 1; 0; 0; 0; -2; 2; 0; 0; 0; -3; 2; 0; 0; 0; -3; 3; 0; 0; 0; -4;
    3; 0; 0; 0; -4; 4; 0; 0; -2; 2; 0; 0; 0; -3; 2; 0; 0; 0; -4; 3; 0; 0; 0;
    0; 2; 0; -1; 0; 0; 1; 0; -1; 0; 0; 0; 0; -1; 0; 0; 2; 0; -2; 0; 0; 1; 0;
    -2; 0; 0; 3; 0; -3; 0; 0; 2; 0; -3; 0; 0; 1; 0; 0; -1];
   [1; 0; 0; 1; -1; 0; 1; 1; 0; 1; 0; -1]]%Z.

Definition mercf : list (list R) :=
  [[0.013; 0.6807; 0.048; 0.6283; 0.185; 0.6231; 0.711; 0.6191; 0.285;
    0.5784; 0.075; 0.5411; 0.019; 0.5585; 0.010; 2.8449; 0.039; 2.8117;
    0.147; 2.8135; 0.552; 2.8126; 2.100; 2.8126; 3.724; 2.8046; 0.729;
    2.7883; 0.186; 2.7890; 0.049; 2.7943; 0.013; 2.7402; 0.033; 1.8361;
    0.118; 1.8396; 0.431; 1.8391; 1.329; 1.8288; 0.539; 4.8686; 0.111;
    4.8904; 0.027; 4.8956; 0.012; 3.9794; 0.056; 3.9636; 0.294; 3.9910;
    0.484; 3.9514; 0.070; 3.9270; 0.018; 3.9270; 0.013; 6.1261; 0.050;
    6.1052; 0.185; 6.1069; 0.685; 6.1011; 2.810; 6.1062; 7.356; 6.0699;
    1.471; 6.0685; 0.375; 6.0687; 0.098; 6.0720; 0.026; 6.0476; 0.062;
    5.1540; 0.122; 5.1191; 0.011; 0.9076; 0.074; 1.0123; 0.106; 0.9372;
    0.017; 0.9425; 0.020; 0.0506; 0.052; 0.0384; 0.052; 3.0281; 0.012;
    3.0543; 0.011; 2.1642; 0.016; 2.2340; 0.040; 4.3912; 0.080; 4.4262;
    0.016; 4.4506];
   [0.014; 1.0996; 0.056; 1.1153; 0.219; 1.1160; 0.083; 1.0734; 0.024;
    0.9442; 0.018; 3.8432; 0.070; 3.8293; 0.256; 3.8230; 0.443; 3.8132;
    0.080; 3.7647; 0.020; 3.7734; 0.019; 0.0000; 0.133; 0.1134; 0.129;
    6.2588; 0.026; 6.2413; 0.026; 2.6599; 0.087; 2.6232; 0.374; 2.6496;
    0.808; 2.5470; 0.129; 2.5587; 0.019; 2.5534; 0.012; 2.1642];
   [0.014; 3.1416; 0.047; 3.1625; 0.179; 3.1695; 0.697; 3.1603; 0.574;
    4.1315; 0.181; 4.2537; 0.047; 4.2481; 0.013; 4.2062; 0.018; 0.6650;
    0.069; 0.6405; 0.253; 0.6449; 0.938; 0.6454; 3.275; 0.6458; 0.499;
    0.5569; 0.119; 0.5271; 0.032; 0.5184; 0.030; 0.4939; 0.106; 0.4171;
    0.353; 0.4510; 0.056; 0.3840; 0.013; 0.3142; 0.028; 0.2531];
   [0.034; 0.9512; 0.060; 4.7962; 0.028; 4.7124; 0.028; 4.1836; 0.102;
    4.1871; 0.380; 4.1864; 0.059; 4.1818; 0.015; 4.2185; 0.012; 4.1713;
    0.050; 4.1870];
   [0.218e-6; 5.3369; 0.491e-6; 5.3281; 0.172e-6; 2.1642; 0.091e-6; 2.1084;
    0.204e-6; 1.2460; 0.712e-6; 1.2413; 2.370e-6; 1.2425; 0.899e-6; 1.2303;
    0.763e-6; 4.3633; 0.236e-6; 4.3590; 0.163e-6; 0.2705; 0.541e-6; 0.2710;
    1.157e-6; 0.2590; 0.099e-6; 0.1798; 0.360e-6; 2.4237; 0.234e-6; 2.3740;
    0.253e-6; 4.5365; 0.849e-6; 4.5293; 2.954e-6; 4.5364; 0.282e-6; 4.4581;
    1.550e-6; 1.3570; 0.472e-6; 1.3561; 0.135e-6; 1.3579; 0.081e-6; 3.5936;
    0.087e-6; 3.5500; 0.087e-6; 5.7334];
   [0.181e-6; 5.8275; 0.095e-6; 2.2427; 0.319e-6; 2.2534; 0.256e-6; 2.2403;
    0.157e-6; 4.8292; 0.106e-6; 1.0332; 0.397e-6; 1.0756; 0.143e-6; 4.0980];
   [0.222e-6; 1.6024; 0.708e-6; 1.5949; 0.191e-6; 5.7914; 0.100e-6; 5.3564;
    0.347e-6; 5.3548; 1.185e-6; 5.3576; 3.268e-6; 5.3579; 0.371e-6; 2.2148;
    0.160e-6; 2.1241; 0.134e-6; 5.1260; 0.347e-6; 5.1620]].

Definition mercc : list (list Z) :=
  [[4; 1; 3; 1; 2; 1; 1; 1; 0; 1; -1; 1; -2; 1; 6; 2; 5; 2; 4; 2; 3; 2; 2;
    2; 1; 2; 0; 2; -1; 2; -2; 2; -3; 2; 5; 3; 4; 3; 3; 3; 2; 3; 1; 3; 0; 3;
    -1; 3; 5; 4; 4; 4; 3; 4; 2; 4; 1; 4; 0; 4; 7; 5; 6; 5; 5; 5; 4; 5; 3; 5;
    2; 5; 1; 5; 0; 5; -1; 5; -2; 5; 4; 6; 3; 6; 5; 7; 4; 7; 3; 7; 2; 7; 5;
    8; 4; 8; 3; 8; 2; 8; 5; 9; 4; 9; 5; 10; 4; 10; 3; 10];
   [3; 1; 2; 1; 1; 1; 0; 1; -1; 1; 4; 2; 3; 2; 2; 2; 1; 2; 0; 2; -1; 2; 3;
    3; 2; 3; 1; 3; 0; 3; 4; 4; 3; 4; 2; 4; 1; 4; 0; 4; -1; 4; 2; 5];
   [4; 1; 3; 1; 2; 1; 1; 1; 0; 1; -1; 1; -2; 1; -3; 1; 5; 2; 4; 2; 3; 2; 2;
    2; 1; 2; 0; 2; -1; 2; -2; 2; 3; 3; 2; 3; 1; 3; 0; 3; -1; 3; 1; 4];
   [1; 1; 0; 1; -1; 1; 3; 2; 2; 2; 1; 2; 0; 2; -1; 2; 2; 3; 1; 3];
   [2; 1; 1; 1; 0; 1; -1; 1; 4; 2; 3; 2; 2; 2; 1; 2; 0; 2; -1; 2; 4; 3; 3;
    3; 2; 3; 0; 3; 3; 4; 2; 4; 5; 5; 4; 5; 3; 5; 2; 5; 1; 5; 0; 5; -1; 5; 4;
    6; 3; 6; 4; 7];
   [1; 1; 3; 2; 2; 2; 1; 2; 2; 3; 3; 4; 2; 4; 0; 4];
   [2; 1; 1; 1; -1; 1; 4; 2; 3; 2; 2; 2; 1; 2; 0; 2; -1; 2; 2; 3; 1; 3]]%Z.

Definition venf : list (list R) :=
  [[4.889; 2.0788; 11.261; 2.5870; 7.128; 6.2384; 3.446; 2.3721; 1.034;
    0.4632; 1.575; 3.3847; 1.439; 2.4099; 1.208; 4.1464; 2.966; 3.6318;
    1.563; 4.6829];
   [0.122; 4.2726; 0.300; 0.0218; 0.159; 1.3491];
   [2.246e-6; 0.5080; 9.772e-6; 1.0159; 8.271e-6; 4.6674; 0.737e-6; 0.8267;
    1.426e-6; 5.1747; 0.510e-6; 5.7009; 1.572e-6; 1.8188; 0.717e-6; 2.2969;
    2.991e-6; 2.0611; 1.335e-6; 0.9628]].

Definition venc : list (list Z) :=
  [[1; -1; 0; 0; 2; -2; 0; 0; 3; -3; 0; 0; 2; -3; 0; 0; 4; -4; 0; 0; 4; -5;
    0; 0; 3; -5; 0; 0; 1; 0; -3; 0; 1; 0; 0; -1; 0; 0; 0; -1];
   [0; -1; 0; 4; -5; 0; 1; 0; -2];
   [1; -1; 0; 0; 2; -2; 0; 0; 3; -3; 0; 0; 2; -3; 0; 0; 4; -4; 0; 0; 5; -5;
    0; 0; 4; -5; 0; 0; 2; 0; -3; 0; 1; 0; 0; -1; 2; 0; 0; -2]]%Z.

Definition nutf : list (list R) :=
  [[0.2088; 0; -1.2730; 0; 0.1258; 0; -0.0496; 0; 0.0214; 0; 0.0124; 0];
   [9.2109; 0; -0.0904; 0; 0.5519; 0; 0.0215; 0; -0.0093; 0; -0.0066; 0];
   [-0.2037; 0; 0.0675; 0; -0.0342; 0; -0.0261; 0; -0.0149; 0; 0.0114; 0;
    0.0060; 0; 0.0058; 0; -0.0057; 0; -0.0052; 0];
   [0.0884; 0; 0.0183; 0; 0.0113; 0; -0.0050; 0]].

Definition nutc : list (list Z) :=
  [[2; 0; 0; 0; 2; 2; -2; 0; 0; 0; 0; 1; 2; 2; -2; 1; 2; 2; -2; -1; 1; 2;
    -2; 0];
   [1; 0; 0; 0; 2; 0; 0; 0; 2; 2; -2; 0; 2; 2; -2; 1; 2; 2; -2; -1; 1; 2;
    -2; 0];
   [2; 2; 0; 0; 0; 0; 1; 0; 1; 2; 0; 0; 2; 2; 1; 0; 0; 0; 1; -2; 2; 2; -1;
    0; 0; 0; 0; 2; 1; 0; 1; 0; 1; 0; -1; 0; 2; 2; -1; 2];
   [2; 2; 0; 1; 2; 0; 2; 2; 1; 2; 2; -1]]%Z.

(** The calls of [cosadd] and [sinadd] in [sun], [merc], [venus] and
    [nutate]: the two tables and the number of coefficients of each. *)
Definition series_calls : list (list R * list Z * nat) :=
  [ (* sun *)
   (nth 0 sunf [], nth 0 sunc [], 4%nat);
   (nth 1 sunf [], nth 1 sunc [], 5%nat);
   (nth 2 sunf [], nth 2 sunc [], 5%nat);
   (nth 3 sunf [], nth 3 sunc [], 3%nat);
   (nth 4 sunf [], nth 4 sunc [], 3%nat);
   (nth 5 sunf [], nth 5 sunc [], 3%nat);
   (nth 6 sunf [], nth 6 sunc [], 5%nat);
   (nth 7 sunf [], nth 7 sunc [], 3%nat);
   (* merc *)
   (nth 0 mercf [], nth 0 mercc [], 2%nat);
   (nth 1 mercf [], nth 1 mercc [], 2%nat);
   (nth 2 mercf [], nth 2 mercc [], 2%nat);
   (nth 3 mercf [], nth 3 mercc [], 2%nat);
   (nth 4 mercf [], nth 4 mercc [], 2%nat);
   (nth 5 mercf [], nth 5 mercc [], 2%nat);
   (nth 6 mercf [], nth 6 mercc [], 2%nat);
   (* venus *)
   (nth 0 venf [], nth 0 venc [], 4%nat);
   (nth 1 venf [], nth 1 venc [], 3%nat);
   (nth 2 venf [], nth 2 venc [], 4%nat);
   (* nutate *)
   (nth 0 nutf [], nth 0 nutc [], 4%nat);
   (nth 1 nutf [], nth 1 nutc [], 4%nat);
   (nth 2 nutf [], nth 2 nutc [], 4%nat);
   (nth 3 nutf [], nth 3 nutc [], 3%nat)].

(** ** The table of the lunar series *)

(** [moonTab]: a term of the lunar series, its coefficient [f] and the
    four multiples [c[0]] to [c[3]]. *)
Record moonTab : Type := mt {
  mt_f : R; mt_c0 : Z; mt_c1 : Z; mt_c2 : Z; mt_c3 : Z }.

(** The table of src/astro.go, [moontab]: five runs of terms, each ended
    by an entry [{}], whose fields are all 0. *)
Definition moontab : list moonTab :=
  [mt 0.127 0 0 0 6; mt 13.902 0 0 0 4; mt 2369.912 0 0 0 2; mt 1.979 1 0 0 4;
   mt 191.953 1 0 0 2; mt 22639.500 1 0 0 0; mt (-4586.465) 1 0 0 (-2);
   mt (-38.428) 1 0 0 (-4); mt (-0.393) 1 0 0 (-6); mt (-0.289) 0 1 0 4;
   mt (-24.420) 0 1 0 2; mt (-668.146) 0 1 0 0; mt (-165.145) 0 1 0 (-2);
   mt (-1.877) 0 1 0 (-4); mt 0.403 0 0 0 3; mt (-125.154) 0 0 0 1;
   mt 0.213 2 0 0 4; mt 14.387 2 0 0 2; mt 769.016 2 0 0 0;
   mt (-211.656) 2 0 0 (-2); mt (-30.773) 2 0 0 (-4); mt (-0.570) 2 0 0 (-6);
   mt (-2.921) 1 1 0 2; mt (-109.673) 1 1 0 0; mt (-205.962) 1 1 0 (-2);
   mt (-4.391) 1 1 0 (-4); mt (-0.072) 1 1 0 (-6); mt 0.283 1 (-1) 0 4;
   mt 14.577 1 (-1) 0 2; mt 147.687 1 (-1) 0 0; mt 28.475 1 (-1) 0 (-2);
   mt 0.636 1 (-1) 0 (-4); mt (-0.189) 0 2 0 2; mt (-7.486) 0 2 0 0;
   mt (-8.096) 0 2 0 (-2); mt (-0.151) 0 2 0 (-4); mt (-0.085) 0 0 2 4;
   mt (-5.741) 0 0 2 2; mt (-411.608) 0 0 2 0; mt (-55.173) 0 0 2 (-2);
   mt (-8.466) 1 0 0 1; mt 18.609 1 0 0 (-1); mt 3.215 1 0 0 (-3);
   mt 0.150 0 1 0 3; mt 18.023 0 1 0 1; mt 0.560 0 1 0 (-1); mt 1.060 3 0 0 2;
   mt 36.124 3 0 0 0; mt (-13.193) 3 0 0 (-2); mt (-1.187) 3 0 0 (-4);
   mt (-0.293) 3 0 0 (-6); mt (-0.290) 2 1 0 2; mt (-7.649) 2 1 0 0;
   mt (-8.627) 2 1 0 (-2); mt (-2.740) 2 1 0 (-4); mt (-0.091) 2 1 0 (-6);
   mt 1.181 2 (-1) 0 2; mt 9.703 2 (-1) 0 0; mt (-2.494) 2 (-1) 0 (-2);
   mt 0.360 2 (-1) 0 (-4); mt (-1.167) 1 2 0 0; mt (-7.412) 1 2 0 (-2);
   mt (-0.311) 1 2 0 (-4); mt 0.757 1 (-2) 0 2; mt 2.580 1 (-2) 0 0;
   mt 2.533 1 (-2) 0 (-2); mt (-0.103) 0 3 0 0; mt (-0.344) 0 3 0 (-2);
   mt (-0.992) 1 0 2 2; mt (-45.099) 1 0 2 0; mt (-0.179) 1 0 2 (-2);
   mt (-0.301) 1 0 2 (-4); mt (-6.382) 1 0 (-2) 2; mt 39.528 1 0 (-2) 0;
   mt 9.366 1 0 (-2) (-2); mt 0.202 1 0 (-2) (-4); mt 0.415 0 1 2 0;
   mt (-2.152) 0 1 2 (-2); mt (-1.440) 0 1 (-2) 2; mt 0.076 0 1 (-2) 0;
   mt 0.384 0 1 (-2) (-2); mt (-0.586) 2 0 0 1; mt 1.750 2 0 0 (-1);
   mt 1.225 2 0 0 (-3); mt 1.267 1 1 0 1; mt 0.137 1 1 0 (-1);
   mt 0.233 1 1 0 (-3); mt (-0.122) 1 (-1) 0 1; mt (-1.089) 1 (-1) 0 (-1);
   mt (-0.276) 1 (-1) 0 (-3); mt 0.255 0 0 2 1; mt 0.584 0 0 2 (-1);
   mt 0.254 0 0 2 (-3); mt 0.070 4 0 0 2; mt 1.938 4 0 0 0;
   mt (-0.952) 4 0 0 (-2); mt (-0.551) 3 1 0 0; mt (-0.482) 3 1 0 (-2);
   mt (-0.100) 3 1 0 (-4); mt 0.088 3 (-1) 0 2; mt 0.681 3 (-1) 0 0;
   mt (-0.183) 3 (-1) 0 (-2); mt (-0.297) 2 2 0 (-2); mt (-0.161) 2 2 0 (-4);
   mt 0.197 2 (-2) 0 0; mt 0.254 2 (-2) 0 (-2); mt (-0.250) 1 3 0 (-2);
   mt (-0.123) 2 0 2 2; mt (-3.996) 2 0 2 0; mt 0.557 2 0 2 (-2);
   mt (-0.459) 2 0 (-2) 2; mt (-1.370) 2 0 (-2) 0; mt 0.538 2 0 (-2) (-2);
   mt 0.173 2 0 (-2) (-4); mt 0.263 1 1 2 0; mt 0.083 1 1 (-2) 2;
   mt (-0.083) 1 1 (-2) 0; mt 0.426 1 1 (-2) (-2); mt (-0.304) 1 (-1) 2 0;
   mt (-0.372) 1 (-1) (-2) 2; mt 0.083 1 (-1) (-2) 0; mt 0.418 0 0 4 0;
   mt 0.074 0 0 4 (-2); mt 0.130 3 0 0 (-1); mt 0.092 2 1 0 1;
   mt 0.084 2 1 0 (-3); mt (-0.352) 2 (-1) 0 (-1); mt 0.113 5 0 0 0;
   mt (-0.330) 3 0 2 0; mt 0.090 1 0 4 0; mt (-0.080) 1 0 (-4) 0; mt 0 0 0 0 0;
   mt (-112.79) 0 0 0 1; mt 2373.36 0 0 0 2; mt (-4.01) 0 0 0 3;
   mt 14.06 0 0 0 4; mt 6.98 1 0 0 4; mt 192.72 1 0 0 2; mt (-13.51) 1 0 0 1;
   mt 22609.07 1 0 0 0; mt 3.59 1 0 0 (-1); mt (-4578.13) 1 0 0 (-2);
   mt 5.44 1 0 0 (-3); mt (-38.64) 1 0 0 (-4); mt 14.78 2 0 0 2;
   mt 767.96 2 0 0 0; mt 2.01 2 0 0 (-1); mt (-152.53) 2 0 0 (-2);
   mt (-34.07) 2 0 0 (-4); mt 2.96 3 0 0 2; mt 50.64 3 0 0 0;
   mt (-16.40) 3 0 0 (-2); mt 3.60 4 0 0 0; mt (-1.58) 4 0 0 (-2);
   mt (-1.59) 0 1 0 4; mt (-25.10) 0 1 0 2; mt 17.93 0 1 0 1;
   mt (-126.98) 0 1 0 0; mt (-165.06) 0 1 0 (-2); mt (-6.46) 0 1 0 (-4);
   mt (-1.68) 0 2 0 2; mt (-16.35) 0 2 0 (-2); mt (-11.75) 1 1 0 2;
   mt 1.52 1 1 0 1; mt (-115.18) 1 1 0 0; mt (-182.36) 1 1 0 (-2);
   mt (-9.66) 1 1 0 (-4); mt (-2.27) (-1) 1 0 4; mt (-23.59) (-1) 1 0 2;
   mt (-138.76) (-1) 1 0 0; mt (-31.70) (-1) 1 0 (-2);
   mt (-1.53) (-1) 1 0 (-4); mt (-10.56) 2 1 0 0; mt (-7.59) 2 1 0 (-2);
   mt (-2.54) 2 1 0 (-4); mt 3.32 2 (-1) 0 2; mt 11.67 2 (-1) 0 0;
   mt (-6.12) 1 2 0 (-2); mt (-2.40) (-1) 2 0 2; mt (-2.32) (-1) 2 0 0;
   mt (-1.82) (-1) 2 0 (-2); mt (-52.14) 0 0 2 (-2); mt (-1.67) 0 0 2 (-4);
   mt (-9.52) 1 0 2 (-2); mt (-85.13) (-1) 0 2 0; mt 3.37 (-1) 0 2 (-2);
   mt (-2.26) 0 1 2 (-2); mt 0 0 0 0 0; mt (-0.725) 0 0 0 1; mt 0.601 0 0 0 2;
   mt 0.394 0 0 0 3; mt (-0.445) 1 0 0 4; mt 0.455 1 0 0 1;
   mt 0.192 1 0 0 (-3); mt 5.679 2 0 0 (-2); mt (-0.308) 2 0 0 (-4);
   mt (-0.166) 3 0 0 2; mt (-1.300) 3 0 0 0; mt 0.258 3 0 0 (-2);
   mt (-1.302) 0 1 0 0; mt (-0.416) 0 1 0 (-4); mt (-0.740) 0 2 0 (-2);
   mt 0.787 1 1 0 2; mt 0.461 1 1 0 0; mt 2.056 1 1 0 (-2);
   mt (-0.471) 1 1 0 (-4); mt (-0.443) (-1) 1 0 2; mt 0.679 (-1) 1 0 0;
   mt (-1.540) (-1) 1 0 (-2); mt 0.259 2 1 0 0; mt (-0.212) 2 (-1) 0 2;
   mt (-0.151) 2 (-1) 0 0; mt 0 0 0 0 0; mt (-526.069) 0 0 1 (-2);
   mt (-3.352) 0 0 1 (-4); mt 44.297 1 0 1 (-2); mt (-6.000) 1 0 1 (-4);
   mt 20.599 (-1) 0 1 0; mt (-30.598) (-1) 0 1 (-2); mt (-24.649) (-2) 0 1 0;
   mt (-2.000) (-2) 0 1 (-2); mt (-22.571) 0 1 1 (-2);
   mt 10.985 0 (-1) 1 (-2); mt 0 0 0 0 0; mt 0.2607 0 0 0 4; mt 28.2333 0 0 0 2;
   mt 0.0433 1 0 0 4; mt 3.0861 1 0 0 2; mt 186.5398 1 0 0 0;
   mt 34.3117 1 0 0 (-2); mt 0.6008 1 0 0 (-4); mt (-0.3000) 0 1 0 2;
   mt (-0.3997) 0 1 0 0; mt 1.9178 0 1 0 (-2); mt 0.0339 0 1 0 (-4);
   mt (-0.9781) 0 0 0 1; mt 0.2833 2 0 0 2; mt 10.1657 2 0 0 0;
   mt (-0.3039) 2 0 0 (-2); mt 0.3722 2 0 0 (-4); mt 0.0109 2 0 0 (-6);
   mt (-0.0484) 1 1 0 2; mt (-0.9490) 1 1 0 0; mt 1.4437 1 1 0 (-2);
   mt 0.0673 1 1 0 (-4); mt 0.2302 1 (-1) 0 2; mt 1.1528 1 (-1) 0 0;
   mt (-0.2257) 1 (-1) 0 (-2); mt (-0.0102) 1 (-1) 0 (-4);
   mt 0.0918 0 2 0 (-2); mt (-0.0124) 0 0 2 0; mt (-0.1052) 0 0 2 (-2);
   mt (-0.1093) 1 0 0 1; mt 0.0118 1 0 0 (-1); mt (-0.0386) 1 0 0 (-3);
   mt 0.1494 0 1 0 1; mt 0.0243 3 0 0 2; mt 0.6215 3 0 0 0;
   mt (-0.1187) 3 0 0 (-2); mt (-0.1038) 2 1 0 0; mt (-0.0192) 2 1 0 (-2);
   mt 0.0324 2 1 0 (-4); mt 0.0213 2 (-1) 0 2; mt 0.1268 2 (-1) 0 0;
   mt (-0.0106) 1 2 0 0; mt 0.0484 1 2 0 (-2); mt 0.0112 1 (-2) 0 2;
   mt 0.0196 1 (-2) 0 0; mt (-0.0212) 1 (-2) 0 (-2); mt (-0.0833) 1 0 2 (-2);
   mt (-0.0481) 1 0 (-2) 2; mt (-0.7136) 1 0 (-2) 0;
   mt (-0.0112) 1 0 (-2) (-2); mt (-0.0100) 2 0 0 1; mt 0.0155 2 0 0 (-1);
   mt 0.0164 1 1 0 1; mt 0.0401 4 0 0 0; mt (-0.0130) 4 0 0 (-2);
   mt 0.0115 3 (-1) 0 0; mt (-0.0141) 2 0 (-2) (-2); mt 0 0 0 0 0].

(** The table of the second revision, [moonTabs], one slice for each of
    the five sums. *)
Definition moonTabs : list (list moonTab) :=
  [[mt 0.127 0 0 0 6; mt 13.902 0 0 0 4; mt 2369.912 0 0 0 2;
    mt 1.979 1 0 0 4; mt 191.953 1 0 0 2; mt 22639.5 1 0 0 0;
    mt (-4586.465) 1 0 0 (-2); mt (-38.428) 1 0 0 (-4);
    mt (-0.393) 1 0 0 (-6); mt (-0.289) 0 1 0 4; mt (-24.42) 0 1 0 2;
    mt (-668.146) 0 1 0 0; mt (-165.145) 0 1 0 (-2);
    mt (-1.877) 0 1 0 (-4); mt 0.403 0 0 0 3; mt (-125.154) 0 0 0 1;
    mt 0.213 2 0 0 4; mt 14.387 2 0 0 2; mt 769.016 2 0 0 0;
    mt (-211.656) 2 0 0 (-2); mt (-30.773) 2 0 0 (-4);
    mt (-0.57) 2 0 0 (-6); mt (-2.921) 1 1 0 2; mt (-109.673) 1 1 0 0;
    mt (-205.962) 1 1 0 (-2); mt (-4.391) 1 1 0 (-4);
    mt (-0.072) 1 1 0 (-6); mt 0.283 1 (-1) 0 4; mt 14.577 1 (-1) 0 2;
    mt 147.687 1 (-1) 0 0; mt 28.475 1 (-1) 0 (-2); mt 0.636 1 (-1) 0 (-4);
    mt (-0.189) 0 2 0 2; mt (-7.486) 0 2 0 0; mt (-8.096) 0 2 0 (-2);
    mt (-0.151) 0 2 0 (-4); mt (-0.085) 0 0 2 4; mt (-5.741) 0 0 2 2;
    mt (-411.608) 0 0 2 0; mt (-55.173) 0 0 2 (-2); mt (-8.466) 1 0 0 1;
    mt 18.609 1 0 0 (-1); mt 3.215 1 0 0 (-3); mt 0.15 0 1 0 3;
    mt 18.023 0 1 0 1; mt 0.56 0 1 0 (-1); mt 1.06 3 0 0 2;
    mt 36.124 3 0 0 0; mt (-13.193) 3 0 0 (-2); mt (-1.187) 3 0 0 (-4);
    mt (-0.293) 3 0 0 (-6); mt (-0.29) 2 1 0 2; mt (-7.649) 2 1 0 0;
    mt (-8.627) 2 1 0 (-2); mt (-2.74) 2 1 0 (-4); mt (-0.091) 2 1 0 (-6);
    mt 1.181 2 (-1) 0 2; mt 9.703 2 (-1) 0 0; mt (-2.494) 2 (-1) 0 (-2);
    mt 0.36 2 (-1) 0 (-4); mt (-1.167) 1 2 0 0; mt (-7.412) 1 2 0 (-2);
    mt (-0.311) 1 2 0 (-4); mt 0.757 1 (-2) 0 2; mt 2.58 1 (-2) 0 0;
    mt 2.533 1 (-2) 0 (-2); mt (-0.103) 0 3 0 0; mt (-0.344) 0 3 0 (-2);
    mt (-0.992) 1 0 2 2; mt (-45.099) 1 0 2 0; mt (-0.179) 1 0 2 (-2);
    mt (-0.301) 1 0 2 (-4); mt (-6.382) 1 0 (-2) 2; mt 39.528 1 0 (-2) 0;
    mt 9.366 1 0 (-2) (-2); mt 0.202 1 0 (-2) (-4); mt 0.415 0 1 2 0;
    mt (-2.152) 0 1 2 (-2); mt (-1.44) 0 1 (-2) 2; mt 0.076 0 1 (-2) 0;
    mt 0.384 0 1 (-2) (-2); mt (-0.586) 2 0 0 1; mt 1.75 2 0 0 (-1);
    mt 1.225 2 0 0 (-3); mt 1.267 1 1 0 1; mt 0.137 1 1 0 (-1);
    mt 0.233 1 1 0 (-3); mt (-0.122) 1 (-1) 0 1; mt (-1.089) 1 (-1) 0 (-1);
    mt (-0.276) 1 (-1) 0 (-3); mt 0.255 0 0 2 1; mt 0.584 0 0 2 (-1);
    mt 0.254 0 0 2 (-3); mt 0.07 4 0 0 2; mt 1.938 4 0 0 0;
    mt (-0.952) 4 0 0 (-2); mt (-0.551) 3 1 0 0; mt (-0.482) 3 1 0 (-2);
    mt (-0.1) 3 1 0 (-4); mt 0.088 3 (-1) 0 2; mt 0.681 3 (-1) 0 0;
    mt (-0.183) 3 (-1) 0 (-2); mt (-0.297) 2 2 0 (-2);
    mt (-0.161) 2 2 0 (-4); mt 0.197 2 (-2) 0 0; mt 0.254 2 (-2) 0 (-2);
    mt (-0.25) 1 3 0 (-2); mt (-0.123) 2 0 2 2; mt (-3.996) 2 0 2 0;
    mt 0.557 2 0 2 (-2); mt (-0.459) 2 0 (-2) 2; mt (-1.37) 2 0 (-2) 0;
    mt 0.538 2 0 (-2) (-2); mt 0.173 2 0 (-2) (-4); mt 0.263 1 1 2 0;
    mt 0.083 1 1 (-2) 2; mt (-0.083) 1 1 (-2) 0; mt 0.426 1 1 (-2) (-2);
    mt (-0.304) 1 (-1) 2 0; mt (-0.372) 1 (-1) (-2) 2;
    mt 0.083 1 (-1) (-2) 0; mt 0.418 0 0 4 0; mt 0.074 0 0 4 (-2);
    mt 0.13 3 0 0 (-1); mt 0.092 2 1 0 1; mt 0.084 2 1 0 (-3);
    mt (-0.352) 2 (-1) 0 (-1); mt 0.113 5 0 0 0; mt (-0.33) 3 0 2 0;
    mt 0.09 1 0 4 0; mt (-0.08) 1 0 (-4) 0];
   [mt (-112.79) 0 0 0 1; mt 2373.36 0 0 0 2; mt (-4.01) 0 0 0 3;
    mt 14.06 0 0 0 4; mt 6.98 1 0 0 4; mt 192.72 1 0 0 2;
    mt (-13.51) 1 0 0 1; mt 22609.07 1 0 0 0; mt 3.59 1 0 0 (-1);
    mt (-4578.13) 1 0 0 (-2); mt 5.44 1 0 0 (-3); mt (-38.64) 1 0 0 (-4);
    mt 14.78 2 0 0 2; mt 767.96 2 0 0 0; mt 2.01 2 0 0 (-1);
    mt (-152.53) 2 0 0 (-2); mt (-34.07) 2 0 0 (-4); mt 2.96 3 0 0 2;
    mt 50.64 3 0 0 0; mt (-16.4) 3 0 0 (-2); mt 3.6 4 0 0 0;
    mt (-1.58) 4 0 0 (-2); mt (-1.59) 0 1 0 4; mt (-25.1) 0 1 0 2;
    mt 17.93 0 1 0 1; mt (-126.98) 0 1 0 0; mt (-165.06) 0 1 0 (-2);
    mt (-6.46) 0 1 0 (-4); mt (-1.68) 0 2 0 2; mt (-16.35) 0 2 0 (-2);
    mt (-11.75) 1 1 0 2; mt 1.52 1 1 0 1; mt (-115.18) 1 1 0 0;
    mt (-182.36) 1 1 0 (-2); mt (-9.66) 1 1 0 (-4); mt (-2.27) (-1) 1 0 4;
    mt (-23.59) (-1) 1 0 2; mt (-138.76) (-1) 1 0 0;
    mt (-31.7) (-1) 1 0 (-2); mt (-1.53) (-1) 1 0 (-4);
    mt (-10.56) 2 1 0 0; mt (-7.59) 2 1 0 (-2); mt (-2.54) 2 1 0 (-4);
    mt 3.32 2 (-1) 0 2; mt 11.67 2 (-1) 0 0; mt (-6.12) 1 2 0 (-2);
    mt (-2.4) (-1) 2 0 2; mt (-2.32) (-1) 2 0 0; mt (-1.82) (-1) 2 0 (-2);
    mt (-52.14) 0 0 2 (-2); mt (-1.67) 0 0 2 (-4); mt (-9.52) 1 0 2 (-2);
    mt (-85.13) (-1) 0 2 0; mt 3.37 (-1) 0 2 (-2); mt (-2.26) 0 1 2 (-2)];
   [mt (-0.725) 0 0 0 1; mt 0.601 0 0 0 2; mt 0.394 0 0 0 3;
    mt (-0.445) 1 0 0 4; mt 0.455 1 0 0 1; mt 0.192 1 0 0 (-3);
    mt 5.679 2 0 0 (-2); mt (-0.308) 2 0 0 (-4); mt (-0.166) 3 0 0 2;
    mt (-1.3) 3 0 0 0; mt 0.258 3 0 0 (-2); mt (-1.302) 0 1 0 0;
    mt (-0.416) 0 1 0 (-4); mt (-0.74) 0 2 0 (-2); mt 0.787 1 1 0 2;
    mt 0.461 1 1 0 0; mt 2.056 1 1 0 (-2); mt (-0.471) 1 1 0 (-4);
    mt (-0.443) (-1) 1 0 2; mt 0.679 (-1) 1 0 0; mt (-1.54) (-1) 1 0 (-2);
    mt 0.259 2 1 0 0; mt (-0.212) 2 (-1) 0 2; mt (-0.151) 2 (-1) 0 0];
   [mt (-526.069) 0 0 1 (-2); mt (-3.352) 0 0 1 (-4); mt 44.297 1 0 1 (-2);
    mt (-6) 1 0 1 (-4); mt 20.599 (-1) 0 1 0; mt (-30.598) (-1) 0 1 (-2);
    mt (-24.649) (-2) 0 1 0; mt (-2) (-2) 0 1 (-2);
    mt (-22.571) 0 1 1 (-2); mt 10.985 0 (-1) 1 (-2)];
   [mt 0.2607 0 0 0 4; mt 28.2333 0 0 0 2; mt 0.0433 1 0 0 4;
    mt 3.0861 1 0 0 2; mt 186.5398 1 0 0 0; mt 34.3117 1 0 0 (-2);
    mt 0.6008 1 0 0 (-4); mt (-0.3) 0 1 0 2; mt (-0.3997) 0 1 0 0;
    mt 1.9178 0 1 0 (-2); mt 0.0339 0 1 0 (-4); mt (-0.9781) 0 0 0 1;
    mt 0.2833 2 0 0 2; mt 10.1657 2 0 0 0; mt (-0.3039) 2 0 0 (-2);
    mt 0.3722 2 0 0 (-4); mt 0.0109 2 0 0 (-6); mt (-0.0484) 1 1 0 2;
    mt (-0.949) 1 1 0 0; mt 1.4437 1 1 0 (-2); mt 0.0673 1 1 0 (-4);
    mt 0.2302 1 (-1) 0 2; mt 1.1528 1 (-1) 0 0; mt (-0.2257) 1 (-1) 0 (-2);
    mt (-0.0102) 1 (-1) 0 (-4); mt 0.0918 0 2 0 (-2); mt (-0.0124) 0 0 2 0;
    mt (-0.1052) 0 0 2 (-2); mt (-0.1093) 1 0 0 1; mt 0.0118 1 0 0 (-1);
    mt (-0.0386) 1 0 0 (-3); mt 0.1494 0 1 0 1; mt 0.0243 3 0 0 2;
    mt 0.6215 3 0 0 0; mt (-0.1187) 3 0 0 (-2); mt (-0.1038) 2 1 0 0;
    mt (-0.0192) 2 1 0 (-2); mt 0.0324 2 1 0 (-4); mt 0.0213 2 (-1) 0 2;
    mt 0.1268 2 (-1) 0 0; mt (-0.0106) 1 2 0 0; mt 0.0484 1 2 0 (-2);
    mt 0.0112 1 (-2) 0 2; mt 0.0196 1 (-2) 0 0; mt (-0.0212) 1 (-2) 0 (-2);
    mt (-0.0833) 1 0 2 (-2); mt (-0.0481) 1 0 (-2) 2;
    mt (-0.7136) 1 0 (-2) 0; mt (-0.0112) 1 0 (-2) (-2);
    mt (-0.01) 2 0 0 1; mt 0.0155 2 0 0 (-1); mt 0.0164 1 1 0 1;
    mt 0.0401 4 0 0 0; mt (-0.013) 4 0 0 (-2); mt 0.0115 3 (-1) 0 0;
    mt (-0.0141) 2 0 (-2) (-2)]].

(** A loop of [moon] over [moontab] from the index [i], where [rest] is
    the table from [i] on; at the end of the table the index is out of
    range.
<<
  for {
      if moontab[i].f == 0 { break }
      x += sinx(moontab[i].f, moontab[i].c[0], ..., moontab[i].c[3], 0)
      i++
  }
>> *)
Fixpoint walk (term : moonTab -> R) (rest : list moonTab) (i : nat) (x : R)
  : option (R * nat) :=
  match rest with
  | [] => None
  | e :: rest' =>
      if Req_dec_T (mt_f e) 0 then Some (x, i)
      else walk term rest' (S i) (x + term e)
  end.

Section MoonSeries.

Variables mnom msun noded dmoon k1 k2 k3 k4 : R.

Definition sin_term (e : moonTab) : R :=
  sinx mnom msun noded dmoon k1 k2 k3 k4
       (mt_f e) (mt_c0 e) (mt_c1 e) (mt_c2 e) (mt_c3 e) 0.

Definition cos_term (e : moonTab) : R :=
  cosx mnom msun noded dmoon k1 k2 k3 k4
       (mt_f e) (mt_c0 e) (mt_c1 e) (mt_c2 e) (mt_c3 e) 0.

(** The five loops of [moon], each from the entry after the one the loop
    before it stopped at: the solar terms in longitude, the three sums of
    the latitude, and the parallax, which starts from 3422.7.  The
    planetary terms [moon] adds in between do not read the table. *)
Definition moon_sums (tab : list moonTab)
  : option (R * R * R * R * R * nat) :=
  r <- walk sin_term tab 0 0 ;;
  let '(lterms, i) := r in
  let i := S i in
  r <- walk sin_term (skipn i tab) i 0 ;;
  let '(sterms, i) := r in
  let i := S i in
  r <- walk cos_term (skipn i tab) i 0 ;;
  let '(cterms, i) := r in
  let i := S i in
  r <- walk sin_term (skipn i tab) i 0 ;;
  let '(nterms, i) := r in
  let i := S i in
  r <- walk cos_term (skipn i tab) i (3422.700) ;;
  let '(spterms, i) := r in
  Some (lterms, sterms, cterms, nterms, spterms, i).

(** The five loops of the second revision, each over its slice:
<<
  for _, t := range moonTabs[0] {
      lterms += sinx(t.f, t.c[0], t.c[1], t.c[2], t.c[3], 0)
  }
>> *)
Definition range_sum (term : moonTab -> R) (tab : list moonTab) (x : R) : R :=
  fold_left (fun x e => x + term e) tab x.

Definition moon_sums' (tabs : list (list moonTab)) : R * R * R * R * R :=
  (range_sum sin_term (nth 0 tabs []) 0,
   range_sum sin_term (nth 1 tabs []) 0,
   range_sum cos_term (nth 2 tabs []) 0,
   range_sum sin_term (nth 3 tabs []) 0,
   range_sum cos_term (nth 4 tabs []) (3422.7)).

End MoonSeries.

(** The terms of the table from the index [lo] up to [hi], [hi] excluded,
    added to [x] in their order. *)
Definition section_sum (term : moonTab -> R) (lo hi : nat) (x : R) : R :=
  fold_left (fun x e => x + term e) (firstn (hi - lo) (skipn lo moontab)) x.

(** ** Sequences of calls and sample inputs *)

(** The buffers a sequence of calls of [event] can build, from the empty
    buffer the program starts with. *)
Inductive reachable (unrep : R -> Z) (dark light : Z) (osun_point : samples)
  : list evt -> Prop :=
| reach_empty : reachable unrep dark light osun_point []
| reach_event (events events' : list evt) (e : evt) (err : option error) :
    reachable unrep dark light osun_point events ->
    event unrep dark light osun_point events e = Some (err, events') ->
    reachable unrep dark light osun_point events'.

(** The conversion of an unrepresentable value on amd64. *)
Definition unrep_amd64 : R -> Z := fun _ => Go.min_int.

(** A sample that only has an elevation. *)
Definition at_el (x : R) : obj1 := mk_obj1 0 0 0 0 x 0.

(** The Sun five degrees under the horizon through the whole window. *)
Definition twilight : samples := fun _ => at_el (-5).

(** A body one radian west of the equinox, on the equator, seen from the
    Greenwich meridian at sidereal time 0, without parallax. *)
Definition west_of_equinox : Var.t :=
  Var.mk 0 (-1) 0 0 0 0 0 0 0 0 0 0 0 0 0 0 0.

(** An event with no time and no flag, as [search] submits for the phases
    of the Moon. *)
Definition new_moon : evt := mk_evt "New moon" 0 0.

(** An occultation of a star that needs darkness, with the flags of
    astro.go, and a transit that needs sunlight, with those of the second
    revision; both one sample into the window. *)
Definition sao_occultation : evt :=
  mk_evt "Occultation of SAO 098967 begins at " 1
         (Z.lor AstroGo.ptime AstroGo.dark).
Definition venus_transit : evt :=
  mk_evt "Transit of Venus begins at " 1
         (Z.lor Rev2.signif (Z.lor Rev2.light Rev2.ptime)).

(** A body that climbs through the horizon between samples 3 and 4, where
    its elevation goes from -1 to 2 degrees, and sinks through it between
    samples 9 and 10. *)
Definition arc : samples :=
  fun i => at_el (nth i [-7; -5; -3; -1; 2; 4; 5; 4; 3; 1; -1; -3; -5; -7] 0).
Definition arc_body : obj2 unit :=
  mk_obj2 "venus" "Venus" (fun g => g) arc.

(** A disc of semidiameter 1 at the equinox, and a body that the
    ephemeris keeps there: its model writes that one sample, as [star]
    does with the sample of the catalog. *)
Definition disc : obj1 := mk_obj1 0 0 1 0 0 0.
Definition fixed_disc : obj2 obj1 :=
  mk_obj2 "star" "The star" (fun _ => disc) (fun _ => disc).

(** A body on the equator that moves away from the equinox by a hundredth
    of a radian per sample. *)
Definition drifting : obj2 obj1 :=
  mk_obj2 "comet" "The comet" (fun g => g)
          (fun i => mk_obj1 (INR (S i) / 100) 0 0 0 0 0).

(** Variables of the ephemeris that are no more than the current sample,
    with a [setime] that leaves them alone, and the module-level variables
    at their zero values. *)
Definition setime_id : R -> obj1 -> obj1 := fun _ g => g.
Definition cur_id : obj1 -> obj1 := fun g => g.
Definition obj3_zero : obj3 := mk_obj3 0 0 0 0 0 0 0 0 0 0.
Definition occt_zero : occt := mk_occt obj1_zero obj1_zero obj1_zero obj1_zero.
Definition vars_zero : vars obj1 :=
  mk_vars obj3_zero occt_zero occt_zero obj1_zero.

(** A Moon that moves from the equinox to one hour of right ascension
    over the 14 samples. *)
Definition moon_at_equinox : samples :=
  fun i => mk_obj1 (INR i * (PI / 156)) 0 0 0 0 0.


(** Two interpolants that evaluate alike: [setpt] reads the differences
    only, and leaves them as they are. *)
Definition same_curve (c oc : occt) : Prop := forall y, setpt c y = setpt oc y.

(** An ephemeris that keeps the time [setime] sets and the position the
    model of a body leaves, which [setobj] reads. *)
Definition clock : Type := (R * obj1)%type.
Definition setime_clock : R -> clock -> clock := fun d g => (d, snd g).
Definition cur_clock : clock -> obj1 := snd.
Definition vars_clock : vars clock :=
  mk_vars obj3_zero occt_zero occt_zero (0, obj1_zero).

(** A star at the equinox, and a Moon of semidiameter 1 that moves along
    the equator by 7200 seconds of arc per sample and passes the equinox
    at sample 6; the days start at 0. *)
Definition equinox_star : obj2 clock :=
  mk_obj2 "star" "The star" (fun g => (fst g, obj1_zero)) (fun _ => obj1_zero).
Definition passing (t : R) : obj1 :=
  mk_obj1 ((t - 6) * (7200 * radsec)) 0 1 0 0 0.
Definition passing_moon : obj2 clock :=
  mk_obj2 "moon" "The moon" (fun g => (fst g, passing (fst g / deld)))
          (fun i => passing (INR i)).

(** An interpolant on the equator whose right ascension is [a + x * b]
    at [x], with the semidiameter [s]. *)
Definition on_equator (oc : occt) (a b s : R) : Prop :=
  (ra (del0 oc) = a /\ ra (del1 oc) = b /\ ra (del2 oc) = 0) /\
  (decl2 (del0 oc) = 0 /\ decl2 (del1 oc) = 0 /\ decl2 (del2 oc) = 0) /\
  (semi2 (del0 oc) = s /\ semi2 (del1 oc) = 0 /\ semi2 (del2 oc) = 0).

(** * Properties *)

(** ** The numeric primitives *)

Lemma ltb_true (x y : R) : Go.ltb x y = true <-> x < y.
Proof. unfold Go.ltb; destruct (Rlt_dec x y); split; intros; auto; discriminate. Qed.

Lemma ltb_false (x y : R) : Go.ltb x y = false <-> y <= x.
Proof.
  unfold Go.ltb; destruct (Rlt_dec x y); split; intros; auto; try discriminate; lra.
Qed.

Lemma leb_true (x y : R) : Go.leb x y = true <-> x <= y.
Proof. unfold Go.leb; destruct (Rle_dec x y); split; intros; auto; discriminate. Qed.

Lemma leb_false (x y : R) : Go.leb x y = false <-> y < x.
Proof.
  unfold Go.leb; destruct (Rle_dec x y); split; intros; auto; try discriminate; lra.
Qed.

Lemma gtb_true (x y : R) : Go.gtb x y = true <-> x > y.
Proof. unfold Go.gtb; rewrite ltb_true; lra. Qed.

Lemma gtb_false (x y : R) : Go.gtb x y = false <-> x <= y.
Proof. unfold Go.gtb; rewrite ltb_false; lra. Qed.

Lemma Int_part_IZR (z : Z) : Int_part (IZR z) = z.
Proof. symmetry; apply Int_part_spec; lra. Qed.

Lemma trunc_IZR (z : Z) : Go.trunc (IZR z) = z.
Proof.
  unfold Go.trunc; destruct (Rle_dec 0 (IZR z)).
  - apply Int_part_IZR.
  - rewrite <- opp_IZR, Int_part_IZR; lia.
Qed.

Lemma trunc_small (x : R) : -1 < x < 1 -> Go.trunc x = 0%Z.
Proof.
  intros Hx; unfold Go.trunc; destruct (Rle_dec 0 x).
  - symmetry; apply Int_part_spec; simpl; lra.
  - assert (H : Int_part (- x) = 0%Z) by (symmetry; apply Int_part_spec; simpl; lra).
    rewrite H; reflexivity.
Qed.

Lemma int_IZR (unrep : R -> Z) (z : Z) :
  (Go.min_int <= z <= Go.max_int)%Z -> Go.int unrep (IZR z) = z.
Proof.
  intros Hz; unfold Go.int; rewrite trunc_IZR.
  destruct (Z.leb_spec Go.min_int z), (Z.leb_spec z Go.max_int); simpl; lia.
Qed.


(** ** Angle normalisation *)

Lemma pinorm_up_spec (a : R) :
  - PI <= pinorm_up a /\
  (a < - PI -> pinorm_up a < PI) /\
  (- PI <= a -> pinorm_up a = a) /\
  exists k : Z, pinorm_up a = a + IZR k * pipi.
Proof.
  funelim (pinorm_up a).
  - destruct H as (H1 & H2 & H3 & k & Hk).
    pose proof PI_RGT_0 as Hpi.
    clear Heq Heqcall.
    repeat split.
    + exact H1.
    + intros _. destruct (Rlt_dec (a + pipi) (- PI)) as [Hlt | Hge].
      * apply H2; exact Hlt.
      * rewrite H3 by lra. unfold pipi; lra.
    + intros; lra.
    + exists (k + 1)%Z. rewrite Hk, plus_IZR; lra.
  - clear Heq Heqcall. repeat split; try lra.
    exists 0%Z; lra.
Qed.

Lemma pinorm_down_spec (a : R) :
  pinorm_down a <= PI /\
  (PI < a -> - PI < pinorm_down a) /\
  (a <= PI -> pinorm_down a = a) /\
  exists k : Z, pinorm_down a = a + IZR k * pipi.
Proof.
  funelim (pinorm_down a).
  - destruct H as (H1 & H2 & H3 & k & Hk).
    pose proof PI_RGT_0 as Hpi.
    clear Heq Heqcall.
    repeat split.
    + exact H1.
    + intros _. destruct (Rgt_dec (a - pipi) PI) as [Hgt | Hle].
      * apply H2; exact Hgt.
      * rewrite H3 by lra. unfold pipi; lra.
    + intros; lra.
    + exists (k - 1)%Z. rewrite Hk, minus_IZR; lra.
  - clear Heq Heqcall. repeat split; try lra.
    exists 0%Z; lra.
Qed.

Lemma pinorm_id (a : R) : - PI <= a <= PI -> pinorm a = a.
Proof.
  intros [Hlo Hhi]; unfold pinorm.
  destruct (pinorm_up_spec a) as (_ & _ & Hup & _).
  rewrite Hup by exact Hlo.
  destruct (pinorm_down_spec a) as (_ & _ & Hdown & _).
  apply Hdown; exact Hhi.
Qed.

Lemma pinorm_bounds (a : R) :
  - PI <= pinorm a <= PI /\ exists k : Z, pinorm a = a + IZR k * pipi.
Proof.
  unfold pinorm.
  destruct (pinorm_up_spec a) as (Hlo & Hlt & Hid & k & Hk).
  destruct (pinorm_down_spec (pinorm_up a)) as (Hhi & Hgt & Hid' & k' & Hk').
  split; [split |].
  - destruct (Rlt_dec PI (pinorm_up a)) as [H | H].
    + left; apply Hgt; exact H.
    + rewrite Hid' by lra. exact Hlo.
  - exact Hhi.
  - exists (k + k')%Z. rewrite Hk', Hk, plus_IZR; lra.
Qed.

Lemma Mod_nonneg (x y : R) : 0 <= x -> 0 < y ->
  0 <= Go.Mod x y < y /\ exists k : Z, Go.Mod x y = x + IZR k * y.
Proof.
  intros Hx Hy; unfold Go.Mod, Go.trunc.
  assert (Hq : 0 <= x / y) .
  { unfold Rdiv; apply Rmult_le_pos; [lra |].
    left; apply Rinv_0_lt_compat; lra. }
  destruct (Rle_dec 0 (x / y)) as [_ | Hn]; [| contradiction].
  destruct (base_Int_part (x / y)) as [Hlo Hhi].
  set (n := IZR (Int_part (x / y))) in *.
  assert (Hxy : x = x / y * y) by (field; lra).
  split.
  - split.
    + assert (n * y <= x / y * y) by (apply Rmult_le_compat_r; lra). lra.
    + assert (x / y * y < (n + 1) * y) by (apply Rmult_lt_compat_r; lra). lra.
  - exists (- Int_part (x / y))%Z. rewrite opp_IZR. fold n. lra.
Qed.

Lemma piNorm_PI : piNorm PI = - PI.
Proof.
  pose proof PI_RGT_0 as Hpi.
  unfold piNorm, Go.Mod.
  replace ((PI + PI) / (2 * PI)) with (IZR 1) by (field; lra).
  rewrite trunc_IZR. lra.
Qed.

Lemma piNorm_below (a : R) : - 3 * PI < a < - PI -> piNorm a = a.
Proof.
  intros Ha; pose proof PI_RGT_0 as Hpi.
  unfold piNorm, Go.Mod.
  rewrite trunc_small.
  - lra.
  - assert (H : (a + PI) / (2 * PI) * (2 * PI) = a + PI) by (field; lra).
    split.
    + apply Rmult_lt_reg_r with (2 * PI); lra.
    + apply Rmult_lt_reg_r with (2 * PI); lra.
Qed.

Lemma piNorm_bounds (a : R) :
  - PI <= a ->
  - PI <= piNorm a < PI /\ exists k : Z, piNorm a = a + IZR k * pipi.
Proof.
  intros Ha; pose proof PI_RGT_0 as Hpi.
  destruct (Mod_nonneg (a + PI) (2 * PI)) as [[Hlo Hhi] [k Hk]]; try lra.
  unfold piNorm, pipi; split; [lra |].
  exists k. rewrite Hk. lra.
Qed.

(** C7, as the code has it.  [pinorm] returns, for every input, a value of
    the closed interval from -PI to PI that differs from the input by a
    whole number of turns; [piNorm] does so, with PI itself excluded, for
    every input not below -PI. *)
Theorem pinorm_range (a : R) :
  (- PI <= pinorm a <= PI /\ exists k : Z, pinorm a = a + IZR k * pipi) /\
  (- PI <= a ->
   - PI <= piNorm a < PI /\ exists k : Z, piNorm a = a + IZR k * pipi).
Proof.
  split; [apply pinorm_bounds | apply piNorm_bounds].
Qed.

(** The theorem at the input 0, which both functions leave alone. *)
Lemma pinorm_range_witness :
  - PI <= pinorm 0 <= PI /\ - PI <= piNorm 0 < PI.
Proof.
  pose proof PI_RGT_0 as Hpi.
  split.
  - exact (proj1 (proj1 (pinorm_range 0))).
  - apply (proj2 (pinorm_range 0)). lra.
Defined.

(** C7 as stated fails: -PI is returned as it is by [pinorm], PI is sent to
    -PI by [piNorm], and [piNorm] leaves -PI - 1 where it is. *)
Lemma pinorm_range_counterexample :
  pinorm (- PI) = - PI /\ ~ (- PI < pinorm (- PI) <= PI) /\
  piNorm PI = - PI /\ ~ (- PI < piNorm PI <= PI) /\
  piNorm (- PI - 1) = - PI - 1 /\ ~ (- PI < piNorm (- PI - 1) <= PI).
Proof.
  pose proof PI_RGT_0 as Hpi.
  pose proof PI2_1 as Hpi2.
  assert (H1 : pinorm (- PI) = - PI) by (apply pinorm_id; lra).
  assert (H2 : piNorm (- PI - 1) = - PI - 1) by (apply piNorm_below; lra).
  rewrite H1, piNorm_PI, H2.
  repeat split; lra.
Qed.

(** On binary64 too [pinorm] returns -PI as it is. *)
Lemma float64_pinorm_minus_pi :
  Float64.pinorm 1 (- Float64.Pi)%float = Some (- Float64.Pi)%float.
Proof. reflexivity. Qed.

(** On binary64 the first loop of [pinorm] never ends at -1e17, where
    adding [pipi] changes nothing. *)
Lemma float64_pinorm_spins (fuel : nat) :
  Float64.pinorm fuel (-1e17)%float = None.
Proof.
  assert (H : forall n, Float64.pinorm_up n (-1e17)%float = None).
  { induction n as [| n IH]; [reflexivity |].
    cbn [Float64.pinorm_up].
    change ((-1e17 <? - Float64.Pi)%float) with true.
    change ((-1e17 + Float64.pipi)%float) with (-1e17)%float.
    exact IH. }
  unfold Float64.pinorm; rewrite H; reflexivity.
Qed.

(** ** Geocentric to topocentric coordinates *)

Lemma Atan2_range (y x : R) : - PI < Go.Atan2 y x <= PI.
Proof.
  pose proof PI_RGT_0 as Hpi.
  pose proof (atan_bound (y / x)) as Hb.
  unfold Go.Atan2.
  destruct (Rlt_dec 0 x) as [Hx | Hx]; [lra |].
  destruct (Rlt_dec x 0) as [Hx' | Hx'].
  - destruct (Rle_dec 0 y) as [Hy | Hy].
    + assert (Hq : y / x <= 0).
      { destruct Hy as [Hy | <-]; [| rewrite Rdiv_0_l; lra].
        left; unfold Rdiv; rewrite Rmult_comm.
        apply Rmult_neg_pos; [apply Rinv_neg; exact Hx' | lra]. }
      assert (atan (y / x) <= 0).
      { destruct Hq as [Hq | Hq]; [| rewrite Hq, atan_0; lra].
        left; rewrite <- atan_0; apply atan_increasing; exact Hq. }
      lra.
    + assert (Hq : 0 < y / x) by (apply Rdiv_neg_neg; lra).
      assert (0 < atan (y / x)).
      { rewrite <- atan_0; apply atan_increasing; exact Hq. }
      lra.
  - destruct (Rlt_dec 0 y); [lra |].
    destruct (Rlt_dec y 0); lra.
Qed.

Lemma Atan2_sin_cos (x : R) : - (PI / 2) < x < PI / 2 ->
  Go.Atan2 (sin x) (cos x) = x.
Proof.
  intros Hx. unfold Go.Atan2.
  assert (Hc : 0 < cos x) by (apply cos_gt_0; lra).
  destruct (Rlt_dec 0 (cos x)) as [_ | Hn]; [| contradiction].
  apply atan_tan; exact Hx.
Qed.

Lemma setobj_ra (v : Var.t) : ra (setobj v) = Var.ra v.
Proof. reflexivity. Qed.

Lemma geo_with_ra (norm py : R -> R) (b : bool) (v : Var.t) :
  Var.ra (geo_with norm py b v) =
  norm (Var.gst v - Var.lha (geo_with norm py b v) - Var.wlong v).
Proof. reflexivity. Qed.

Lemma geo_with_lha (norm py : R -> R) (b : bool) (v : Var.t) :
  Var.lha (geo_with norm py b v) =
  let lha0 := Var.gst v - Var.alpha v - Var.wlong v in
  Go.Atan2 (cos (Var.delta v) * sin lha0)
           (cos (Var.delta v) * cos lha0
            - Var.erad v * cos (Var.glat v) * sin (Var.hp v)).
Proof. reflexivity. Qed.

(** C8, as the code has it.  The right ascension [geo] stores in the
    sample is what its normaliser returns: a value of the closed interval
    from -PI to PI in astro.go, and one from -PI up to PI, PI excluded, in
    the second revision when the angle it normalises is not below -PI.
    The local hour angle lies above -PI and at most at PI in both. *)
Theorem geo_ra_range (v : Var.t) :
  (- PI <= ra (setobj (geo v)) <= PI) /\
  (- PI < Var.lha (geo v) <= PI) /\
  (- PI < Var.lha (geo' v) <= PI) /\
  (- PI <= Var.gst v - Var.lha (geo' v) - Var.wlong v ->
   - PI <= ra (setobj (geo' v)) < PI).
Proof.
  repeat split.
  - rewrite setobj_ra. unfold geo. rewrite geo_with_ra. apply pinorm_bounds.
  - rewrite setobj_ra. unfold geo. rewrite geo_with_ra. apply pinorm_bounds.
  - unfold geo; rewrite geo_with_lha; apply Atan2_range.
  - unfold geo; rewrite geo_with_lha; apply Atan2_range.
  - unfold geo'; rewrite geo_with_lha; apply Atan2_range.
  - unfold geo'; rewrite geo_with_lha; apply Atan2_range.
  - rewrite setobj_ra. unfold geo'. rewrite geo_with_ra.
    apply piNorm_bounds; assumption.
  - rewrite setobj_ra. unfold geo'. rewrite geo_with_ra.
    apply piNorm_bounds; assumption.
Qed.

Lemma west_of_equinox_lha (norm py : R -> R) (b : bool) :
  Var.lha (geo_with norm py b west_of_equinox) = 1.
Proof.
  pose proof PI2_1 as Hpi.
  rewrite geo_with_lha; simpl.
  replace (0 - -1 - 0) with 1 by lra.
  rewrite cos_0, sin_0.
  replace (1 * sin 1) with (sin 1) by lra.
  replace (1 * cos 1 - 0 * 1 * 0) with (cos 1) by lra.
  apply Atan2_sin_cos; lra.
Qed.

(** The theorem at that body. *)
Lemma geo_ra_range_witness :
  - PI <= ra (setobj (geo west_of_equinox)) <= PI /\
  - PI <= ra (setobj (geo' west_of_equinox)) < PI.
Proof.
  split.
  - exact (proj1 (geo_ra_range west_of_equinox)).
  - apply (proj2 (proj2 (proj2 (geo_ra_range west_of_equinox)))).
    unfold geo'; rewrite west_of_equinox_lha; simpl.
    pose proof PI2_1; lra.
Defined.

(** C8 as stated fails: for that body both revisions store the right
    ascension -1, which is not in the interval from 0 to 2 PI. *)
Lemma geo_ra_counterexample :
  ra (setobj (geo west_of_equinox)) = -1 /\
  ra (setobj (geo' west_of_equinox)) = -1 /\
  ~ (0 <= ra (setobj (geo west_of_equinox)) < 2 * PI) /\
  ~ (0 <= ra (setobj (geo' west_of_equinox)) < 2 * PI).
Proof.
  pose proof PI2_1 as Hpi.
  assert (H1 : ra (setobj (geo west_of_equinox)) = -1).
  { rewrite setobj_ra; unfold geo; rewrite geo_with_ra, west_of_equinox_lha; simpl.
    replace (0 - 1 - 0) with (-1) by lra.
    apply pinorm_id; lra. }
  assert (H2 : ra (setobj (geo' west_of_equinox)) = -1).
  { rewrite setobj_ra; unfold geo'; rewrite geo_with_ra, west_of_equinox_lha; simpl.
    replace (0 - 1 - 0) with (-1) by lra.
    unfold piNorm, Go.Mod.
    rewrite trunc_small.
    - lra.
    - assert (H : (-1 + PI) / (2 * PI) * (2 * PI) = -1 + PI) by (field; lra).
      split; apply Rmult_lt_reg_r with (2 * PI); lra. }
  rewrite H1, H2. repeat split; lra.
Qed.

(** ** The comet *)

Lemma comet_ecc_cases (elem : Elem.cometElem) :
  (Elem.e elem > maxe /\ comet_ecc elem = maxe) \/
  (Elem.e elem <= maxe /\ comet_ecc elem = Elem.e elem).
Proof.
  unfold comet_ecc.
  destruct (Go.gtb (Elem.e elem) maxe) eqn:Hgt.
  - left; split; [apply gtb_true; exact Hgt | reflexivity].
  - right; split; [apply gtb_false; exact Hgt | reflexivity].
Qed.

(** C9.  Whatever the catalog eccentricity, the eccentricity [comet] gives
    the Kepler solver is at most 0.999, hence below 1: it is the catalog
    value when that is at most 0.999 and 0.999 otherwise. *)
Theorem comet_ecc_clamped (elem : Elem.cometElem) :
  comet_ecc elem <= 999 / 1000 /\
  comet_ecc elem < 1 /\
  (Elem.e elem > 999 / 1000 -> comet_ecc elem = 999 / 1000) /\
  (Elem.e elem <= 999 / 1000 -> comet_ecc elem = Elem.e elem) /\
  (forall (fuel : nat) (eday : R),
     comet_enom fuel elem eday =
     kepler fuel (comet_anom elem eday) (comet_ecc elem)).
Proof.
  destruct (comet_ecc_cases elem) as [[He Hc] | [He Hc]];
    unfold maxe in *; rewrite Hc; repeat split; try lra;
    intros; unfold comet_enom; rewrite Hc; reflexivity.
Qed.

(** The theorem at a hyperbolic catalog entry and at an entry with the
    eccentricity and perihelion distance of 153P/Ikeya-Zhang. *)
Lemma comet_ecc_clamped_witness :
  comet_ecc (Elem.mk 0 1 (12 / 10) 0 0 0) = 999 / 1000 /\
  comet_ecc (Elem.mk 0 (5070601 / 10 ^ 7) (990111 / 10 ^ 6) 0 0 0)
  = 990111 / 10 ^ 6.
Proof.
  split.
  - apply (proj1 (proj2 (proj2 (comet_ecc_clamped _)))). simpl. lra.
  - pose proof (proj1 (proj2 (proj2 (proj2 (comet_ecc_clamped
      (Elem.mk 0 (5070601 / 10 ^ 7) (990111 / 10 ^ 6) 0 0 0)))))) as H.
    apply H. simpl. lra.
Defined.

(** ** Kepler's equation *)

Lemma sin_abs_le (x : R) : Rabs (sin x) <= Rabs x.
Proof.
  pose proof PI2_1 as Hpi. pose proof (SIN_bound x) as [Hlo Hhi].
  destruct (Rtotal_order x 0) as [Hneg | [-> | Hpos]].
  - pose proof (sin_gt_x x Hneg) as Hgt.
    rewrite (Rabs_left x Hneg). apply Rabs_le. split; [lra |].
    destruct (Rle_dec (- PI) x) as [Hx | Hx]; [| lra].
    pose proof (sin_ge_0 (- x)) as Hs. rewrite sin_neg in Hs. lra.
  - rewrite sin_0, Rabs_R0; lra.
  - pose proof (sin_lt_x x Hpos) as Hlt.
    rewrite (Rabs_right x) by lra. apply Rabs_le. split; [| lra].
    destruct (Rle_dec x PI) as [Hx | Hx]; [| lra].
    pose proof (sin_ge_0 x). lra.
Qed.

Lemma sin_lipschitz (a b : R) : Rabs (sin a - sin b) <= Rabs (a - b).
Proof.
  rewrite form4.
  pose proof (COS_bound ((a + b) / 2)) as [Hc1 Hc2].
  pose proof (sin_abs_le ((a - b) / 2)) as Hs.
  assert (Hc : Rabs (cos ((a + b) / 2)) <= 1) by (apply Rabs_le; lra).
  replace (Rabs (a - b)) with (2 * Rabs ((a - b) / 2)).
  - rewrite !Rabs_mult, (Rabs_right 2) by lra.
    pose proof (Rabs_pos (sin ((a - b) / 2))).
    pose proof (Rabs_pos (cos ((a + b) / 2))).
    nra.
  - replace (a - b) with (2 * ((a - b) / 2)) at 2 by field.
    rewrite Rabs_mult, (Rabs_right 2) by lra. reflexivity.
Qed.

(** Whenever the loop of the solver ends, the value it leaves satisfies
    Kepler's equation to within 1e-13. *)
Lemma kepler_loop_residual (fuel : nat) (anom ecc enom E : R) :
  0 <= ecc < 1 ->
  kepler_loop fuel anom ecc enom = Some E ->
  Rabs (anom - E + ecc * sin E) < 1 / 10 ^ 13.
Proof.
  intros He. revert enom.
  induction fuel as [| fuel IH]; intros enom Hk; [discriminate |].
  cbn [kepler_loop] in Hk.
  set (dele := (anom - enom + ecc * sin enom) / (1 - ecc * cos enom)) in *.
  destruct (Go.leb (Rabs dele) converge) eqn:Hc; [| eapply IH; exact Hk].
  injection Hk as <-. apply leb_true in Hc.
  pose proof (COS_bound enom) as [Hc1 Hc2].
  assert (Hden : 0 < 1 - ecc * cos enom) by nra.
  assert (Hnum : anom - enom + ecc * sin enom = dele * (1 - ecc * cos enom)).
  { unfold dele; field; lra. }
  replace (anom - (enom + dele) + ecc * sin (enom + dele))
    with (ecc * ((sin (enom + dele) - sin enom) - dele * cos enom)) by lra.
  pose proof (sin_lipschitz (enom + dele) enom) as Hl.
  replace (enom + dele - enom) with dele in Hl by lra.
  assert (Hdc : Rabs (dele * cos enom) <= Rabs dele).
  { rewrite Rabs_mult.
    assert (Rabs (cos enom) <= 1) by (apply Rabs_le; lra).
    pose proof (Rabs_pos dele). nra. }
  pose proof (Rabs_triang (sin (enom + dele) - sin enom) (- (dele * cos enom)))
    as Ht.
  rewrite Rabs_Ropp in Ht.
  rewrite Rabs_mult, (Rabs_right ecc) by lra.
  assert (Hconv : converge = 1 / 10 ^ 14) by reflexivity.
  assert (Hpow : (10 ^ 14 = 10 * 10 ^ 13)%R) by (simpl; ring).
  assert (Hp13 : 0 < 10 ^ 13) by (apply pow_lt; lra).
  assert (Hc14 : converge * 10 = 1 / 10 ^ 13).
  { rewrite Hconv, Hpow. field. }
  unfold Rminus in *.
  pose proof (Rabs_pos (sin (enom + dele) + - sin enom + - (dele * cos enom))).
  nra.
Qed.

(** On a circular orbit the first correction of the solver is 0, and it
    returns the mean anomaly. *)
Lemma kepler_circular (anom : R) : kepler 1 anom 0 = Some anom.
Proof.
  unfold kepler; cbn [kepler_loop].
  replace ((anom - (anom + 0 * sin anom) + 0 * sin (anom + 0 * sin anom))
           / (1 - 0 * cos (anom + 0 * sin anom))) with 0 by (field; lra).
  rewrite Rabs_R0.
  assert (Hc : Go.leb 0 converge = true).
  { apply leb_true. unfold converge.
    apply Rlt_le, Rdiv_lt_0_compat; [lra | apply pow_lt; lra]. }
  rewrite Hc. f_equal; lra.
Qed.

(** The bound on the residual at the circular orbit of mean anomaly 1. *)
Lemma kepler_loop_residual_witness :
  kepler 1 1 0 = Some 1 /\ Rabs (1 - 1 + 0 * sin 1) < 1 / 10 ^ 13.
Proof.
  split; [apply kepler_circular |].
  apply (kepler_loop_residual 1 1 0 (1 + 0 * sin 1) 1);
    [lra | apply kepler_circular].
Defined.

(** ** The event sink *)

Section SinkFacts.

Variable unrep : R -> Z.
Variables dark light : Z.
Variable osun_point : samples.

Lemma index_in_range (a : samples) (i : Z) :
  (0 <= i < Z.of_nat len_point)%Z -> index a i = Some (a (Z.to_nat i)).
Proof.
  intros Hi; unfold index.
  destruct (Z.leb_spec 0 i), (Z.ltb_spec i (Z.of_nat len_point)); simpl;
    try lia; reflexivity.
Qed.

Lemma sunel_outside (t : R) :
  (Go.int unrep t < 0 \/ Go.int unrep t > Z.of_nat npts)%Z ->
  sunel unrep osun_point t = Some (-90).
Proof.
  intros Hi; unfold sunel.
  destruct (Z.ltb_spec (Go.int unrep t) 0),
           (Z.gtb_spec (Go.int unrep t) (Z.of_nat npts)); simpl;
    try lia; reflexivity.
Qed.

Lemma sunel_inside (t : R) :
  (0 <= Go.int unrep t <= Z.of_nat npts)%Z ->
  sunel unrep osun_point t =
  Some (el (osun_point (Z.to_nat (Go.int unrep t)))
        + (t - Go.float64 (Go.int unrep t))
          * (el (osun_point (Z.to_nat (Go.int unrep t + 1)))
             - el (osun_point (Z.to_nat (Go.int unrep t))))).
Proof.
  intros Hi; unfold sunel.
  destruct (Z.ltb_spec (Go.int unrep t) 0),
           (Z.gtb_spec (Go.int unrep t) (Z.of_nat npts)); simpl; try lia.
  unfold len_point, npts in *.
  rewrite !index_in_range by (unfold len_point, npts; lia).
  reflexivity.
Qed.

Lemma sunel_returns (t : R) : exists v, sunel unrep osun_point t = Some v.
Proof.
  destruct (Z_lt_le_dec (Go.int unrep t) 0) as [Hlt | Hge].
  - eexists; apply sunel_outside; lia.
  - destruct (Z_le_gt_dec (Go.int unrep t) (Z.of_nat npts)) as [Hle | Hgt].
    + eexists; apply sunel_inside; lia.
    + eexists; apply sunel_outside; lia.
Qed.

Lemma dark_gate_returns (e : evt) :
  exists b, dark_gate unrep dark osun_point e = Some b.
Proof.
  unfold dark_gate. destruct (Z.land (flag e) dark >? 0)%Z; [| eauto].
  destruct (sunel_returns (tim e)) as [v ->]; simpl; eauto.
Qed.

Lemma light_gate_returns (e : evt) :
  exists b, light_gate unrep light osun_point e = Some b.
Proof.
  unfold light_gate. destruct (Z.land (flag e) light >? 0)%Z; [| eauto].
  destruct (sunel_returns (tim e)) as [v ->]; simpl; eauto.
Qed.

Lemma dark_gate_drops (e : evt) (v : R) :
  (Z.land (flag e) dark > 0)%Z ->
  sunel unrep osun_point (tim e) = Some v ->
  dark_gate unrep dark osun_point e = Some (Go.gtb v (-12)).
Proof.
  intros Hf Hv; unfold dark_gate.
  destruct (Z.gtb_spec (Z.land (flag e) dark) 0); [| lia].
  rewrite Hv; reflexivity.
Qed.

Lemma light_gate_drops (e : evt) (v : R) :
  (Z.land (flag e) light > 0)%Z ->
  sunel unrep osun_point (tim e) = Some v ->
  light_gate unrep light osun_point e = Some (Go.ltb v 0).
Proof.
  intros Hf Hv; unfold light_gate.
  destruct (Z.gtb_spec (Z.land (flag e) light) 0); [| lia].
  rewrite Hv; reflexivity.
Qed.

(** The four ways out of [event]. *)
Lemma event_cases (events : list evt) (e : evt) :
  (dark_gate unrep dark osun_point e = Some true /\
   event unrep dark light osun_point events e = Some (None, events)) \/
  (dark_gate unrep dark osun_point e = Some false /\
   light_gate unrep light osun_point e = Some true /\
   event unrep dark light osun_point events e = Some (None, events)) \/
  (dark_gate unrep dark osun_point e = Some false /\
   light_gate unrep light osun_point e = Some false /\
   (nevents <= List.length events)%nat /\
   event unrep dark light osun_point events e
   = Some (Some too_many_events, events)) \/
  (dark_gate unrep dark osun_point e = Some false /\
   light_gate unrep light osun_point e = Some false /\
   (List.length events < nevents)%nat /\
   event unrep dark light osun_point events e
   = Some (None, events ++ [e])).
Proof.
  unfold event.
  destruct (dark_gate_returns e) as [[|] ->]; cbn [bind]; [left; auto |].
  destruct (light_gate_returns e) as [[|] ->]; cbn [bind];
    [right; left; auto |].
  destruct (Nat.leb_spec nevents (List.length events)).
  - right; right; left; repeat split; auto.
  - right; right; right; repeat split; auto.
Qed.

Lemma event_keeps_cap (events events' : list evt) (e : evt)
  (err : option error) :
  event unrep dark light osun_point events e = Some (err, events') ->
  (List.length events <= nevents)%nat ->
  (List.length events' <= nevents)%nat.
Proof.
  intros Hev Hlen.
  destruct (event_cases events e)
    as [[_ H] | [(_ & _ & H) | [(_ & _ & _ & H) | (_ & _ & Hlt & H)]]];
    rewrite H in Hev; injection Hev as <- <-; try assumption.
  rewrite length_app; simpl; lia.
Qed.

Lemma reachable_cap (events : list evt) :
  reachable unrep dark light osun_point events ->
  (List.length events <= nevents)%nat.
Proof.
  induction 1 as [| events events' e err _ IH Hev].
  - simpl; unfold nevents; lia.
  - eapply event_keeps_cap; eassumption.
Qed.

Lemma event_drops_dark (events : list evt) (e : evt) (v : R) :
  sunel unrep osun_point (tim e) = Some v ->
  (Z.land (flag e) dark > 0)%Z -> v > -12 ->
  event unrep dark light osun_point events e = Some (None, events).
Proof.
  intros Hv Hf Hcmp.
  unfold event. rewrite (dark_gate_drops e v Hf Hv).
  apply gtb_true in Hcmp. rewrite Hcmp. reflexivity.
Qed.

Lemma event_drops_light (events : list evt) (e : evt) (v : R) :
  sunel unrep osun_point (tim e) = Some v ->
  (Z.land (flag e) light > 0)%Z -> v < 0 ->
  event unrep dark light osun_point events e = Some (None, events).
Proof.
  intros Hv Hf Hcmp.
  unfold event.
  destruct (dark_gate_returns e) as [[|] ->]; cbn [bind]; [reflexivity |].
  rewrite (light_gate_drops e v Hf Hv); cbn [bind].
  apply ltb_true in Hcmp. rewrite Hcmp. reflexivity.
Qed.

(** C4.  An event that carries the dark flag while the interpolated
    elevation of the Sun at its time is above -12 degrees, and an event
    that carries the light flag while that elevation is below 0 degrees,
    make [event] return nil and leave the buffer as it was. *)
Theorem event_gating (events : list evt) (e : evt) (v : R) :
  sunel unrep osun_point (tim e) = Some v ->
  ((Z.land (flag e) dark > 0)%Z -> v > -12 ->
   event unrep dark light osun_point events e = Some (None, events)) /\
  ((Z.land (flag e) light > 0)%Z -> v < 0 ->
   event unrep dark light osun_point events e = Some (None, events)).
Proof.
  intros Hv; split; intros Hf Hcmp.
  - eapply event_drops_dark; eassumption.
  - eapply event_drops_light; eassumption.
Qed.

(** C5.  On a buffer built by calls of [event], which never holds more
    than 100 entries, [event] returns the error "too many events" exactly
    when neither gate drops the event and the buffer holds 100 entries; it
    returns no other error, and whenever it returns an error the buffer is
    as it was. *)
Theorem event_cap (events : list evt) (e : evt) :
  reachable unrep dark light osun_point events ->
  (List.length events <= 100)%nat /\
  exists (err : option error) (events' : list evt),
    event unrep dark light osun_point events e = Some (err, events') /\
    (err = Some too_many_events <->
     dark_gate unrep dark osun_point e = Some false /\
     light_gate unrep light osun_point e = Some false /\
     List.length events = 100%nat) /\
    (err = None \/ err = Some too_many_events) /\
    (err <> None -> events' = events) /\
    (List.length events' <= 100)%nat /\
    reachable unrep dark light osun_point events'.
Proof.
  intros Hr. pose proof (reachable_cap events Hr) as Hlen.
  unfold nevents in Hlen. split; [exact Hlen |].
  destruct (event_cases events e)
    as [[Hd H] | [(Hd & Hl & H) | [(Hd & Hl & Hn & H) | (Hd & Hl & Hn & H)]]];
    try unfold nevents in Hn.
  - exists None, events. repeat split; auto; try discriminate;
      try (intros (Hd' & _); congruence).
  - exists None, events. repeat split; auto; try discriminate;
      try (intros (_ & Hl' & _); congruence).
  - exists (Some too_many_events), events.
    repeat split; auto; try lia.
  - exists None, (events ++ [e]).
    repeat split; auto; try discriminate;
      try (intros (_ & _ & Hfull); lia);
      try (rewrite length_app; simpl; lia);
      try (intros Hne; exfalso; apply Hne; reflexivity).
    econstructor; eassumption.
Qed.


End SinkFacts.

Lemma int_one (unrep : R -> Z) : Go.int unrep 1 = 1%Z.
Proof. apply int_IZR; unfold Go.min_int, Go.max_int; lia. Qed.


Lemma sunel_twilight (unrep : R -> Z) : sunel unrep twilight 1 = Some (-5).
Proof.
  rewrite sunel_inside by (rewrite int_one; unfold npts; lia).
  rewrite int_one; unfold twilight, Go.float64; simpl.
  f_equal; lra.
Qed.

(** C4 at two events one sample into a window of twilight: an occultation
    that needs darkness (flags of astro.go) and a transit that needs
    sunlight (flags of the second revision). *)
Lemma event_gating_witness :
  event unrep_amd64 AstroGo.dark AstroGo.light twilight [] sao_occultation
  = Some (None, []) /\
  event unrep_amd64 Rev2.dark Rev2.light twilight [] venus_transit
  = Some (None, []).
Proof.
  split.
  - apply (proj1 (event_gating unrep_amd64 AstroGo.dark AstroGo.light
                    twilight [] sao_occultation (-5)
                    (sunel_twilight unrep_amd64))).
    + vm_compute; reflexivity.
    + lra.
  - apply (proj2 (event_gating unrep_amd64 Rev2.dark Rev2.light
                    twilight [] venus_transit (-5)
                    (sunel_twilight unrep_amd64))).
    + vm_compute; reflexivity.
    + lra.
Defined.

Lemma new_moon_not_gated (unrep : R -> Z) (dark light : Z) (p : samples) :
  dark_gate unrep dark p new_moon = Some false /\
  light_gate unrep light p new_moon = Some false.
Proof. split; reflexivity. Qed.

Lemma reachable_new_moons (unrep : R -> Z) (dark light : Z) (p : samples)
  (n : nat) :
  (n <= 100)%nat -> reachable unrep dark light p (repeat new_moon n).
Proof.
  induction n as [| n IH]; intros Hn.
  - constructor.
  - apply reach_event with (events := repeat new_moon n) (e := new_moon)
                           (err := None); [apply IH; lia |].
    destruct (event_cases unrep dark light p (repeat new_moon n) new_moon)
      as [[Hd _] | [(_ & Hl & _) | [(_ & _ & Hfull & _) | (_ & _ & _ & H)]]].
    + discriminate Hd.
    + discriminate Hl.
    + rewrite repeat_length in Hfull; unfold nevents in Hfull; lia.
    + rewrite H; simpl repeat; rewrite repeat_cons; reflexivity.
Qed.

(** C5 at a buffer of 100 phases of the Moon: one more is refused, and the
    buffer stays as it is. *)
Lemma event_cap_witness :
  event unrep_amd64 AstroGo.dark AstroGo.light twilight
        (repeat new_moon 100) new_moon
  = Some (Some too_many_events, repeat new_moon 100).
Proof.
  destruct (event_cap unrep_amd64 AstroGo.dark AstroGo.light twilight
              (repeat new_moon 100) new_moon
              (reachable_new_moons _ _ _ _ 100 (le_n 100)))
    as (_ & err & events' & Hev & [_ Herr] & _ & Hkeep & _).
  assert (He : err = Some too_many_events).
  { apply Herr. repeat split. }
  rewrite Hev, He, Hkeep; [reflexivity |].
  rewrite He; discriminate.
Defined.


(** ** Loops with an early exit *)

Lemma first_from_none {A : Type} (n lo : nat) (body : nat -> option A) :
  (forall i, (lo <= i < lo + n)%nat -> body i = None) ->
  first_from n lo body = None.
Proof.
  revert lo; induction n as [| n IH]; intros lo Hnone; simpl.
  - reflexivity.
  - rewrite (Hnone lo) by lia. apply IH. intros i Hi; apply Hnone; lia.
Qed.

Lemma first_from_first {A : Type} (n lo i : nat) (body : nat -> option A)
  (r : A) :
  (lo <= i < lo + n)%nat ->
  (forall j, (lo <= j < i)%nat -> body j = None) ->
  body i = Some r ->
  first_from n lo body = Some r.
Proof.
  revert lo; induction n as [| n IH]; intros lo Hi Hbefore Hat; simpl.
  - lia.
  - destruct (Nat.eq_dec lo i) as [-> | Hne].
    + rewrite Hat; reflexivity.
    + rewrite (Hbefore lo) by lia.
      apply IH; [lia | | exact Hat].
      intros j Hj; apply Hbefore; lia.
Qed.

Lemma first_from_some {A : Type} (n lo : nat) (body : nat -> option A)
  (r : A) :
  first_from n lo body = Some r ->
  exists i, (lo <= i < lo + n)%nat /\ body i = Some r /\
            forall j, (lo <= j < i)%nat -> body j = None.
Proof.
  revert lo; induction n as [| n IH]; intros lo Hf; simpl in Hf.
  - discriminate.
  - destruct (body lo) as [a |] eqn:Hlo.
    + exists lo; repeat split; try lia; congruence.
    + destruct (IH (S lo) Hf) as (i & Hi & Hat & Hbefore).
      exists i; repeat split; try lia; [exact Hat |].
      intros j Hj. destruct (Nat.eq_dec j lo) as [-> | Hne];
        [exact Hlo | apply Hbefore; lia].
Qed.

Lemma first_from_none_inv {A : Type} (n lo : nat) (body : nat -> option A) :
  first_from n lo body = None ->
  forall i, (lo <= i < lo + n)%nat -> body i = None.
Proof.
  revert lo; induction n as [| n IH]; intros lo Hf i Hi; simpl in Hf.
  - lia.
  - destruct (body lo) eqn:Hlo; [discriminate |].
    destruct (Nat.eq_dec i lo) as [-> | Hne]; [exact Hlo |].
    apply (IH (S lo) Hf); lia.
Qed.

(** ** Rising and setting *)

Lemma rise_at_some (p : samples) (th : R) (i : nat) :
  el (p (i - 1)%nat) <= th < el (p i) ->
  rise_at p th i =
  Some (IZR (Z.of_nat i - 1)
        + (th - el (p (i - 1)%nat)) / (el (p i) - el (p (i - 1)%nat))).
Proof.
  intros [H1 H2]; unfold rise_at.
  apply leb_true in H1. apply gtb_true in H2. rewrite H1, H2. reflexivity.
Qed.

Lemma rise_at_none (p : samples) (th : R) (i : nat) :
  ~ (el (p (i - 1)%nat) <= th < el (p i)) -> rise_at p th i = None.
Proof.
  intros Hn; unfold rise_at.
  destruct (Go.leb (el (p (i - 1)%nat)) th) eqn:H1; [| reflexivity].
  destruct (Go.gtb (el (p i)) th) eqn:H2; [| reflexivity].
  apply leb_true in H1. apply gtb_true in H2. exfalso; apply Hn; lra.
Qed.

Lemma set_at_some (p : samples) (th : R) (i : nat) :
  el (p i) <= th < el (p (i - 1)%nat) ->
  set_at p th i =
  Some (IZR (Z.of_nat i - 1)
        + (th - el (p (i - 1)%nat)) / (el (p i) - el (p (i - 1)%nat))).
Proof.
  intros [H1 H2]; unfold set_at.
  apply leb_true in H1. apply gtb_true in H2. rewrite H1, H2. reflexivity.
Qed.

Lemma set_at_none (p : samples) (th : R) (i : nat) :
  ~ (el (p i) <= th < el (p (i - 1)%nat)) -> set_at p th i = None.
Proof.
  intros Hn; unfold set_at.
  destruct (Go.gtb (el (p (i - 1)%nat)) th) eqn:H1; [| reflexivity].
  destruct (Go.leb (el (p i)) th) eqn:H2; [| reflexivity].
  apply leb_true in H2. apply gtb_true in H1. exfalso; apply Hn; lra.
Qed.

(** C6.  [rise] returns [(i-1) + (el - el[i-1]) / (el[i] - el[i-1])] for
    the first [i] at which the elevation goes from at most [el] to above
    it, so for the only one when the sequence crosses once; [set] returns
    the same expression for the first [i] at which it goes from above [el]
    to at most [el]; each returns -1 when there is no such [i]. *)
Theorem rise_set_crossing {G : Type} (o : obj2 G) (th : R) :
  (forall i : nat, (1 <= i <= 13)%nat ->
     el (point o (i - 1)%nat) <= th < el (point o i) ->
     (forall j : nat, (1 <= j < i)%nat ->
        ~ (el (point o (j - 1)%nat) <= th < el (point o j))) ->
     rise o th =
     IZR (Z.of_nat i - 1)
     + (th - el (point o (i - 1)%nat))
       / (el (point o i) - el (point o (i - 1)%nat))) /\
  (forall i : nat, (1 <= i <= 13)%nat ->
     el (point o i) <= th < el (point o (i - 1)%nat) ->
     (forall j : nat, (1 <= j < i)%nat ->
        ~ (el (point o j) <= th < el (point o (j - 1)%nat))) ->
     set o th =
     IZR (Z.of_nat i - 1)
     + (th - el (point o (i - 1)%nat))
       / (el (point o i) - el (point o (i - 1)%nat))) /\
  ((forall i : nat, (1 <= i <= 13)%nat ->
      ~ (el (point o (i - 1)%nat) <= th < el (point o i))) ->
   rise o th = -1) /\
  ((forall i : nat, (1 <= i <= 13)%nat ->
      ~ (el (point o i) <= th < el (point o (i - 1)%nat))) ->
   set o th = -1).
Proof.
  repeat split.
  - intros i Hi Hcross Hfirst. unfold rise.
    erewrite first_from_first with (i := i).
    + reflexivity.
    + unfold len_point, npts; lia.
    + intros j Hj. apply rise_at_none, Hfirst; lia.
    + apply rise_at_some; exact Hcross.
  - intros i Hi Hcross Hfirst. unfold set.
    erewrite first_from_first with (i := i).
    + reflexivity.
    + unfold len_point, npts; lia.
    + intros j Hj. apply set_at_none, Hfirst; lia.
    + apply set_at_some; exact Hcross.
  - intros Hnone. unfold rise. rewrite first_from_none; [reflexivity |].
    intros i Hi. apply rise_at_none, Hnone.
    unfold len_point, npts in Hi; lia.
  - intros Hnone. unfold set. rewrite first_from_none; [reflexivity |].
    intros i Hi. apply set_at_none, Hnone.
    unfold len_point, npts in Hi; lia.
Qed.

(** C6 at the body [arc_body] and the threshold 0: it rises at 3 + 1/3
    and sets at 9 + 1/2. *)
Lemma rise_set_crossing_witness :
  rise arc_body 0 = 3 + 1 / 3 /\ set arc_body 0 = 9 + 1 / 2.
Proof.
  split.
  - rewrite (proj1 (rise_set_crossing arc_body 0) 4%nat).
    + simpl; lra.
    + lia.
    + simpl; lra.
    + intros j Hj. destruct j as [| [| [| [| j]]]]; simpl; try lia; lra.
  - rewrite (proj1 (proj2 (rise_set_crossing arc_body 0)) 10%nat).
    + simpl; lra.
    + lia.
    + simpl; lra.
    + intros j Hj.
      do 10 (destruct j as [| j]; [simpl; try lia; lra |]). lia.
Defined.

(** ** The three-point scans *)

Lemma setpt_setpt (o : occt) (x y : R) : setpt (setpt o x) y = setpt o y.
Proof. reflexivity. Qed.

Section MinScan.

Variables (oc1 oc2 : occt) (x0 step : R).

Local Abbreviation D := (seps oc1 oc2 x0 step).
Local Abbreviation scan_inv' := (scan_inv oc1 oc2 x0 step).

Lemma minscan_spec (n i : nat) (st : scan) :
  scan_inv' i st ->
  (sc_ok (minscan n (Z.of_nat i) step st) = false /\
   forall k, (i <= k < i + n)%nat -> (2 <= k)%nat -> ~ min_at D k) \/
  (exists k, (i <= k < i + n)%nat /\ (2 <= k)%nat /\ min_at D k /\
     (forall j, (i <= j < k)%nat -> (2 <= j)%nat -> ~ min_at D j) /\
     let r := minscan n (Z.of_nat i) step st in
     sc_ok r = true /\ sc_i r = Z.of_nat k /\
     sc_x r = x0 + INR k * step /\
     sc_d2 r = D (k - 1) /\
     sc_occ1 r = setpt oc1 (sc_x r) /\ sc_occ2 r = setpt oc2 (sc_x r)).
Proof.
  revert i st; induction n as [| n IH]; intros i st Hinv.
  - left; simpl. split; [apply Hinv | intros; lia].
  - destruct Hinv as (Hok & Hx & Ho1 & Ho2 & Hd3 & Hd2).
    assert (Hsep : dist (act (setpt (sc_occ1 st) (sc_x st)))
                        (act (setpt (sc_occ2 st) (sc_x st))) = D i).
    { rewrite Ho1, Ho2, Hx; reflexivity. }
    cbn [minscan]. rewrite Hsep.
    destruct ((2 <=? Z.of_nat i)%Z && Go.leb (sc_d3 st) (sc_d2 st)
              && Go.leb (sc_d3 st) (D i)) eqn:Hc.
    + apply andb_prop in Hc as [Hc H3]. apply andb_prop in Hc as [H1 H2].
      apply Z.leb_le in H1. apply leb_true in H2, H3.
      assert (Hi : (2 <= i)%nat) by lia.
      rewrite Hd3 in H2, H3 by lia. rewrite Hd2 in H2 by lia.
      right; exists i. cbn [sc_ok sc_i sc_x sc_d2 sc_occ1 sc_occ2].
      repeat split; try lia; try assumption.
      * apply Hd3; lia.
      * apply Ho1.
      * apply Ho2.
    + assert (Hnot : (2 <= i)%nat -> ~ min_at D i).
      { intros Hi [Ha Hb].
        rewrite <- Hd3 in Ha, Hb by lia. rewrite <- Hd2 in Ha by lia.
        apply leb_true in Ha, Hb. rewrite Ha, Hb in Hc.
        assert (Hz : (2 <=? Z.of_nat i)%Z = true) by (apply Z.leb_le; lia).
        rewrite Hz in Hc; discriminate. }
      replace (Z.of_nat i + 1)%Z with (Z.of_nat (S i)) by lia.
      set (st' := mk_scan false (Z.of_nat i) (sc_x st + step) (sc_d2 st)
                          (sc_d3 st) (D i)
                          (setpt (sc_occ1 st) (sc_x st))
                          (setpt (sc_occ2 st) (sc_x st))).
      assert (Hinv' : scan_inv' (S i) st').
      { unfold scan_inv, st'; cbn [sc_ok sc_x sc_d2 sc_d3 sc_occ1 sc_occ2].
        repeat split.
        - rewrite Hx, S_INR; lra.
        - intros x; rewrite setpt_setpt; apply Ho1.
        - intros x; rewrite setpt_setpt; apply Ho2.
        - intros _. replace (S i - 1)%nat with i by lia. reflexivity.
        - intros Hi. replace (S i - 2)%nat with (i - 1)%nat by lia.
          apply Hd3; lia. }
      destruct (IH (S i) st' Hinv') as [[Hf Hnone] | (k & Hk & Hk2 & Hm & Hfirst & Hr)].
      * left. split; [exact Hf |].
        intros k Hk Hk2. destruct (Nat.eq_dec k i) as [-> | Hne];
          [apply Hnot; exact Hk2 | apply Hnone; lia].
      * right; exists k. repeat split; try lia; try apply Hm; try apply Hr.
        intros j Hj Hj2. destruct (Nat.eq_dec j i) as [-> | Hne];
          [apply Hnot; exact Hj2 | apply Hfirst; lia].
Qed.

Lemma minscan_ok_iff (n : nat) (st : scan) :
  scan_inv' 0 st ->
  sc_ok (minscan n 0 step st) = true <-> interior_minimum D n.
Proof.
  intros Hinv.
  destruct (minscan_spec n 0 st Hinv)
    as [[Hf Hnone] | (k & Hk & Hk2 & Hm & _ & Hr)]; simpl Z.of_nat in *.
  - rewrite Hf. split; [discriminate |].
    intros (k & Hk & Hm). exfalso. apply (Hnone k); try lia. exact Hm.
  - split; [| intros _; apply Hr].
    intros _. exists k. split; [lia | exact Hm].
Qed.

End MinScan.

(** ** Conjunctions, eclipses and occultations *)

Lemma coarse_at_some (p1 p2 : samples) (i : nat) :
  min_at (fun k => dist (p1 k) (p2 k)) i ->
  coarse_at p1 p2 i =
  Some (i, dist (p1 (i - 2)%nat) (p2 (i - 2)%nat),
        dist (p1 (i - 1)%nat) (p2 (i - 1)%nat), dist (p1 i) (p2 i)).
Proof.
  intros [H1 H2]; unfold coarse_at.
  apply leb_true in H1, H2. cbv zeta. rewrite H1, H2. reflexivity.
Qed.

Lemma coarse_at_none (p1 p2 : samples) (i : nat) :
  ~ min_at (fun k => dist (p1 k) (p2 k)) i -> coarse_at p1 p2 i = None.
Proof.
  intros Hn; unfold coarse_at, min_at in *. cbv zeta.
  destruct (Go.leb (dist (p1 (i - 1)%nat) (p2 (i - 1)%nat))
                   (dist (p1 (i - 2)%nat) (p2 (i - 2)%nat))) eqn:H1;
    [| reflexivity].
  destruct (Go.leb (dist (p1 (i - 1)%nat) (p2 (i - 1)%nat))
                   (dist (p1 i) (p2 i))) eqn:H2; [| reflexivity].
  exfalso; apply Hn; split; apply leb_true; assumption.
Qed.

Lemma coarse_iff (p1 p2 : samples) :
  coarse p1 p2 <> None <->
  interior_minimum (fun k => dist (p1 k) (p2 k)) 14.
Proof.
  unfold coarse, len_point, npts; simpl Nat.sub. split.
  - intros Hc.
    destruct (first_from 12 2 (coarse_at p1 p2)) as [c |] eqn:Hf;
      [| congruence].
    apply first_from_some in Hf as (i & Hi & Hat & _).
    exists i; split; [lia |].
    destruct (Rle_dec (dist (p1 (i - 1)%nat) (p2 (i - 1)%nat))
                      (dist (p1 (i - 2)%nat) (p2 (i - 2)%nat))) as [H1 | H1];
    destruct (Rle_dec (dist (p1 (i - 1)%nat) (p2 (i - 1)%nat))
                      (dist (p1 i) (p2 i))) as [H2 | H2];
      try (split; assumption);
      rewrite coarse_at_none in Hat by (intros [? ?]; contradiction);
      discriminate.
  - intros (k & Hk & Hm) Hnone.
    pose proof (first_from_none_inv _ _ _ Hnone k) as Hk'.
    rewrite coarse_at_some in Hk' by exact Hm.
    discriminate Hk'. lia.
Qed.

Lemma INR_npts : INR npts = 12.
Proof. unfold npts; simpl; lra. Qed.

Lemma medium_dx : 2 / (2880 * per / INR npts) = 1 / 120.
Proof. rewrite INR_npts; unfold per; field. Qed.

Lemma medium_steps_eq (unrep : R -> Z) : medium_steps unrep = 241%nat.
Proof.
  unfold medium_steps.
  replace (2880 * per / INR npts + 1) with (IZR 241)
    by (rewrite INR_npts; unfold per; field).
  rewrite int_IZR by (unfold Go.min_int, Go.max_int; lia).
  reflexivity.
Qed.

Section OccultFacts.

Variable G : Type.
Variable setime : R -> G -> G.
Variable cur : G -> obj1.
Variable day : R.
Variable norm : R -> R.
Variable unrep : R -> Z.

Local Abbreviation occult' := (occult G setime cur day norm unrep).
Local Abbreviation medium' := (medium G norm unrep).
Local Abbreviation medium_start' := (medium_start G norm).
Local Abbreviation fine' := (fine G setime cur day norm).
Local Abbreviation fine_start' := (fine_start G setime cur day norm).
Local Abbreviation contacts' := (contacts G).

Lemma contacts_result (fuel : nat) (fs : scan) (g : G) (di : R) (o : obj3) :
  contacts' fuel fs g di o = None \/
  exists v', contacts' fuel fs g di o = Some (None, v').
Proof.
  unfold contacts. cbv zeta.
  destruct (scan_after _ _ _ _ _ _ _ _ _ _ _ _) as [[[[o' d2] oc1] oc2] |];
    cbn [bind]; [| left; reflexivity].
  destruct (scan_before _ _ _ _ _ _ _ _ _ _ _ _) as [[[[o'' d2'] oc1'] oc2'] |];
    cbn [bind]; [right; eauto | left; reflexivity].
Qed.

(** The six ways through [occult]. *)
Lemma occult_cases (fuel : nat) (o1 o2 : obj2 G) (v : vars G) :
  (coarse (point o1) (point o2) = None /\
   occult' fuel o1 o2 v =
   Some (None, mk_vars (occ_reset (occ v)) (occ1 v) (occ2 v) (eph v))) \/
  exists c, coarse (point o1) (point o2) = Some c /\
    let m := medium' o1 o2 v c in
    let far := semi2 (act (sc_occ1 m)) + semi2 (act (sc_occ2 m)) + 50 in
    (sc_ok m = false /\
     occult' fuel o1 o2 v =
     Some (Some bad_1,
           mk_vars (occ_reset (occ v)) (sc_occ1 m) (sc_occ2 m) (eph v))) \/
    (sc_ok m = true /\ sc_d2 m > far /\
     occult' fuel o1 o2 v =
     Some (None,
           mk_vars (occ_reset (occ v)) (sc_occ1 m) (sc_occ2 m) (eph v))) \/
    (sc_ok m = true /\ sc_d2 m <= far /\
     exists fs g di, fine' o1 o2 v c m = (fs, g, di) /\
       let near := semi2 (act (sc_occ1 fs)) + semi2 (act (sc_occ2 fs)) in
       (sc_ok fs = false /\
        occult' fuel o1 o2 v =
        Some (Some bad_2,
              mk_vars (occ_reset (occ v)) (sc_occ1 fs) (sc_occ2 fs) g)) \/
       (sc_ok fs = true /\ sc_d2 fs > near /\
        occult' fuel o1 o2 v =
        Some (None,
              mk_vars (occ_reset (occ v)) (sc_occ1 fs) (sc_occ2 fs) g)) \/
       (sc_ok fs = true /\ sc_d2 fs <= near /\
        occult' fuel o1 o2 v =
        contacts' fuel fs g di (occ_reset (occ v)))).
Proof.
  unfold occult.
  destruct (coarse (point o1) (point o2)) as [c |] eqn:Hc;
    [right; exists c; split; [reflexivity |] | left; split; reflexivity].
  cbv zeta.
  destruct (sc_ok (medium' o1 o2 v c)) eqn:Hm; cbn [negb];
    [| left; split; reflexivity].
  right.
  destruct (Go.gtb _ _) eqn:Hfar.
  - left. apply gtb_true in Hfar. repeat split; assumption.
  - right. apply gtb_false in Hfar. repeat split; try assumption.
    destruct (fine' o1 o2 v c (medium' o1 o2 v c)) as [[fs g] di] eqn:Hfine.
    exists fs, g, di. split; [reflexivity |].
    destruct (sc_ok fs) eqn:Hfs; cbn [negb]; [| left; split; reflexivity].
    right.
    destruct (Go.gtb _ _) eqn:Hnear.
    + left. apply gtb_true in Hnear. repeat split; assumption.
    + right. apply gtb_false in Hnear. repeat split; assumption.
Qed.

Lemma medium_start_inv (o1 o2 : obj2 G) (v : vars G) (c : nat * R * R * R)
  (step : R) :
  scan_inv (sc_occ1 (medium_start' o1 o2 v c))
           (sc_occ2 (medium_start' o1 o2 v c)) 0 step 0
           (medium_start' o1 o2 v c).
Proof.
  destruct c as [[[i d1] d2] d3]; unfold scan_inv; simpl.
  repeat split; try lra; intros; lia.
Qed.

Lemma fine_start_inv (o1 o2 : obj2 G) (v : vars G) (c : nat * R * R * R)
  (m : scan) (step : R) :
  let st := fst (fst (fine_start' o1 o2 v c m)) in
  scan_inv (sc_occ1 st) (sc_occ2 st) 0 step 0 st.
Proof.
  destruct c as [[[i d1] d2] d3]; unfold fine_start.
  destruct (resample _ _ _ _ _ _ _ _ _ _ _ _ _ _) as [[xo1 xo2] g].
  unfold scan_inv; simpl.
  repeat split; try lra; intros; lia.
Qed.

Lemma medium_ok_iff (o1 o2 : obj2 G) (v : vars G) (c : nat * R * R * R) :
  sc_ok (medium' o1 o2 v c) = true <->
  interior_minimum
    (seps (sc_occ1 (medium_start' o1 o2 v c))
          (sc_occ2 (medium_start' o1 o2 v c)) 0 (1 / 120)) 241.
Proof.
  unfold medium. rewrite medium_steps_eq, medium_dx.
  apply minscan_ok_iff, medium_start_inv.
Qed.


(** C3.  [occult] first sets the five contact times to -100: whatever it
    returns, the contact record is the reset one, or the one the contact
    scans made of it.  When the 14 samples of the separation have no
    three-point minimum, or when the medium scan finds one whose
    separation is above the sum of the two semidiameters plus 50 seconds
    of arc, it returns nil and the five contact times are still -100,
    hence negative. *)
Theorem occult_no_event (fuel : nat) (o1 o2 : obj2 G) (v : vars G) :
  (forall err v', occult' fuel o1 o2 v = Some (err, v') ->
     occ v' = occ_reset (occ v) \/
     exists fs g di,
       contacts' fuel fs g di (occ_reset (occ v)) = Some (err, v')) /\
  (~ interior_minimum (fun k => dist (point o1 k) (point o2 k)) 14 \/
   (exists c, coarse (point o1) (point o2) = Some c /\
      let m := medium' o1 o2 v c in
      sc_ok m = true /\
      sc_d2 m > semi2 (act (sc_occ1 m)) + semi2 (act (sc_occ2 m)) + 50) ->
   exists v', occult' fuel o1 o2 v = Some (None, v') /\
     occ v' = occ_reset (occ v) /\
     (t1 (occ v') = -100 /\ t2 (occ v') = -100 /\ t3 (occ v') = -100 /\
      t4 (occ v') = -100 /\ t5 (occ v') = -100) /\
     (t1 (occ v') < 0 /\ t2 (occ v') < 0 /\ t3 (occ v') < 0 /\
      t4 (occ v') < 0 /\ t5 (occ v') < 0)).
Proof.
  split.
  { intros err v' Hocc.
    destruct (occult_cases fuel o1 o2 v) as [[_ H] | (c & _ & Hcases)].
    - rewrite H in Hocc; injection Hocc as <- <-; left; reflexivity.
    - cbv zeta in Hcases.
      destruct Hcases as [[_ H] | [(_ & _ & H) | (_ & _ & Hfine)]].
      + rewrite H in Hocc; injection Hocc as <- <-; left; reflexivity.
      + rewrite H in Hocc; injection Hocc as <- <-; left; reflexivity.
      + destruct Hfine as (fs & g & di & _ & Hcases). cbv zeta in Hcases.
        destruct Hcases as [[_ H] | [(_ & _ & H) | (_ & _ & H)]].
        * rewrite H in Hocc; injection Hocc as <- <-; left; reflexivity.
        * rewrite H in Hocc; injection Hocc as <- <-; left; reflexivity.
        * right; exists fs, g, di. rewrite <- H; exact Hocc. }
  intros Hcond.
  assert (Hret : exists v', occult' fuel o1 o2 v = Some (None, v') /\
                            occ v' = occ_reset (occ v)).
  { destruct (occult_cases fuel o1 o2 v) as [[Hc Hocc] | (c & Hc & Hcases)].
    - eexists; split; [exact Hocc | reflexivity].
    - destruct Hcond as [Hno | (c' & Hc' & Hok & Hfar)].
      + exfalso; apply Hno, coarse_iff; congruence.
      + assert (c' = c) by congruence; subst c'.
        cbv zeta in Hcases.
        destruct Hcases as [[Hbad _] | [(_ & _ & Hocc) | (_ & Hle & _)]].
        * rewrite Hbad in Hok; discriminate.
        * eexists; split; [exact Hocc | reflexivity].
        * lra. }
  destruct Hret as (v' & Hocc & Hreset).
  exists v'. split; [exact Hocc |]. split; [exact Hreset |].
  rewrite Hreset; simpl. repeat split; lra.
Qed.


End OccultFacts.

(** ** Two bodies on the equator *)

Lemma radsec_pos : 0 < radsec.
Proof. unfold radsec, radian; pose proof PI_RGT_0; lra. Qed.

Lemma pyth_cos (a : R) : 0 <= a <= PI -> pyth (cos a) = sin a.
Proof.
  intros Ha. unfold pyth. cbv zeta.
  pose proof (sin2_cos2 a) as Hsc. unfold Rsqr in Hsc.
  assert (Hle : cos a * cos a <= 1) by nra.
  apply gtb_false in Hle. rewrite Hle.
  replace (1 - cos a * cos a) with (Rsqr (sin a)) by (unfold Rsqr; lra).
  apply sqrt_Rsqr. apply sin_ge_0; lra.
Qed.

Lemma dist_equator (p q : obj1) :
  decl2 p = 0 -> decl2 q = 0 -> 0 <= ra p - ra q < PI / 2 ->
  dist p q = (ra p - ra q) / radsec.
Proof.
  intros Hp Hq Ha. pose proof PI_RGT_0 as Hpi.
  unfold dist. cbv zeta. rewrite Hp, Hq, sin_0, cos_0.
  replace (0 * 0 + 1 * 1 * cos (ra p - ra q)) with (cos (ra p - ra q)) by lra.
  rewrite pyth_cos by lra.
  rewrite Atan2_sin_cos by lra.
  rewrite Rabs_pos_eq by lra. reflexivity.
Qed.




Lemma pinorm_0 : pinorm 0 = 0.
Proof. apply pinorm_id; pose proof PI_RGT_0; lra. Qed.




Lemma fine_fst (G : Type) (setime : R -> G -> G) (cur : G -> obj1) (day : R)
  (norm : R -> R) (o1 o2 : obj2 G) (v : vars G) (c : nat * R * R * R)
  (m : scan) :
  fst (fst (fine G setime cur day norm o1 o2 v c m)) =
  minscan 241 0 (1 / 120)
          (fst (fst (fine_start G setime cur day norm o1 o2 v c m))).
Proof.
  unfold fine.
  destruct (fine_start G setime cur day norm o1 o2 v c m) as [[st g] di].
  reflexivity.
Qed.

(** ** Two coincident discs *)

Section Coincident.

Variable norm : R -> R.
Hypothesis norm_0 : norm 0 = 0.
Variable day : R.
Variable unrep : R -> Z.

Local Abbreviation occult0 := (occult obj1 setime_id cur_id day norm unrep).
Local Abbreviation medium0 := (medium obj1 norm unrep).
Local Abbreviation fine0 := (fine obj1 setime_id cur_id day norm).





End Coincident.


(** ** A body that moves away *)

Lemma drifting_dist (k : nat) :
  (k < 14)%nat ->
  dist (point drifting k) (point fixed_disc k) = INR (S k) / 100 / radsec.
Proof.
  intros Hk. pose proof PI2_1 as Hpi.
  assert (H0 : 0 < INR (S k)) by (apply lt_0_INR; lia).
  assert (H14 : INR (S k) <= INR 14) by (apply le_INR; lia).
  replace (INR 14) with 14 in H14 by (simpl; lra).
  rewrite dist_equator;
    cbn [point drifting fixed_disc disc ra decl2]; try reflexivity.
  - f_equal; lra.
  - lra.
Qed.

Lemma drifting_no_minimum :
  ~ interior_minimum
      (fun k => dist (point drifting k) (point fixed_disc k)) 14.
Proof.
  intros (k & Hk & Hmin & _).
  rewrite !drifting_dist in Hmin by lia.
  replace (S (k - 1)) with (S (S (k - 2))) in Hmin by lia.
  rewrite (S_INR (S (k - 2))) in Hmin.
  pose proof radsec_pos as Hr.
  assert (Hinv : 0 < / radsec) by (apply Rinv_0_lt_compat; exact Hr).
  unfold Rdiv in Hmin. nra.
Qed.

(** C3 at a comet that moves away from a star: no event, and the contact
    times are negative. *)
Lemma occult_no_event_witness :
  exists v',
    occult obj1 setime_id cur_id 0 pinorm unrep_amd64 0
           drifting fixed_disc vars_zero = Some (None, v') /\
    t1 (occ v') < 0 /\ t2 (occ v') < 0 /\ t3 (occ v') < 0 /\
    t4 (occ v') < 0 /\ t5 (occ v') < 0.
Proof.
  destruct (proj2 (occult_no_event obj1 setime_id cur_id 0 pinorm
                     unrep_amd64 0 drifting fixed_disc vars_zero)
                  (or_introl drifting_no_minimum))
    as (v' & Hocc & _ & _ & Hneg).
  exists v'. split; [exact Hocc | exact Hneg].
Defined.


(** * Further properties of the code *)

(** ** The normalisers, once more *)

Lemma trunc_opp (x : R) : Go.trunc (- x) = (- Go.trunc x)%Z.
Proof.
  unfold Go.trunc.
  destruct (Rle_dec 0 x) as [Hx | Hx], (Rle_dec 0 (- x)) as [Hx' | Hx'];
    try lra.
  - assert (x = 0) by lra; subst x.
    rewrite Ropp_0. change 0 with (IZR 0). rewrite Int_part_IZR. reflexivity.
  - rewrite Ropp_involutive. lia.
  - lia.
Qed.

Lemma Mod_opp (x y : R) : y <> 0 -> Go.Mod (- x) y = - Go.Mod x y.
Proof.
  intros Hy. unfold Go.Mod.
  replace (- x / y) with (- (x / y)) by (field; exact Hy).
  rewrite trunc_opp, opp_IZR. lra.
Qed.

Lemma Mod_nonpos (x y : R) : x <= 0 -> 0 < y -> - y < Go.Mod x y <= 0.
Proof.
  intros Hx Hy.
  destruct (Mod_nonneg (- x) y) as [[Hlo Hhi] _]; try lra.
  rewrite Mod_opp in Hlo, Hhi by lra. lra.
Qed.

Lemma piNorm_turns (a : R) : exists k : Z, piNorm a = a + IZR k * pipi.
Proof.
  exists (- Go.trunc ((a + PI) / (2 * PI)))%Z.
  unfold piNorm, Go.Mod, pipi. rewrite opp_IZR. lra.
Qed.

Lemma piNorm_id (a : R) : - PI <= a < PI -> piNorm a = a.
Proof.
  intros Ha; pose proof PI_RGT_0 as Hpi.
  unfold piNorm, Go.Mod.
  rewrite trunc_small; [lra |].
  assert (H : (a + PI) / (2 * PI) * (2 * PI) = a + PI) by (field; lra).
  split; apply Rmult_lt_reg_r with (2 * PI); lra.
Qed.

Lemma piNorm_window (a : R) :
  (- PI <= a -> - PI <= piNorm a < PI) /\
  (a < - PI -> - 3 * PI < piNorm a <= - PI).
Proof.
  pose proof PI_RGT_0 as Hpi. split; intros Ha.
  - apply piNorm_bounds; exact Ha.
  - destruct (Mod_nonpos (a + PI) (2 * PI)) as [Hlo Hhi]; try lra.
    unfold piNorm. lra.
Qed.

(** Both normalisers are idempotent.  [pinorm] leaves exactly the angles
    from -PI to PI where they are, and brings every other one into that
    interval; [piNorm] always returns a value above -3 PI and below PI. *)
Theorem normalisers_idempotent (a : R) :
  pinorm (pinorm a) = pinorm a /\
  piNorm (piNorm a) = piNorm a /\
  (pinorm a = a <-> - PI <= a <= PI) /\
  - 3 * PI < piNorm a < PI.
Proof.
  pose proof PI_RGT_0 as Hpi.
  destruct (pinorm_bounds a) as [Hb _].
  destruct (piNorm_window a) as [Hin Hout].
  split; [apply pinorm_id; exact Hb |].
  split.
  { destruct (Rle_dec (- PI) a) as [Ha | Ha].
    - apply piNorm_id, Hin, Ha.
    - assert (Hlt : a < - PI) by lra. specialize (Hout Hlt).
      destruct (Req_dec (piNorm a) (- PI)) as [Heq | Hne].
      + rewrite Heq. apply piNorm_id; lra.
      + apply piNorm_below; lra. }
  split.
  { split; [intros Heq; rewrite <- Heq; exact Hb | apply pinorm_id]. }
  destruct (Rle_dec (- PI) a) as [Ha | Ha];
    [specialize (Hin Ha) | assert (Hlt : a < - PI) by lra;
                           specialize (Hout Hlt)]; lra.
Qed.

(** ** The separation of two samples *)






(** ** The horizon coordinates *)







(** ** The divisions of the comet *)

(** For a catalog eccentricity that is not negative, neither the division
    by [1 - ecc] nor the division by [1 - ecc*cos(enom)] of the solver is
    a division by less than 0.001. *)
Theorem comet_divisors (elem : Elem.cometElem) (enom : R) :
  0 <= Elem.e elem ->
  1 / 1000 <= 1 - comet_ecc elem /\
  1 / 1000 <= 1 - comet_ecc elem * cos enom.
Proof.
  intros He.
  pose proof (COS_bound enom) as [Hc1 Hc2].
  destruct (comet_ecc_cases elem) as [[Hgt Hc] | [Hle Hc]];
    unfold maxe in *; rewrite Hc; split; nra.
Qed.

(** The theorem at the parabola, whose eccentricity is 1. *)
Lemma comet_divisors_witness :
  1 / 1000 <= 1 - comet_ecc (Elem.mk 0 1 1 0 0 0) /\
  1 / 1000 <= 1 - comet_ecc (Elem.mk 0 1 1 0 0 0) * cos 0.
Proof.
  apply (comet_divisors (Elem.mk 0 1 1 0 0 0) 0). simpl. lra.
Defined.

(** ** The scans of one body *)

Lemma first_from_ext {A : Type} (n lo : nat) (f g : nat -> option A) :
  (forall i, (lo <= i < lo + n)%nat -> f i = g i) ->
  first_from n lo f = first_from n lo g.
Proof.
  revert lo; induction n as [| n IH]; intros lo Hext; simpl.
  - reflexivity.
  - rewrite (Hext lo) by lia.
    destruct (g lo); [reflexivity |]. apply IH. intros i Hi; apply Hext; lia.
Qed.

Lemma ratio_unit (a b : R) : 0 <= a < b -> 0 <= a / b < 1.
Proof.
  intros [Ha Hb].
  assert (Hinv : 0 < / b) by (apply Rinv_0_lt_compat; lra).
  unfold Rdiv. split; [apply Rmult_le_pos; lra |].
  apply Rmult_lt_reg_r with b; [lra |].
  rewrite Rmult_assoc, Rinv_l; lra.
Qed.

Lemma ratio_unit' (a b : R) : 0 < a <= b -> 0 < a / b <= 1.
Proof.
  intros [Ha Hb].
  assert (Hinv : 0 < / b) by (apply Rinv_0_lt_compat; lra).
  unfold Rdiv. split; [apply Rmult_lt_0_compat; lra |].
  apply Rmult_le_reg_r with b; [lra |].
  rewrite Rmult_assoc, Rinv_l; lra.
Qed.

(** What a scan with the shape of [rise] returns: the value at the first
    index that passes, or -1. *)
Lemma scan_cases (body : nat -> option R) (n lo : nat) :
  (first_from n lo body = None /\
   forall i, (lo <= i < lo + n)%nat -> body i = None) \/
  (exists i r, (lo <= i < lo + n)%nat /\ body i = Some r /\
     (forall j, (lo <= j < i)%nat -> body j = None) /\
     first_from n lo body = Some r).
Proof.
  destruct (first_from n lo body) as [r |] eqn:Hf.
  - right. destruct (first_from_some n lo body r Hf) as (i & Hi & Hat & Hb).
    exists i, r; repeat split; try lia; assumption.
  - left. split; [reflexivity |]. apply first_from_none_inv; exact Hf.
Qed.

Lemma rise_at_inv (p : samples) (th : R) (i : nat) (r : R) :
  rise_at p th i = Some r ->
  el (p (i - 1)%nat) <= th < el (p i) /\
  r = IZR (Z.of_nat i - 1)
      + (th - el (p (i - 1)%nat)) / (el (p i) - el (p (i - 1)%nat)).
Proof.
  intros Hr.
  destruct (Rle_dec (el (p (i - 1)%nat)) th) as [H1 | H1];
  destruct (Rlt_dec th (el (p i))) as [H2 | H2];
    try (rewrite rise_at_none in Hr by lra; discriminate).
  rewrite rise_at_some in Hr by lra. injection Hr as <-. split; [lra | reflexivity].
Qed.

Lemma set_at_inv (p : samples) (th : R) (i : nat) (r : R) :
  set_at p th i = Some r ->
  el (p i) <= th < el (p (i - 1)%nat) /\
  r = IZR (Z.of_nat i - 1)
      + (th - el (p (i - 1)%nat)) / (el (p i) - el (p (i - 1)%nat)).
Proof.
  intros Hr.
  destruct (Rle_dec (el (p i)) th) as [H1 | H1];
  destruct (Rlt_dec th (el (p (i - 1)%nat))) as [H2 | H2];
    try (rewrite set_at_none in Hr by lra; discriminate).
  rewrite set_at_some in Hr by lra. injection Hr as <-. split; [lra | reflexivity].
Qed.

(** The two outcomes of [rise]: -1 and no crossing, or the index [i] of
    the first crossing and a value from [i - 1] up to [i], [i] excluded. *)
Lemma rise_outcomes {G : Type} (o : obj2 G) (th : R) :
  (rise o th = -1 /\
   forall i, (1 <= i <= 13)%nat ->
     ~ (el (point o (i - 1)%nat) <= th < el (point o i))) \/
  (exists i, (1 <= i <= 13)%nat /\
     el (point o (i - 1)%nat) <= th < el (point o i) /\
     rise o th = IZR (Z.of_nat i - 1)
                 + (th - el (point o (i - 1)%nat))
                   / (el (point o i) - el (point o (i - 1)%nat)) /\
     IZR (Z.of_nat i - 1) <= rise o th < IZR (Z.of_nat i)).
Proof.
  unfold rise.
  destruct (scan_cases (rise_at (point o) th) (len_point - 1) 1)
    as [[Hf Hnone] | (i & r & Hi & Hat & _ & Hf)]; rewrite Hf.
  - left. split; [reflexivity |]. intros i Hi [H1 H2].
    assert (Hin : (1 <= i < 1 + (len_point - 1))%nat)
      by (unfold len_point, npts; lia).
    specialize (Hnone i Hin). rewrite rise_at_some in Hnone by lra.
    discriminate Hnone.
  - right. unfold len_point, npts in Hi.
    destruct (rise_at_inv _ _ _ _ Hat) as [Hc ->].
    exists i. split; [lia |]. split; [exact Hc |]. split; [reflexivity |].
    destruct (ratio_unit (th - el (point o (i - 1)%nat))
                (el (point o i) - el (point o (i - 1)%nat))) as [Hlo Hhi];
      [lra |].
    rewrite minus_IZR. lra.
Qed.

(** The two outcomes of [set]: -1 and no crossing, or the index [i] of the
    first crossing and a value above [i - 1] and at most [i]. *)
Lemma set_outcomes {G : Type} (o : obj2 G) (th : R) :
  (set o th = -1 /\
   forall i, (1 <= i <= 13)%nat ->
     ~ (el (point o i) <= th < el (point o (i - 1)%nat))) \/
  (exists i, (1 <= i <= 13)%nat /\
     el (point o i) <= th < el (point o (i - 1)%nat) /\
     set o th = IZR (Z.of_nat i - 1)
                + (th - el (point o (i - 1)%nat))
                  / (el (point o i) - el (point o (i - 1)%nat)) /\
     IZR (Z.of_nat i - 1) < set o th <= IZR (Z.of_nat i)).
Proof.
  unfold set.
  destruct (scan_cases (set_at (point o) th) (len_point - 1) 1)
    as [[Hf Hnone] | (i & r & Hi & Hat & _ & Hf)]; rewrite Hf.
  - left. split; [reflexivity |]. intros i Hi [H1 H2].
    assert (Hin : (1 <= i < 1 + (len_point - 1))%nat)
      by (unfold len_point, npts; lia).
    specialize (Hnone i Hin). rewrite set_at_some in Hnone by lra.
    discriminate Hnone.
  - right. unfold len_point, npts in Hi.
    destruct (set_at_inv _ _ _ _ Hat) as [Hc ->].
    exists i. split; [lia |]. split; [exact Hc |]. split; [reflexivity |].
    destruct (ratio_unit' (el (point o (i - 1)%nat) - th)
                (el (point o (i - 1)%nat) - el (point o i))) as [Hlo Hhi];
      [lra |].
    replace ((th - el (point o (i - 1)%nat))
             / (el (point o i) - el (point o (i - 1)%nat)))
      with ((el (point o (i - 1)%nat) - th)
            / (el (point o (i - 1)%nat) - el (point o i)))
      by (field; lra).
    rewrite minus_IZR. lra.
Qed.

Lemma IZR_index_bounds (i : nat) :
  (1 <= i <= 13)%nat -> 0 <= IZR (Z.of_nat i - 1) /\ IZR (Z.of_nat i) <= 13.
Proof.
  intros Hi. split.
  - apply (IZR_le 0); lia.
  - apply (IZR_le _ 13); lia.
Qed.

(** The value -1 of [rise] and [set] is never the time of a crossing:
    [rise] returns -1 or a time from 0 up to 13, 13 excluded, [set]
    returns -1 or a time above 0 and at most 13, and each returns a time
    that is not negative exactly when the elevations cross its way. *)
Theorem rise_set_sentinel {G : Type} (o : obj2 G) (th : R) :
  (rise o th = -1 \/ 0 <= rise o th < 13) /\
  (0 <= rise o th <->
   exists i, (1 <= i <= 13)%nat /\
             el (point o (i - 1)%nat) <= th < el (point o i)) /\
  (set o th = -1 \/ 0 < set o th <= 13) /\
  (0 <= set o th <->
   exists i, (1 <= i <= 13)%nat /\
             el (point o i) <= th < el (point o (i - 1)%nat)).
Proof.
  assert (Hrise : (rise o th = -1 \/ 0 <= rise o th < 13) /\
                  (0 <= rise o th <->
                   exists i, (1 <= i <= 13)%nat /\
                     el (point o (i - 1)%nat) <= th < el (point o i))).
  { destruct (rise_outcomes o th) as [[Hr Hnone] | (i & Hi & Hc & _ & Hb)].
    - rewrite Hr. split; [left; reflexivity |]. split; [lra |].
      intros (i & Hi & Hc). exfalso; exact (Hnone i Hi Hc).
    - pose proof (IZR_index_bounds i Hi) as [Hi0 Hi13].
      split; [right; lra |]. split; [| lra].
      intros _; exists i; split; assumption. }
  assert (Hset : (set o th = -1 \/ 0 < set o th <= 13) /\
                 (0 <= set o th <->
                  exists i, (1 <= i <= 13)%nat /\
                    el (point o i) <= th < el (point o (i - 1)%nat))).
  { destruct (set_outcomes o th) as [[Hs Hnone] | (i & Hi & Hc & _ & Hb)].
    - rewrite Hs. split; [left; reflexivity |]. split; [lra |].
      intros (i & Hi & Hc). exfalso; exact (Hnone i Hi Hc).
    - pose proof (IZR_index_bounds i Hi) as [Hi0 Hi13].
      split; [right; lra |]. split; [| lra].
      intros _; exists i; split; assumption. }
  tauto.
Qed.

Lemma trunc_floor (x : R) (z : Z) :
  (0 <= z)%Z -> IZR z <= x < IZR z + 1 -> Go.trunc x = z.
Proof.
  intros Hz [Hlo Hhi]. unfold Go.trunc.
  assert (H0 : 0 <= x) by (apply (IZR_le 0) in Hz; lra).
  destruct (Rle_dec 0 x) as [_ | Hn]; [| contradiction].
  symmetry; apply Int_part_spec; lra.
Qed.

Lemma int_floor (unrep : R -> Z) (x : R) (z : Z) :
  (0 <= z <= 13)%Z -> IZR z <= x < IZR z + 1 -> Go.int unrep x = z.
Proof.
  intros Hz Hx. unfold Go.int. cbv zeta.
  rewrite (trunc_floor x z) by (try lia; exact Hx).
  destruct (Z.leb_spec Go.min_int z), (Z.leb_spec z Go.max_int);
    unfold Go.min_int, Go.max_int in *; simpl; try lia; reflexivity.
Qed.

(** The linear interpolation of [sunel] at a time between the samples
    [i - 1] and [i]. *)
Lemma sunel_between (unrep : R -> Z) (p : samples) (i : nat) (t : R) :
  (1 <= i <= 13)%nat -> IZR (Z.of_nat i - 1) <= t < IZR (Z.of_nat i) ->
  sunel unrep p t
  = Some (el (p (i - 1)%nat)
          + (t - IZR (Z.of_nat i - 1)) * (el (p i) - el (p (i - 1)%nat))).
Proof.
  intros Hi Ht.
  assert (Hint : Go.int unrep t = (Z.of_nat i - 1)%Z).
  { apply int_floor; [lia |]. rewrite minus_IZR in *. lra. }
  rewrite sunel_inside by (rewrite Hint; unfold npts; lia).
  rewrite Hint. unfold Go.float64.
  replace (Z.to_nat (Z.of_nat i - 1)) with (i - 1)%nat by lia.
  replace (Z.to_nat (Z.of_nat i - 1 + 1)) with i by lia.
  reflexivity.
Qed.

(** [arc_body] rises through the horizon a third of the way from sample 3
    to sample 4, and sets half way from sample 9 to sample 10. *)
Lemma arc_body_rise : rise arc_body 0 = 3 + 1 / 3.
Proof.
  unfold rise. erewrite first_from_first with (i := 4%nat).
  - reflexivity.
  - unfold len_point, npts; lia.
  - intros j Hj. apply rise_at_none.
    destruct j as [| [| [| [| j]]]]; simpl; try lia; lra.
  - rewrite rise_at_some by (simpl; lra). simpl. f_equal. lra.
Qed.

Lemma arc_body_set : set arc_body 0 = 9 + 1 / 2.
Proof.
  unfold set. erewrite first_from_first with (i := 10%nat).
  - reflexivity.
  - unfold len_point, npts; lia.
  - intros j Hj. apply set_at_none.
    do 10 (destruct j as [| j]; [simpl; try lia; lra |]). lia.
  - rewrite set_at_some by (simpl; lra). simpl. f_equal. lra.
Qed.

(** With [float64] read as the exact reals, [sunel] undoes [rise] and
    [set]: when [rise] finds a crossing of the threshold [th] by the
    samples of the Sun, the elevation [sunel] interpolates at the time it
    returns is [th]; so it is at the time [set] returns when that is
    before the last sample, and at the last sample, 13, [sunel] is out of
    its window and returns -90. *)
Theorem sunel_at_crossing {G : Type} (unrep : R -> Z) (osun : obj2 G)
  (th : R) :
  (0 <= rise osun th ->
   sunel unrep (point osun) (rise osun th) = Some th) /\
  (0 <= set osun th < 13 ->
   sunel unrep (point osun) (set osun th) = Some th) /\
  (set osun th = 13 ->
   sunel unrep (point osun) (set osun th) = Some (-90)).
Proof.
  split; [| split].
  - intros Hr.
    destruct (rise_outcomes osun th) as [[Hm _] | (i & Hi & Hc & Hv & Hb)];
      [lra |].
    rewrite (sunel_between unrep (point osun) i) by assumption.
    f_equal. rewrite Hv. field. lra.
  - intros Hs.
    destruct (set_outcomes osun th) as [[Hm _] | (i & Hi & Hc & Hv & Hb)];
      [lra |].
    destruct (Rlt_dec (set osun th) (IZR (Z.of_nat i))) as [Hlt | Hge].
    + rewrite (sunel_between unrep (point osun) i) by (try assumption; lra).
      f_equal. rewrite Hv. field. lra.
    + assert (Heq : set osun th = IZR (Z.of_nat i)) by lra.
      assert (Hi' : (i <= 12)%nat).
      { destruct (Nat.eq_dec i 13) as [-> | Hne]; [| lia].
        rewrite Heq in Hs. simpl in Hs. lra. }
      rewrite (sunel_between unrep (point osun) (S i)).
      * replace (S i - 1)%nat with i by lia.
        replace (Z.of_nat (S i) - 1)%Z with (Z.of_nat i) by lia.
        f_equal. rewrite Heq.
        assert (Hel : el (point osun i) = th).
        { rewrite Hv, minus_IZR in Heq.
          assert (Hq : (th - el (point osun (i - 1)%nat))
                       / (el (point osun i) - el (point osun (i - 1)%nat))
                       = 1) by lra.
          apply (f_equal (fun q => q * (el (point osun i)
                                      - el (point osun (i - 1)%nat)))) in Hq.
          unfold Rdiv in Hq. rewrite Rmult_assoc, Rinv_l in Hq by lra. lra. }
        rewrite Hel. lra.
      * lia.
      * replace (Z.of_nat (S i) - 1)%Z with (Z.of_nat i) by lia.
        rewrite Heq, Nat2Z.inj_succ, succ_IZR. lra.
  - intros Hs. rewrite Hs. apply sunel_outside. right.
    rewrite (int_IZR unrep 13) by (unfold Go.min_int, Go.max_int; lia).
    unfold npts; lia.
Qed.

(** At [arc_body] and the horizon: the crossings at 3 + 1/3 and at
    9 + 1/2 are both read back as 0. *)
Lemma sunel_at_crossing_witness :
  (0 <= rise arc_body 0 /\ 0 <= set arc_body 0 < 13) /\
  sunel unrep_amd64 arc (rise arc_body 0) = Some 0 /\
  sunel unrep_amd64 arc (set arc_body 0) = Some 0.
Proof.
  assert (Hr : 0 <= rise arc_body 0) by (rewrite arc_body_rise; lra).
  assert (Hs : 0 <= set arc_body 0 < 13) by (rewrite arc_body_set; lra).
  split; [split; assumption |]. split.
  - exact (proj1 (sunel_at_crossing unrep_amd64 arc_body 0) Hr).
  - exact (proj1 (proj2 (sunel_at_crossing unrep_amd64 arc_body 0)) Hs).
Defined.

(** ** Meteor showers, seasons and elongations *)

Lemma betcross_at_rise_at (p : samples) (b : R) (i : nat) :
  betcross_at p b i = rise_at (point (mag_as_el p)) b i.
Proof.
  unfold betcross_at, rise_at, Go.gtb, Go.float64. cbn [point mag_as_el el].
  destruct (Go.leb (mag (p (i - 1)%nat)) b) eqn:H1; [| reflexivity].
  destruct (Go.ltb b (mag (p i))) eqn:H2; [| reflexivity].
  apply leb_true in H1. apply ltb_true in H2.
  cbn [andb]. f_equal. rewrite minus_IZR. field. split; lra.
Qed.

(** With [float64] read as the exact reals, [betcross] is [rise] on the
    field [mag] of the samples of the Sun: the same test at the same
    indices, and [i - (b - d2) / (d1 - d2)] is
    [(i - 1) + (b - d1) / (d2 - d1)].  So it returns -1 or a time from 0
    up to 13, 13 excluded. *)
Theorem betcross_is_rise (osun_point : samples) (b : R) :
  betcross osun_point b = rise (mag_as_el osun_point) b /\
  (betcross osun_point b = -1 \/ 0 <= betcross osun_point b < 13).
Proof.
  assert (Heq : betcross osun_point b = rise (mag_as_el osun_point) b).
  { unfold betcross, rise.
    rewrite (first_from_ext _ _ (betcross_at osun_point b)
               (rise_at (point (mag_as_el osun_point)) b));
      [reflexivity |].
    intros i _. apply betcross_at_rise_at. }
  split; [exact Heq |]. rewrite Heq.
  destruct (rise_outcomes (mag_as_el osun_point) b)
    as [[Hr _] | (i & Hi & _ & _ & Hb)].
  - left; exact Hr.
  - right. pose proof (IZR_index_bounds i Hi) as [Hi0 Hi13]. lra.
Qed.

(** The loop of [solstice] from index [i >= 1], with the right ascension
    of sample [i - 1] in [d2], is the scan of [solstice_at]. *)
Lemma solstice_loop_scan (n : Z) (p : samples) (k i : nat) :
  (1 <= i)%nat ->
  solstice_loop n p k i (solstice_ra n p (i - 1)%nat)
  = match first_from k i (solstice_at n p) with
    | Some r => r
    | None => -1
    end.
Proof.
  revert i; induction k as [| k IH]; intros i Hi; [reflexivity |].
  cbn [solstice_loop first_from]. cbv zeta.
  assert (Hle : (1 <=? i)%nat = true) by (apply Nat.leb_le; exact Hi).
  rewrite Hle. cbn [andb].
  assert (Hat : solstice_at n p i
    = if Go.leb (solstice_ra n p (i - 1)%nat) (solstice_target n)
         && Go.ltb (solstice_target n) (solstice_ra n p i)
      then Some (Go.float64 (Z.of_nat i)
                 - (solstice_target n - solstice_ra n p i)
                   / (solstice_ra n p (i - 1)%nat - solstice_ra n p i))
      else None) by reflexivity.
  rewrite Hat.
  destruct (Go.leb (solstice_ra n p (i - 1)%nat) (solstice_target n)
            && Go.ltb (solstice_target n) (solstice_ra n p i));
    [reflexivity |].
  rewrite <- (IH (S i)) by lia.
  replace (S i - 1)%nat with i by lia. reflexivity.
Qed.

Lemma solstice_scan (p : samples) (n : Z) :
  solstice p n = match first_from 12 1 (solstice_at n p) with
                 | Some r => r
                 | None => -1
                 end.
Proof.
  unfold solstice, len_point, npts. simpl Nat.sub.
  cbn [solstice_loop Nat.leb andb].
  apply (solstice_loop_scan n p 12 1). lia.
Qed.

(** [solstice] compares the right ascensions of the samples 0 to 12 only:
    it returns [i - (d3 - d2) / (d1 - d2)] for the first [i] from 1 to 12
    with [d1 <= d3 < d2], a time from 0 up to 12, 12 excluded, and -1 when
    there is none; the zero values [d1] and [d2] start with are never
    compared, and neither is the last sample, so a season that begins
    between the samples 12 and 13 is not reported. *)
Theorem solstice_crossing (osun_point : samples) (n : Z) :
  let d := solstice_ra n osun_point in
  let d3 := solstice_target n in
  ((forall i, (1 <= i <= 12)%nat -> ~ (d (i - 1)%nat <= d3 < d i)) /\
   solstice osun_point n = -1) \/
  (exists i, (1 <= i <= 12)%nat /\ d (i - 1)%nat <= d3 < d i /\
     (forall j, (1 <= j < i)%nat -> ~ (d (j - 1)%nat <= d3 < d j)) /\
     solstice osun_point n
     = IZR (Z.of_nat i) - (d3 - d i) / (d (i - 1)%nat - d i) /\
     IZR (Z.of_nat i) - 1 <= solstice osun_point n < IZR (Z.of_nat i) /\
     0 <= solstice osun_point n < 12).
Proof.
  intros d d3. rewrite solstice_scan.
  assert (Hat : forall i,
    (d (i - 1)%nat <= d3 < d i ->
     solstice_at n osun_point i
     = Some (IZR (Z.of_nat i) - (d3 - d i) / (d (i - 1)%nat - d i))) /\
    (~ (d (i - 1)%nat <= d3 < d i) -> solstice_at n osun_point i = None)).
  { intros i. unfold solstice_at. cbv zeta. fold d d3. split.
    - intros [H1 H2]. apply leb_true in H1. apply ltb_true in H2.
      rewrite H1, H2. reflexivity.
    - intros Hn.
      destruct (Go.leb (d (i - 1)%nat) d3) eqn:H1; [| reflexivity].
      destruct (Go.ltb d3 (d i)) eqn:H2; [| reflexivity].
      apply leb_true in H1. apply ltb_true in H2. exfalso; apply Hn; lra. }
  destruct (scan_cases (solstice_at n osun_point) 12 1)
    as [[Hf Hnone] | (i & r & Hi & Hsome & Hfirst & Hf)]; rewrite Hf.
  - left. split; [| reflexivity]. intros i Hi Hc.
    specialize (Hnone i ltac:(lia)).
    rewrite (proj1 (Hat i) Hc) in Hnone. discriminate.
  - right. exists i.
    assert (Hc : d (i - 1)%nat <= d3 < d i).
    { destruct (Rle_dec (d (i - 1)%nat) d3) as [H1 | H1];
      destruct (Rlt_dec d3 (d i)) as [H2 | H2];
        try (split; assumption);
        rewrite (proj2 (Hat i)) in Hsome by lra; discriminate. }
    rewrite (proj1 (Hat i) Hc) in Hsome. injection Hsome as <-.
    assert (Hq : 0 < (d i - d3) / (d i - d (i - 1)%nat) <= 1)
      by (apply ratio_unit'; lra).
    replace ((d3 - d i) / (d (i - 1)%nat - d i))
      with ((d i - d3) / (d i - d (i - 1)%nat)) by (field; lra).
    assert (Hi1 : 1 <= IZR (Z.of_nat i)) by (apply (IZR_le 1); lia).
    assert (Hi12 : IZR (Z.of_nat i) <= 12) by (apply (IZR_le _ 12); lia).
    split; [lia |]. split; [exact Hc |]. split.
    + intros j Hj Hcj. specialize (Hfirst j ltac:(lia)).
      rewrite (proj1 (Hat j) Hcj) in Hfirst. discriminate.
    + split; [reflexivity |]. split; lra.
Qed.

(** [melong] returns -1, or the index [k] of the first three samples
    [k], [k + 1], [k + 2] whose middle elongation is at least the two
    others: an index from 0 to 11, so the test [t >= 0] of [search] holds
    exactly when there are three such samples. *)
Theorem melong_first_maximum {G : Type} (osun_point : samples) (o : obj2 G) :
  let d := fun k => dist (point o k) (osun_point k) in
  let peak := fun k => d k <= d (S k) /\ d (S (S k)) <= d (S k) in
  ((forall k, (k <= 11)%nat -> ~ peak k) /\ melong osun_point o = (-1)%Z) \/
  (exists k, (k <= 11)%nat /\ peak k /\
     (forall j, (j < k)%nat -> ~ peak j) /\
     melong osun_point o = Z.of_nat k).
Proof.
  intros d peak. unfold melong, len_point, npts. simpl Nat.sub.
  assert (Hat : forall i, (2 <= i)%nat ->
    (peak (i - 2)%nat ->
     melong_at (point o) osun_point i = Some (Z.of_nat i - 2)%Z) /\
    (~ peak (i - 2)%nat -> melong_at (point o) osun_point i = None)).
  { intros i Hi. unfold melong_at, peak. cbv zeta.
    replace (S (i - 2)) with (i - 1)%nat by lia.
    replace (S (i - 1)) with i by lia.
    fold (d (i - 2)%nat) (d (i - 1)%nat) (d i). split.
    - intros [H1 H2]. apply leb_true in H1, H2. rewrite H1, H2. reflexivity.
    - intros Hn.
      destruct (Go.leb (d (i - 2)%nat) (d (i - 1)%nat)) eqn:H1;
        [| reflexivity].
      destruct (Go.leb (d i) (d (i - 1)%nat)) eqn:H2; [| reflexivity].
      apply leb_true in H1, H2. exfalso; apply Hn; split; assumption. }
  destruct (first_from 12 2 (melong_at (point o) osun_point)) as [r |] eqn:Hf.
  - right. apply first_from_some in Hf as (i & Hi & Hsome & Hfirst).
    exists (i - 2)%nat.
    assert (Hp : peak (i - 2)%nat).
    { destruct (Rle_dec (d (i - 2)%nat) (d (S (i - 2)))) as [H1 | H1];
      destruct (Rle_dec (d (S (S (i - 2)))) (d (S (i - 2)))) as [H2 | H2];
        try (split; assumption);
        rewrite (proj2 (Hat i ltac:(lia))) in Hsome
          by (intros [? ?]; contradiction);
        discriminate. }
    rewrite (proj1 (Hat i ltac:(lia)) Hp) in Hsome. injection Hsome as <-.
    split; [lia |]. split; [exact Hp |]. split; [| lia].
    intros j Hj Hpj. specialize (Hfirst (j + 2)%nat ltac:(lia)).
    rewrite (proj1 (Hat (j + 2)%nat ltac:(lia))) in Hfirst.
    + discriminate.
    + replace (j + 2 - 2)%nat with j by lia. exact Hpj.
  - left. split; [| reflexivity]. intros k Hk Hp.
    pose proof (first_from_none_inv _ _ _ Hf (k + 2)%nat ltac:(lia)) as Hn.
    rewrite (proj1 (Hat (k + 2)%nat ltac:(lia))) in Hn.
    + discriminate.
    + replace (k + 2 - 2)%nat with k by lia. exact Hp.
Qed.

(** ** The stars near the Moon *)

Lemma moon_window_wrap (omoon_point : samples) :
  snd (moon_window omoon_point) = true <->
  snd (fst (moon_window omoon_point)) < fst (fst (moon_window omoon_point)).
Proof.
  unfold moon_window. cbv zeta. cbn [fst snd]. apply gtb_true.
Qed.

(** The window of [stars] in hours, [lomoon] to [himoon].  When it does
    not wrap the two revisions pass over the same stars, those outside
    it.  When it wraps around 24 hours, astro.go passes over every star,
    since the second test of its [if] ... [else if] then holds whenever
    the first does not; the second revision keeps the stars from
    [lomoon] on and those up to [himoon]. *)
Theorem stars_window (omoon_point : samples) (alpha : R) :
  let w := moon_window omoon_point in
  let lomoon := fst (fst w) in
  let himoon := snd (fst w) in
  (lomoon <= himoon ->
   star_skipped w alpha = star_skipped' w alpha /\
   (star_skipped w alpha = false <-> lomoon <= alpha <= himoon)) /\
  (himoon < lomoon ->
   star_skipped w alpha = true /\
   (star_skipped' w alpha = false <-> lomoon <= alpha \/ alpha <= himoon)).
Proof.
  intros w lomoon himoon.
  pose proof (moon_window_wrap omoon_point) as Hwrap.
  fold w in Hwrap. fold lomoon himoon in Hwrap.
  destruct w as [[lo hi] wrap] eqn:Hw. cbn [fst snd] in *.
  subst lomoon himoon. unfold star_skipped, star_skipped'.
  destruct (Go.ltb alpha lo) eqn:Hlo;
    [apply ltb_true in Hlo | apply ltb_false in Hlo];
    (destruct (Go.gtb alpha hi) eqn:Hhi;
     [apply gtb_true in Hhi | apply gtb_false in Hhi]).
  all: split; intros Hord.
  (* the window does not wrap *)
  all: try (assert (Hw0 : wrap = false)
              by (destruct wrap;
                  [assert (hi < lo) by (apply Hwrap; reflexivity); lra
                  | reflexivity]);
            rewrite Hw0; cbn [andb orb negb];
            split; [reflexivity |];
            split; [intros; try discriminate; lra
                   | intros; try reflexivity; lra]).
  (* the window wraps *)
  all: assert (Hw1 : wrap = true) by (apply Hwrap; exact Hord);
       rewrite Hw1; cbn [andb orb negb].
  - split; [reflexivity |]. split; [discriminate | intros [H | H]; lra].
  - split; [reflexivity |]. split; [intros; right; lra | reflexivity].
  - split; [reflexivity |]. split; [intros; left; lra | reflexivity].
  - lra.
Qed.

(** The window of [moon_at_equinox] runs from 24 - 1/54 to 1 + 1/54
    hours, and a star at half an hour of right ascension, inside it, is
    passed over by astro.go and kept by the second revision. *)
Lemma stars_window_witness :
  moon_window moon_at_equinox = (24 - 1 / 54, 1 + 1 / 54, true) /\
  star_skipped (moon_window moon_at_equinox) (1 / 2) = true /\
  star_skipped' (moon_window moon_at_equinox) (1 / 2) = false.
Proof.
  pose proof PI_RGT_0 as Hpi.
  assert (Hw : moon_window moon_at_equinox = (24 - 1 / 54, 1 + 1 / 54, true)).
  { unfold moon_window, moon_at_equinox, npts. cbv zeta. cbn [ra].
    replace (INR 0) with 0 by reflexivity.
    replace (INR (12 + 1)) with 13 by (simpl; lra).
    assert (Hsd : 1000 * radsec = PI / 648) by (unfold radsec, radian; field).
    rewrite Hsd.
    assert (H1 : Go.ltb (0 * (PI / 156) - PI / 648) 0 = true)
      by (apply ltb_true; lra).
    assert (H2 : Go.gtb (13 * (PI / 156) + PI / 648) pipi = false)
      by (apply gtb_false; unfold pipi; lra).
    rewrite H1, H2.
    replace ((0 * (PI / 156) - PI / 648 + pipi) * (12 / PI))
      with (24 - 1 / 54) by (unfold pipi; field; lra).
    replace ((13 * (PI / 156) + PI / 648) * (12 / PI))
      with (1 + 1 / 54) by (field; lra).
    assert (H3 : Go.gtb (24 - 1 / 54) (1 + 1 / 54) = true)
      by (apply gtb_true; lra).
    rewrite H3. reflexivity. }
  split; [exact Hw |].
  pose proof (stars_window moon_at_equinox (1 / 2)) as H.
  cbv zeta in H. rewrite Hw in *. cbn [fst snd] in H.
  destruct H as [_ H]. destruct H as [Hskip Hkeep]; [lra |].
  split; [exact Hskip |]. apply Hkeep. right; lra.
Defined.

(** ** The perturbation series *)

Lemma wrap_id (z : Z) :
  (Go.min_int <= z <= Go.max_int)%Z -> Go.wrap z = z.
Proof.
  unfold Go.wrap, Go.min_int, Go.max_int. intros Hz.
  rewrite Z.mod_small by lia. lia.
Qed.

Lemma abs_cases (x : Z) :
  (Go.min_int < x <= Go.max_int -> abs x = Z.abs x)%Z /\
  abs Go.min_int = Go.min_int.
Proof.
  split.
  - intros Hx. unfold abs. destruct (Z.ltb_spec x 0) as [Hneg | Hpos].
    + unfold Go.sub_int. rewrite wrap_id
        by (unfold Go.min_int, Go.max_int in *; lia). lia.
    + lia.
  - reflexivity.
Qed.

Lemma times_pow (n : nat) (k x : R) : times n k x = x * k ^ n.
Proof.
  revert x; induction n as [| n IH]; intros x; simpl.
  - lra.
  - rewrite IH. lra.
Qed.

Lemma land_1_odd (m : Z) : negb (Z.land m 1 =? 0)%Z = Z.odd m.
Proof.
  assert (H : Z.land m 1 = Z.b2z (Z.odd m)).
  { change 1%Z with (Z.ones 1). rewrite Z.land_ones by lia.
    change (2 ^ 1)%Z with 2%Z. rewrite Zmod_odd.
    destruct (Z.odd m); reflexivity. }
  rewrite H. destruct (Z.odd m); reflexivity.
Qed.

(** [trigx] multiplies the term by [k1], [k2] and [k3] as many times as
    the absolute values of [i], [j] and [k], whatever their signs, and by
    [k4] when [m] is odd, negative or not.  At the least [int], whose
    negation wraps around to itself, [abs] returns a negative number and
    the loop of [k1] does not run at all. *)
Theorem trigx_powers (mnom msun noded dmoon k1 k2 k3 k4 coef : R)
  (i j k m : Z) (angle : R) (f : R -> R) :
  let term := coef * f ((IZR i * mnom + IZR j * msun + IZR k * noded
                         + IZR m * dmoon + angle) * radian) in
  let parity := if Z.odd m then k4 else 1 in
  ((Go.min_int < i <= Go.max_int)%Z ->
   (Go.min_int < j <= Go.max_int)%Z ->
   (Go.min_int < k <= Go.max_int)%Z ->
   trigx mnom msun noded dmoon k1 k2 k3 k4 coef i j k m angle f
   = term * k1 ^ Z.abs_nat i * k2 ^ Z.abs_nat j * k3 ^ Z.abs_nat k
     * parity) /\
  (i = Go.min_int ->
   (Go.min_int < j <= Go.max_int)%Z ->
   (Go.min_int < k <= Go.max_int)%Z ->
   trigx mnom msun noded dmoon k1 k2 k3 k4 coef i j k m angle f
   = term * k2 ^ Z.abs_nat j * k3 ^ Z.abs_nat k * parity).
Proof.
  intros term parity.
  assert (Hpar : forall x,
    (if negb (Z.land m 1 =? 0)%Z then x * k4 else x) = x * parity).
  { intros x. rewrite land_1_odd. unfold parity.
    destruct (Z.odd m); lra. }
  split.
  - intros Hi Hj Hk. unfold trigx. cbv zeta. rewrite Hpar.
    rewrite (proj1 (abs_cases i) Hi), (proj1 (abs_cases j) Hj),
            (proj1 (abs_cases k) Hk).
    rewrite !times_pow, <- !Zabs2Nat.abs_nat_spec. reflexivity.
  - intros -> Hj Hk. unfold trigx. cbv zeta. rewrite Hpar.
    rewrite (proj2 (abs_cases 0)),
            (proj1 (abs_cases j) Hj), (proj1 (abs_cases k) Hk).
    rewrite !times_pow.
    replace (Z.to_nat Go.min_int) with 0%nat by reflexivity.
    rewrite <- !Zabs2Nat.abs_nat_spec.
    unfold term, Go.float64. cbn [pow]. ring.
Qed.

(** The theorem at the term with the multiples -2, 1, 0 and -1: the
    factors are [k1] squared, [k2] and [k4]. *)
Lemma trigx_powers_witness :
  ((Go.min_int < -2 <= Go.max_int)%Z /\ (Go.min_int < 1 <= Go.max_int)%Z /\
   (Go.min_int < 0 <= Go.max_int)%Z) /\
  trigx 10 20 30 40 2 3 5 7 1 (-2) 1 0 (-1) 0 cos
  = cos ((-2 * 10 + 1 * 20 + 0 * 30 + -1 * 40 + 0) * radian) * 2 * 2 * 3 * 7.
Proof.
  assert (Hi : (Go.min_int < -2 <= Go.max_int)%Z)
    by (unfold Go.min_int, Go.max_int; lia).
  assert (Hj : (Go.min_int < 1 <= Go.max_int)%Z)
    by (unfold Go.min_int, Go.max_int; lia).
  assert (Hk : (Go.min_int < 0 <= Go.max_int)%Z)
    by (unfold Go.min_int, Go.max_int; lia).
  split; [repeat split; lia |].
  rewrite (proj1 (trigx_powers 10 20 30 40 2 3 5 7 1 (-2) 1 0 (-1) 0 cos)
             Hi Hj Hk).
  simpl. ring.
Defined.

(** The inner loop of [trigadd] from index [j] reads [cac] at [j] up to
    [j + len(coefs) - 1]. *)
Lemma phase_returns (cac : list Z) (coefs : list R) (j : nat) (a2 : R) :
  (j <= List.length cac)%nat ->
  ((j + List.length coefs <= List.length cac)%nat ->
   exists a, phase cac coefs j a2 = Some (a, (j + List.length coefs)%nat)) /\
  ((List.length cac < j + List.length coefs)%nat ->
   phase cac coefs j a2 = None).
Proof.
  revert j a2; induction coefs as [| c coefs IH]; intros j a2 Hj.
  - simpl. split; [| lia]. intros _. exists a2. f_equal. f_equal. lia.
  - cbn [phase List.length].
    destruct (nth_error cac j) as [n |] eqn:Hn; cbn [bind].
    + assert (Hlt : (j < List.length cac)%nat)
        by (apply nth_error_Some; congruence).
      destruct (IH (S j) (a2 + Go.float64 n * c)) as [Hok Hbad]; [lia |].
      split.
      * intros Hlen. destruct Hok as [a Ha]; [lia |].
        exists a. rewrite Ha. f_equal. f_equal. lia.
      * intros Hlen. apply Hbad. lia.
    + apply nth_error_None in Hn. split; [lia | reflexivity].
Qed.

Lemma trigadd_from_returns (f : R -> R) (cac : list Z) (coefs : list R)
  (pairs : nat) :
  forall (caf : list R) (j : nat) (sum : R),
  (List.length caf <= 2 * pairs + 1)%nat ->
  (j <= List.length cac)%nat ->
  ((exists v, trigadd_from f caf cac coefs j sum = Some v) <->
   Nat.even (List.length caf) = true /\
   (j + List.length caf / 2 * List.length coefs <= List.length cac)%nat).
Proof.
  induction pairs as [| pairs IH]; intros caf j sum Hlen Hj.
  - destruct caf as [| a1 [| a2 caf]]; simpl in Hlen; try lia.
    + simpl. split; [intros _; split; [reflexivity | lia] |].
      intros _; eexists; reflexivity.
    + simpl. split; [intros [v Hv]; discriminate |].
      intros [Hev _]; discriminate.
  - destruct caf as [| a1 [| a2 caf]].
    + simpl. split; [intros _; split; [reflexivity | lia] |].
      intros _; eexists; reflexivity.
    + simpl. split; [intros [v Hv]; discriminate |].
      intros [Hev _]; discriminate.
    + cbn [trigadd_from].
      assert (Hdiv : (List.length (a1 :: a2 :: caf) / 2
                      = S (List.length caf / 2))%nat).
      { cbn [List.length].
        replace (S (S (List.length caf))) with (1 * 2 + List.length caf)%nat
          by lia.
        rewrite Nat.div_add_l by lia. lia. }
      assert (Hev : Nat.even (List.length (a1 :: a2 :: caf))
                    = Nat.even (List.length caf)) by reflexivity.
      rewrite Hdiv, Hev.
      destruct (phase_returns cac coefs j a2 Hj) as [Hok Hbad].
      destruct (Nat.le_gt_cases (j + List.length coefs) (List.length cac))
        as [Hfit | Hover].
      * destruct (Hok Hfit) as [a Ha]. rewrite Ha. cbn [bind fst snd].
        rewrite (IH caf (j + List.length coefs)%nat (sum + a1 * f a))
          by (simpl in Hlen; lia).
        split; intros [H1 H2]; (split; [exact H1 | lia]).
      * rewrite (Hbad Hover). cbn [bind].
        split; [intros [v Hv]; discriminate |].
        intros [_ H2]. exfalso. simpl in H2. lia.
Qed.

(** [trigadd] returns exactly when [caf] holds whole pairs and [cac] holds
    one multiple for each coefficient of each pair; with a last entry of
    [caf] without its pair, or with fewer multiples, an index is out of
    range, whatever the values are. *)
Theorem trigadd_returns (f : R -> R) (caf : list R) (cac : list Z)
  (coefs : list R) :
  (exists v, trigadd f caf cac coefs = Some v) <->
  Nat.even (List.length caf) = true /\
  (List.length caf / 2 * List.length coefs <= List.length cac)%nat.
Proof.
  unfold trigadd.
  rewrite (trigadd_from_returns f cac coefs (List.length caf) caf 0 0)
    by lia.
  reflexivity.
Qed.

(** ** The order of the output *)

Lemma evt_cmp_cases (signif : Z) (a b : evt) :
  (sort_key signif a < sort_key signif b /\ evt_cmp signif a b = (-1)%Z) \/
  (sort_key signif a = sort_key signif b /\ evt_cmp signif a b = 0%Z) \/
  (sort_key signif b < sort_key signif a /\ evt_cmp signif a b = 1%Z).
Proof.
  unfold evt_cmp. cbv zeta.
  destruct (Go.ltb (sort_key signif a) (sort_key signif b)) eqn:H1.
  - apply ltb_true in H1. left; split; [exact H1 | reflexivity].
  - apply ltb_false in H1.
    destruct (Go.ltb (sort_key signif b) (sort_key signif a)) eqn:H2.
    + apply ltb_true in H2. right; right; split; [exact H2 | reflexivity].
    + apply ltb_false in H2. right; left; split; [lra | reflexivity].
Qed.

(** The comparison [evflush] sorts by is one [slices.SortFunc] accepts, a
    strict weak ordering: it is antisymmetric and transitive, and so is
    comparing equal.  It compares the times of two events that are both
    significant, or both not, and puts a significant event before any
    other event whose time is less than 1000 samples earlier. *)
Theorem evt_cmp_order (signif : Z) (a b c : evt) :
  let sig := fun e => (Z.land (flag e) signif >? 0)%Z in
  evt_cmp signif a b = (- evt_cmp signif b a)%Z /\
  ((evt_cmp signif a b <= 0)%Z -> (evt_cmp signif b c <= 0)%Z ->
   (evt_cmp signif a c <= 0)%Z) /\
  (evt_cmp signif a b = 0%Z -> evt_cmp signif b c = 0%Z ->
   evt_cmp signif a c = 0%Z) /\
  (sig a = sig b ->
   evt_cmp signif a b
   = if Go.ltb (tim a) (tim b) then (-1)%Z
     else if Go.ltb (tim b) (tim a) then 1%Z else 0%Z) /\
  (sig a = true -> sig b = false -> tim a < tim b + 1000 ->
   evt_cmp signif a b = (-1)%Z).
Proof.
  intros sig.
  pose proof (evt_cmp_cases signif a b) as Hab.
  pose proof (evt_cmp_cases signif b a) as Hba.
  pose proof (evt_cmp_cases signif b c) as Hbc.
  pose proof (evt_cmp_cases signif a c) as Hac.
  split; [| split; [| split; [| split]]].
  - destruct Hab as [[Ha ->] | [[Ha ->] | [Ha ->]]];
    destruct Hba as [[Hb ->] | [[Hb ->] | [Hb ->]]];
      try reflexivity; lra.
  - destruct Hab as [[Ha ->] | [[Ha ->] | [Ha ->]]];
    destruct Hbc as [[Hb ->] | [[Hb ->] | [Hb ->]]];
    destruct Hac as [[Hc ->] | [[Hc ->] | [Hc ->]]];
      intros; try lia; lra.
  - destruct Hab as [[Ha ->] | [[Ha ->] | [Ha ->]]];
    destruct Hbc as [[Hb ->] | [[Hb ->] | [Hb ->]]];
    destruct Hac as [[Hc ->] | [[Hc ->] | [Hc ->]]];
      intros; try reflexivity; try lia; lra.
  - intros Hsame. unfold evt_cmp, sort_key. cbv zeta.
    fold (sig a) (sig b). rewrite Hsame.
    destruct (sig b);
      destruct (Go.ltb (tim a) (tim b)) eqn:H1;
      destruct (Go.ltb (tim b) (tim a)) eqn:H2;
      try (apply ltb_true in H1); try (apply ltb_false in H1);
      try (apply ltb_true in H2); try (apply ltb_false in H2);
      repeat match goal with
        | |- context [Go.ltb ?x ?y] =>
            let H := fresh in
            destruct (Go.ltb x y) eqn:H;
            [apply ltb_true in H | apply ltb_false in H]
        end;
      try reflexivity; lra.
  - intros Hsa Hsb Ht.
    destruct Hab as [[Ha ->] | [[Ha Hz] | [Ha Hz]]]; [reflexivity | |];
      exfalso; unfold sort_key in Ha; fold (sig a) (sig b) in Ha;
      rewrite Hsa, Hsb in Ha; lra.
Qed.

(** ** The medium scan always finds its minimum *)

Lemma sin_turns (x : R) (k : Z) : sin (x + IZR k * pipi) = sin x.
Proof.
  destruct (Z_le_gt_dec 0 k) as [Hk | Hk].
  - rewrite <- (sin_period x (Z.to_nat k)). f_equal.
    rewrite INR_IZR_INZ, Z2Nat.id by lia. unfold pipi; ring.
  - rewrite <- (sin_period (x + IZR k * pipi) (Z.to_nat (- k))). f_equal.
    rewrite INR_IZR_INZ, Z2Nat.id, opp_IZR by lia. unfold pipi; ring.
Qed.

Lemma cos_turns (x : R) (k : Z) : cos (x + IZR k * pipi) = cos x.
Proof.
  destruct (Z_le_gt_dec 0 k) as [Hk | Hk].
  - rewrite <- (cos_period x (Z.to_nat k)). f_equal.
    rewrite INR_IZR_INZ, Z2Nat.id by lia. unfold pipi; ring.
  - rewrite <- (cos_period (x + IZR k * pipi) (Z.to_nat (- k))). f_equal.
    rewrite INR_IZR_INZ, Z2Nat.id, opp_IZR by lia. unfold pipi; ring.
Qed.

Lemma dist_same_place (p p' q q' : obj1) :
  same_place p' p -> same_place q' q -> dist p' q' = dist p q.
Proof.
  intros [[kp Hp] [mp Hdp]] [[kq Hq] [mq Hdq]]. unfold dist. cbv zeta.
  rewrite Hp, Hq, Hdp, Hdq.
  replace (ra p + IZR kp * pipi - (ra q + IZR kq * pipi))
    with (ra p - ra q + IZR (kp - kq) * pipi) by (rewrite minus_IZR; ring).
  rewrite !sin_turns, !cos_turns. reflexivity.
Qed.

Section Interpolant.

Variable norm : R -> R.
Hypothesis norm_turns : forall a, exists k : Z, norm a = a + IZR k * pipi.

(** The interpolant [set3pt] builds passes through its three samples, up
    to the whole turns the normaliser takes off the differences. *)
Lemma set3pt_through (p : samples) (i : nat) (oc : occt) :
  same_place (act (setpt (set3pt norm p i oc) 0)) (p i) /\
  same_place (act (setpt (set3pt norm p i oc) 1)) (p (i + 1)%nat) /\
  same_place (act (setpt (set3pt norm p i oc) 2)) (p (i + 2)%nat).
Proof.
  unfold same_place, setpt, set3pt. cbv zeta. cbn [act del0 del1 del2 ra decl2].
  destruct (norm_turns (ra (p (i + 1)%nat) - ra (p i))) as [k1 ->].
  destruct (norm_turns (ra (p i) + ra (p (i + 2)%nat)
                        - 2 * ra (p (i + 1)%nat))) as [k2 ->].
  destruct (norm_turns (decl2 (p (i + 1)%nat) - decl2 (p i))) as [m1 ->].
  destruct (norm_turns (decl2 (p i) + decl2 (p (i + 2)%nat)
                        - 2 * decl2 (p (i + 1)%nat))) as [m2 ->].
  repeat split.
  - exists 0%Z; ring.
  - exists 0%Z; ring.
  - exists k1; ring.
  - exists m1; ring.
  - exists (2 * k1 + k2)%Z. rewrite plus_IZR, mult_IZR. field.
  - exists (2 * m1 + m2)%Z. rewrite plus_IZR, mult_IZR. field.
Qed.

End Interpolant.

(** A finite sequence has a least value. *)
Lemma least_index (d : nat -> R) (n : nat) :
  exists j, (j <= n)%nat /\ forall k, (k <= n)%nat -> d j <= d k.
Proof.
  induction n as [| n (j & Hj & Hmin)].
  - exists 0%nat. split; [lia |]. intros k Hk. replace k with 0%nat by lia. lra.
  - destruct (Rle_dec (d j) (d (S n))) as [Hle | Hgt].
    + exists j. split; [lia |]. intros k Hk.
      destruct (Nat.eq_dec k (S n)) as [-> | Hne]; [exact Hle |].
      apply Hmin; lia.
    + exists (S n). split; [lia |]. intros k Hk.
      destruct (Nat.eq_dec k (S n)) as [-> | Hne]; [lra |].
      specialize (Hmin k ltac:(lia)). lra.
Qed.

(** A value that is at most the first and at most the last of a sequence,
    and is neither, shows that the sequence has a three-point minimum. *)
Lemma interior_minimum_between (d : nat -> R) (m n : nat) :
  (0 < m < n)%nat -> d m <= d 0%nat -> d m <= d n ->
  interior_minimum d (S n).
Proof.
  intros Hm H0 Hn.
  destruct (least_index d n) as (j & Hj & Hmin).
  assert (Hint : exists j', (0 < j' < n)%nat /\
                            forall k, (k <= n)%nat -> d j' <= d k).
  { destruct (Nat.eq_dec j 0) as [-> | Hj0].
    - exists m. split; [exact Hm |]. intros k Hk.
      specialize (Hmin k Hk). lra.
    - destruct (Nat.eq_dec j n) as [-> | Hjn].
      + exists m. split; [exact Hm |]. intros k Hk.
        specialize (Hmin k Hk). lra.
      + exists j. split; [lia | exact Hmin]. }
  destruct Hint as (j' & Hj' & Hmin').
  exists (S j'). split; [lia |]. unfold min_at.
  replace (S j' - 1)%nat with j' by lia.
  split; apply Hmin'; lia.
Qed.

Lemma coarse_some (p1 p2 : samples) (c : nat * R * R * R) :
  coarse p1 p2 = Some c ->
  exists i, (2 <= i <= 13)%nat /\
    min_at (fun k => dist (p1 k) (p2 k)) i /\
    c = (i, dist (p1 (i - 2)%nat) (p2 (i - 2)%nat),
         dist (p1 (i - 1)%nat) (p2 (i - 1)%nat), dist (p1 i) (p2 i)).
Proof.
  unfold coarse, len_point, npts. simpl Nat.sub. intros Hc.
  apply first_from_some in Hc as (i & Hi & Hat & _).
  exists i. split; [lia |].
  assert (Hm : min_at (fun k => dist (p1 k) (p2 k)) i).
  { destruct (Rle_dec (dist (p1 (i - 1)%nat) (p2 (i - 1)%nat))
                      (dist (p1 (i - 2)%nat) (p2 (i - 2)%nat))) as [H1 | H1];
    destruct (Rle_dec (dist (p1 (i - 1)%nat) (p2 (i - 1)%nat))
                      (dist (p1 i) (p2 i))) as [H2 | H2];
      try (split; assumption);
      rewrite coarse_at_none in Hat by (intros [? ?]; contradiction);
      discriminate. }
  split; [exact Hm |].
  rewrite coarse_at_some in Hat by exact Hm. congruence.
Qed.

Section MediumScan.

Variable G : Type.
Variable norm : R -> R.
Hypothesis norm_turns : forall a, exists k : Z, norm a = a + IZR k * pipi.
Variable unrep : R -> Z.

(** The separations the medium scan sees at its steps 0, 120 and 240 are
    those of the three samples around the coarse minimum. *)
Lemma medium_through (o1 o2 : obj2 G) (v : vars G) (i : nat) (d1 d2 d3 : R) :
  let m := medium_start G norm o1 o2 v (i, d1, d2, d3) in
  let D := seps (sc_occ1 m) (sc_occ2 m) 0 (1 / 120) in
  let d := fun k => dist (point o1 k) (point o2 k) in
  D 0%nat = d (i - 2)%nat /\
  D 120%nat = d (i - 2 + 1)%nat /\
  D 240%nat = d (i - 2 + 2)%nat.
Proof.
  intros m D d. unfold D, seps, separation, m, medium_start.
  cbn [sc_occ1 sc_occ2].
  replace (0 + INR 0 * (1 / 120)) with 0 by (simpl; lra).
  replace (0 + INR 120 * (1 / 120)) with 1
    by (rewrite INR_IZR_INZ; simpl Z.of_nat; lra).
  replace (0 + INR 240 * (1 / 120)) with 2
    by (rewrite INR_IZR_INZ; simpl Z.of_nat; lra).
  destruct (set3pt_through norm norm_turns (point o1) (i - 2) (occ1 v))
    as (Ha0 & Ha1 & Ha2).
  destruct (set3pt_through norm norm_turns (point o2) (i - 2) (occ2 v))
    as (Hb0 & Hb1 & Hb2).
  repeat split; apply dist_same_place; assumption.
Qed.

Lemma medium_ok (o1 o2 : obj2 G) (v : vars G) (c : nat * R * R * R) :
  coarse (point o1) (point o2) = Some c ->
  sc_ok (medium G norm unrep o1 o2 v c) = true.
Proof.
  intros Hc. apply coarse_some in Hc as (i & Hi & [Hm1 Hm2] & ->).
  apply medium_ok_iff.
  destruct (medium_through o1 o2 v i
              (dist (point o1 (i - 2)%nat) (point o2 (i - 2)%nat))
              (dist (point o1 (i - 1)%nat) (point o2 (i - 1)%nat))
              (dist (point o1 i) (point o2 i))) as (H0 & H1 & H2).
  cbv zeta in H0, H1, H2.
  replace (i - 2 + 1)%nat with (i - 1)%nat in H1 by lia.
  replace (i - 2 + 2)%nat with i in H2 by lia.
  apply (interior_minimum_between _ 120 240); [lia | |].
  - rewrite H0, H1. exact Hm1.
  - rewrite H1, H2. exact Hm2.
Qed.

Lemma occult_not_bad_1 (setime : R -> G -> G) (cur : G -> obj1) (day : R)
  (fuel : nat) (o1 o2 : obj2 G) (v : vars G) (err : option error)
  (v' : vars G) :
  occult G setime cur day norm unrep fuel o1 o2 v = Some (err, v') ->
  err <> Some bad_1.
Proof.
  intros Hocc.
  destruct (occult_cases G setime cur day norm unrep fuel o1 o2 v)
    as [[_ H] | (c & Hc & Hcases)].
  - rewrite H in Hocc. injection Hocc as <- _. discriminate.
  - pose proof (medium_ok o1 o2 v c Hc) as Hok. cbv zeta in Hcases.
    destruct Hcases as [[Hbad _] | [(_ & _ & H) | (_ & _ & Hfine)]].
    + rewrite Hbad in Hok; discriminate.
    + rewrite H in Hocc. injection Hocc as <- _. discriminate.
    + destruct Hfine as (fs & g & di & _ & Hcases). cbv zeta in Hcases.
      destruct Hcases as [[_ H] | [(_ & _ & H) | (_ & _ & H)]].
      * rewrite H in Hocc. injection Hocc as <- _. discriminate.
      * rewrite H in Hocc. injection Hocc as <- _. discriminate.
      * rewrite H in Hocc.
        destruct (contacts_result G fuel fs g di (occ_reset (occ v)))
          as [Hn | [v'' Hs]].
        -- rewrite Hn in Hocc; discriminate.
        -- rewrite Hs in Hocc. injection Hocc as <- _. discriminate.
Qed.

End MediumScan.

Lemma pinorm_turns (a : R) : exists k : Z, pinorm a = a + IZR k * pipi.
Proof. apply pinorm_bounds. Qed.

(** With [float64] read as the exact reals, [occult] does not return
    "bad 1" in either revision.  The interpolants of the medium scan pass
    through the three samples around the coarse minimum, up to whole
    turns, at its steps 0, 120 and 240, so the middle one of the 241
    separations it compares is at most the first and the last, and one of
    them is at most its two neighbours.  The error is left to the
    rounding of [x += dx] and of the differences. *)
Theorem occult_bad_1_unreachable (G : Type) (setime : R -> G -> G)
  (cur : G -> obj1) (day : R) (unrep : R -> Z) (fuel : nat)
  (o1 o2 : obj2 G) (v : vars G) :
  (forall c, coarse (point o1) (point o2) = Some c ->
     sc_ok (medium G pinorm unrep o1 o2 v c) = true /\
     sc_ok (medium G piNorm unrep o1 o2 v c) = true) /\
  (forall err v',
     occult G setime cur day pinorm unrep fuel o1 o2 v = Some (err, v') ->
     err <> Some bad_1) /\
  (forall err v',
     occult G setime cur day piNorm unrep fuel o1 o2 v = Some (err, v') ->
     err <> Some bad_1).
Proof.
  split; [| split].
  - intros c Hc. split.
    + apply (medium_ok G pinorm pinorm_turns); exact Hc.
    + apply (medium_ok G piNorm piNorm_turns); exact Hc.
  - intros err v'. apply (occult_not_bad_1 G pinorm pinorm_turns).
  - intros err v'. apply (occult_not_bad_1 G piNorm piNorm_turns).
Qed.

(** ** The contacts *)

Lemma add_int_succ (i : Z) :
  (Go.min_int <= i < Go.max_int)%Z -> Go.add_int i 1 = (i + 1)%Z.
Proof. intros Hi. apply wrap_id. lia. Qed.

Lemma sub_int_pred (i : Z) :
  (Go.min_int < i <= Go.max_int)%Z -> Go.sub_int i 1 = (i - 1)%Z.
Proof. intros Hi. apply wrap_id. lia. Qed.

Section ContactScans.

Variables (i1 : Z) (di dx d3 d4 : R).
Variables (oc1 oc2 : occt) (x1 : R).

(** The separations the two scans see, [k] steps after and before [x1],
    and the times they write at these steps. *)
Local Abbreviation after :=
  (fun k : nat => separation oc1 oc2 (x1 + INR k * (1 / 120))).
Local Abbreviation before :=
  (fun k : nat => separation oc1 oc2 (x1 - INR k * (1 / 120))).
Local Abbreviation time_after :=
  (fun k : nat => di + (IZR (i1 + Z.of_nat k) - 5 / 10) * dx).
Local Abbreviation time_before :=
  (fun k : nat => di + (IZR (i1 - Z.of_nat k) - 5 / 10) * dx).

(** The scan after the minimum from its step [k] on, as long as the index
    does not wrap around.  It has not returned after [fuel] iterations
    when the separation is within [d4] at all their steps; it returns at
    the first step [K >= 1] whose separation is beyond [d4], writes [t5]
    there, and has written [t4] at most at a step where the separation
    went beyond [d3]. *)
Lemma scan_after_run (fuel : nat) :
  forall (k : nat) (d2 : R) (o : obj3) (c1 c2 : occt),
    (Go.min_int <= i1)%Z ->
    (i1 + Z.of_nat k + Z.of_nat fuel <= Go.max_int)%Z ->
    same_curve c1 oc1 -> same_curve c2 oc2 ->
    ((1 <= k)%nat -> d2 = after (k - 1)%nat /\ d2 <= d4) ->
    after 0%nat <= d4 ->
    match scan_after i1 di dx d3 d4 fuel (i1 + Z.of_nat k)
                     (x1 + INR k * (1 / 120)) d2 o c1 c2 with
    | None =>
        forall j, (k <= j < k + fuel)%nat -> (1 <= j)%nat -> after j <= d4
    | Some (o', d2', c1', c2') =>
        exists K, (k <= K < k + fuel)%nat /\ (1 <= K)%nat /\ d4 < after K /\
          (forall j, (k <= j < K)%nat -> (1 <= j)%nat -> after j <= d4) /\
          d2' = after K /\ same_curve c1' oc1 /\ same_curve c2' oc2 /\
          t1 o' = t1 o /\ t2 o' = t2 o /\ t3 o' = t3 o /\
          t5 o' = time_after K /\
          (t4 o' = t4 o \/
           exists j, (k <= j <= K)%nat /\ (1 <= j)%nat /\
             t4 o' = time_after j /\ after (j - 1)%nat <= d3 < after j)
    end.
Proof.
  induction fuel as [| fuel IH]; intros k d2 o c1 c2 Hmin Hmax Hc1 Hc2 Hd2 H0.
  - cbn [scan_after]. intros; lia.
  - cbn [scan_after].
    assert (Hsep : dist (act (setpt c1 (x1 + INR k * (1 / 120))))
                        (act (setpt c2 (x1 + INR k * (1 / 120)))) = after k).
    { rewrite Hc1, Hc2. reflexivity. }
    rewrite Hsep.
    assert (Hnext : Go.add_int (i1 + Z.of_nat k) 1 = (i1 + Z.of_nat (S k))%Z).
    { rewrite add_int_succ by lia. lia. }
    assert (Hx : x1 + INR k * (1 / 120) + 1 / 120 = x1 + INR (S k) * (1 / 120)).
    { rewrite S_INR. lra. }
    assert (Hc1' : same_curve (setpt c1 (x1 + INR k * (1 / 120))) oc1).
    { intros y. rewrite setpt_setpt. apply Hc1. }
    assert (Hc2' : same_curve (setpt c2 (x1 + INR k * (1 / 120))) oc2).
    { intros y. rewrite setpt_setpt. apply Hc2. }
    rewrite Hnext, Hx.
    destruct (Nat.eq_dec k 0) as [-> | Hk].
    + (* the first iteration, at [i1]: no test *)
      replace (i1 + Z.of_nat 0 =? i1)%Z with true by (symmetry; apply Z.eqb_eq; lia).
      cbn [negb].
      specialize (IH 1%nat (after 0%nat) o _ _ Hmin ltac:(lia) Hc1' Hc2').
      destruct (scan_after _ _ _ _ _ _ _ _ _ _ _ _) as [[[[o' d2'] c1'] c2'] |].
      * destruct IH as (K & HK & HK1 & Hgt & Hle & Hrest);
          [intros _; split; [reflexivity | exact H0] | exact H0 |].
        exists K. split; [lia |]. split; [exact HK1 |]. split; [exact Hgt |].
        split; [intros j Hj Hj1; apply Hle; lia |].
        destruct Hrest as (? & ? & ? & ? & ? & ? & ? & Ht4).
        repeat match goal with |- _ /\ _ => split end; try assumption.
        destruct Ht4 as [Ht4 | (j & Hj & Hj1 & Ht4 & Hcross)];
          [left; exact Ht4 | right; exists j].
        repeat match goal with |- _ /\ _ => split end; try assumption; try lia;
          apply Hcross.
      * intros j Hj Hj1. apply IH; try lia.
        -- intros _; split; [reflexivity | exact H0].
        -- exact H0.
    + replace (i1 + Z.of_nat k =? i1)%Z with false by (symmetry; apply Z.eqb_neq; lia).
      cbn [negb].
      destruct (Hd2 ltac:(lia)) as [Hd2eq Hd2le].
      destruct (Go.gtb (after k) d4) eqn:Hbreak.
      * apply gtb_true in Hbreak.
        assert (Hle : Go.leb d2 d4 = true) by (apply leb_true; exact Hd2le).
        rewrite Hle.
        exists k. split; [lia |]. split; [lia |]. split; [lra |].
        split; [intros; lia |]. split; [reflexivity |].
        split; [exact Hc1' |]. split; [exact Hc2' |].
        destruct (Go.leb d2 d3 && Go.gtb (after k) d3) eqn:Hcross.
        -- apply andb_prop in Hcross as [Ha Hb].
           apply leb_true in Ha. apply gtb_true in Hb.
           cbn [with_c4 with_c5 t1 t2 t3 t4 t5].
           repeat match goal with |- _ /\ _ => split end; try reflexivity.
           right. exists k. rewrite <- Hd2eq.
           repeat match goal with |- _ /\ _ => split end;
             try reflexivity; try lia; lra.
        -- cbn [with_c4 with_c5 t1 t2 t3 t4 t5].
           repeat match goal with |- _ /\ _ => split end; try reflexivity.
           left; reflexivity.
      * apply gtb_false in Hbreak.
        set (o4 := if Go.leb d2 d3 && Go.gtb (after k) d3
                   then with_c4 o (di + (Go.float64 (i1 + Z.of_nat k) - 5 / 10) * dx)
                                (el (act (setpt c1 (x1 + INR k * (1 / 120)))))
                   else o).
        specialize (IH (S k) (after k) o4 _ _ Hmin ltac:(lia) Hc1' Hc2').
        assert (Ho4 : t1 o4 = t1 o /\ t2 o4 = t2 o /\ t3 o4 = t3 o /\
                      (t4 o4 = t4 o \/
                       t4 o4 = time_after k /\ after (k - 1)%nat <= d3 < after k)).
        { unfold o4.
          destruct (Go.leb d2 d3 && Go.gtb (after k) d3) eqn:Hcross.
          - apply andb_prop in Hcross as [Ha Hb].
            apply leb_true in Ha. apply gtb_true in Hb.
            cbn [with_c4 t1 t2 t3 t4]. repeat split; try reflexivity.
            right. rewrite <- Hd2eq. repeat split; try reflexivity; lra.
          - repeat split; try reflexivity. left; reflexivity. }
        destruct Ho4 as (Ho1 & Ho2 & Ho3 & Ho4).
        destruct (scan_after _ _ _ _ _ _ _ _ _ _ _ _) as [[[[o' d2'] c1'] c2'] |].
        -- destruct IH as (K & HK & HK1 & Hgt & Hle & Hrest).
           { intros _. replace (S k - 1)%nat with k by lia.
             split; [reflexivity | exact Hbreak]. }
           { exact H0. }
           exists K. split; [lia |]. split; [exact HK1 |]. split; [exact Hgt |].
           split.
           { intros j Hj Hj1. destruct (Nat.eq_dec j k) as [-> | Hne];
               [exact Hbreak | apply Hle; lia]. }
           destruct Hrest as (? & ? & ? & Hr1 & Hr2 & Hr3 & Hr5 & Ht4).
           rewrite Hr1, Hr2, Hr3.
           repeat match goal with |- _ /\ _ => split end; try assumption.
           destruct Ht4 as [Ht4 | (j & Hj & Hj1 & Ht4 & Hcross)].
           ++ rewrite Ht4. destruct Ho4 as [Ho4 | [Ho4 Hcross]];
                [left; exact Ho4 | right; exists k].
              repeat match goal with |- _ /\ _ => split end;
                try assumption; try lia; apply Hcross.
           ++ right; exists j.
              repeat match goal with |- _ /\ _ => split end;
                try assumption; try lia; apply Hcross.
        -- intros j Hj Hj1. destruct (Nat.eq_dec j k) as [-> | Hne];
             [exact Hbreak |].
           apply IH; try lia.
           ++ intros _. replace (S k - 1)%nat with k by lia.
              split; [reflexivity | exact Hbreak].
           ++ exact H0.
Qed.

(** The scan before the minimum: the same, with the index and the
    abscissa going down, [t1] for [t5] and [t2] for [t4]. *)
Lemma scan_before_run (fuel : nat) :
  forall (k : nat) (d2 : R) (o : obj3) (c1 c2 : occt),
    (i1 <= Go.max_int)%Z ->
    (Go.min_int <= i1 - Z.of_nat k - Z.of_nat fuel)%Z ->
    same_curve c1 oc1 -> same_curve c2 oc2 ->
    ((1 <= k)%nat -> d2 = before (k - 1)%nat /\ d2 <= d4) ->
    before 0%nat <= d4 ->
    match scan_before i1 di dx d3 d4 fuel (i1 - Z.of_nat k)
                     (x1 - INR k * (1 / 120)) d2 o c1 c2 with
    | None =>
        forall j, (k <= j < k + fuel)%nat -> (1 <= j)%nat -> before j <= d4
    | Some (o', d2', c1', c2') =>
        exists K, (k <= K < k + fuel)%nat /\ (1 <= K)%nat /\ d4 < before K /\
          (forall j, (k <= j < K)%nat -> (1 <= j)%nat -> before j <= d4) /\
          d2' = before K /\ same_curve c1' oc1 /\ same_curve c2' oc2 /\
          t5 o' = t5 o /\ t4 o' = t4 o /\ t3 o' = t3 o /\
          t1 o' = time_before K /\
          (t2 o' = t2 o \/
           exists j, (k <= j <= K)%nat /\ (1 <= j)%nat /\
             t2 o' = time_before j /\ before (j - 1)%nat <= d3 < before j)
    end.
Proof.
  induction fuel as [| fuel IH]; intros k d2 o c1 c2 Hmin Hmax Hc1 Hc2 Hd2 H0.
  - cbn [scan_before]. intros; lia.
  - cbn [scan_before].
    assert (Hsep : dist (act (setpt c1 (x1 - INR k * (1 / 120))))
                        (act (setpt c2 (x1 - INR k * (1 / 120)))) = before k).
    { rewrite Hc1, Hc2. reflexivity. }
    rewrite Hsep.
    assert (Hnext : Go.sub_int (i1 - Z.of_nat k) 1 = (i1 - Z.of_nat (S k))%Z).
    { rewrite sub_int_pred by lia. lia. }
    assert (Hx : x1 - INR k * (1 / 120) - 1 / 120 = x1 - INR (S k) * (1 / 120)).
    { rewrite S_INR. lra. }
    assert (Hc1' : same_curve (setpt c1 (x1 - INR k * (1 / 120))) oc1).
    { intros y. rewrite setpt_setpt. apply Hc1. }
    assert (Hc2' : same_curve (setpt c2 (x1 - INR k * (1 / 120))) oc2).
    { intros y. rewrite setpt_setpt. apply Hc2. }
    rewrite Hnext, Hx.
    destruct (Nat.eq_dec k 0) as [-> | Hk].
    + (* the first iteration, at [i1]: no test *)
      replace (i1 - Z.of_nat 0 =? i1)%Z with true by (symmetry; apply Z.eqb_eq; lia).
      cbn [negb].
      specialize (IH 1%nat (before 0%nat) o _ _ Hmin ltac:(lia) Hc1' Hc2').
      destruct (scan_before _ _ _ _ _ _ _ _ _ _ _ _) as [[[[o' d2'] c1'] c2'] |].
      * destruct IH as (K & HK & HK1 & Hgt & Hle & Hrest);
          [intros _; split; [reflexivity | exact H0] | exact H0 |].
        exists K. split; [lia |]. split; [exact HK1 |]. split; [exact Hgt |].
        split; [intros j Hj Hj1; apply Hle; lia |].
        destruct Hrest as (? & ? & ? & ? & ? & ? & ? & Ht4).
        repeat match goal with |- _ /\ _ => split end; try assumption.
        destruct Ht4 as [Ht4 | (j & Hj & Hj1 & Ht4 & Hcross)];
          [left; exact Ht4 | right; exists j].
        repeat match goal with |- _ /\ _ => split end; try assumption; try lia;
          apply Hcross.
      * intros j Hj Hj1. apply IH; try lia.
        -- intros _; split; [reflexivity | exact H0].
        -- exact H0.
    + replace (i1 - Z.of_nat k =? i1)%Z with false by (symmetry; apply Z.eqb_neq; lia).
      cbn [negb].
      destruct (Hd2 ltac:(lia)) as [Hd2eq Hd2le].
      destruct (Go.gtb (before k) d4) eqn:Hbreak.
      * apply gtb_true in Hbreak.
        assert (Hle : Go.leb d2 d4 = true) by (apply leb_true; exact Hd2le).
        rewrite Hle.
        exists k. split; [lia |]. split; [lia |]. split; [lra |].
        split; [intros; lia |]. split; [reflexivity |].
        split; [exact Hc1' |]. split; [exact Hc2' |].
        destruct (Go.leb d2 d3 && Go.gtb (before k) d3) eqn:Hcross.
        -- apply andb_prop in Hcross as [Ha Hb].
           apply leb_true in Ha. apply gtb_true in Hb.
           cbn [with_c2 with_c1 t5 t4 t3 t2 t1].
           repeat match goal with |- _ /\ _ => split end; try reflexivity.
           right. exists k. rewrite <- Hd2eq.
           repeat match goal with |- _ /\ _ => split end;
             try reflexivity; try lia; lra.
        -- cbn [with_c2 with_c1 t5 t4 t3 t2 t1].
           repeat match goal with |- _ /\ _ => split end; try reflexivity.
           left; reflexivity.
      * apply gtb_false in Hbreak.
        set (o4 := if Go.leb d2 d3 && Go.gtb (before k) d3
                   then with_c2 o (di + (Go.float64 (i1 - Z.of_nat k) - 5 / 10) * dx)
                                (el (act (setpt c1 (x1 - INR k * (1 / 120)))))
                   else o).
        specialize (IH (S k) (before k) o4 _ _ Hmin ltac:(lia) Hc1' Hc2').
        assert (Ho4 : t5 o4 = t5 o /\ t4 o4 = t4 o /\ t3 o4 = t3 o /\
                      (t2 o4 = t2 o \/
                       t2 o4 = time_before k /\ before (k - 1)%nat <= d3 < before k)).
        { unfold o4.
          destruct (Go.leb d2 d3 && Go.gtb (before k) d3) eqn:Hcross.
          - apply andb_prop in Hcross as [Ha Hb].
            apply leb_true in Ha. apply gtb_true in Hb.
            cbn [with_c2 t5 t4 t3 t2]. repeat split; try reflexivity.
            right. rewrite <- Hd2eq. repeat split; try reflexivity; lra.
          - repeat split; try reflexivity. left; reflexivity. }
        destruct Ho4 as (Ho1 & Ho2 & Ho3 & Ho4).
        destruct (scan_before _ _ _ _ _ _ _ _ _ _ _ _) as [[[[o' d2'] c1'] c2'] |].
        -- destruct IH as (K & HK & HK1 & Hgt & Hle & Hrest).
           { intros _. replace (S k - 1)%nat with k by lia.
             split; [reflexivity | exact Hbreak]. }
           { exact H0. }
           exists K. split; [lia |]. split; [exact HK1 |]. split; [exact Hgt |].
           split.
           { intros j Hj Hj1. destruct (Nat.eq_dec j k) as [-> | Hne];
               [exact Hbreak | apply Hle; lia]. }
           destruct Hrest as (? & ? & ? & Hr1 & Hr2 & Hr3 & Hr5 & Ht4).
           rewrite Hr1, Hr2, Hr3.
           repeat match goal with |- _ /\ _ => split end; try assumption.
           destruct Ht4 as [Ht4 | (j & Hj & Hj1 & Ht4 & Hcross)].
           ++ rewrite Ht4. destruct Ho4 as [Ho4 | [Ho4 Hcross]];
                [left; exact Ho4 | right; exists k].
              repeat match goal with |- _ /\ _ => split end;
                try assumption; try lia; apply Hcross.
           ++ right; exists j.
              repeat match goal with |- _ /\ _ => split end;
                try assumption; try lia; apply Hcross.
        -- intros j Hj Hj1. destruct (Nat.eq_dec j k) as [-> | Hne];
             [exact Hbreak |].
           apply IH; try lia.
           ++ intros _. replace (S k - 1)%nat with k by lia.
              split; [reflexivity | exact Hbreak].
           ++ exact H0.
Qed.


End ContactScans.

Lemma fine_dx : 2 / (2880 * per / INR npts) / 60 = 1 / 7200.
Proof. rewrite medium_dx. field. Qed.

(** What [contacts] leaves, for a fine scan that ended at the index [kf]
    with the separation [d2 <= d4] at its minimum. *)
Lemma contacts_times (G : Type) (fuel : nat) (fs : scan) (g : G) (di : R)
  (o : obj3) (err : option error) (v' : vars G) :
  let d4 := semi2 (act (sc_occ1 fs)) + semi2 (act (sc_occ2 fs)) in
  let tmin := di + IZR (sc_i fs - 1) * (1 / 7200) in
  (Z.of_nat fuel <= 2 ^ 62)%Z ->
  (1 <= sc_i fs <= 241)%Z ->
  separation (sc_occ1 fs) (sc_occ2 fs) (sc_x fs - 1 / 120) <= d4 ->
  contacts G fuel fs g di o = Some (err, v') ->
  err = None /\ t3 (occ v') = tmin /\
  exists k1 k5 : nat, (1 <= k1 < fuel)%nat /\ (1 <= k5 < fuel)%nat /\
    t1 (occ v') = tmin - (INR k1 + 1 / 2) / 7200 /\
    t5 (occ v') = tmin + (INR k5 - 1 / 2) / 7200 /\
    (t2 (occ v') = t2 o \/
     exists k2, (1 <= k2 <= k1)%nat /\
       t2 (occ v') = tmin - (INR k2 + 1 / 2) / 7200) /\
    (t4 (occ v') = t4 o \/
     exists k4, (1 <= k4 <= k5)%nat /\
       t4 (occ v') = tmin + (INR k4 - 1 / 2) / 7200).
Proof.
  intros d4 tmin Hfuel Hi H0. unfold contacts. cbv zeta. rewrite fine_dx.
  rewrite sub_int_pred by (unfold Go.min_int, Go.max_int; lia).
  set (i1 := (sc_i fs - 1)%Z). set (x1 := sc_x fs - 1 / 120).
  set (d3 := if Go.ltb (semi2 (act (sc_occ1 fs)) - semi2 (act (sc_occ2 fs))) 0
             then - (semi2 (act (sc_occ1 fs)) - semi2 (act (sc_occ2 fs)))
             else semi2 (act (sc_occ1 fs)) - semi2 (act (sc_occ2 fs))).
  fold d4.
  set (o3 := with_c3 o (di + Go.float64 i1 * (1 / 7200))
                     (el (act (sc_occ1 fs)))).
  assert (Hx0 : x1 + INR 0 * (1 / 120) = x1) by (simpl; lra).
  assert (Hx0' : x1 - INR 0 * (1 / 120) = x1) by (simpl; lra).
  pose proof (scan_after_run i1 di (1 / 7200) d3 d4 (sc_occ1 fs) (sc_occ2 fs)
                x1 fuel 0 (sc_d2 fs) o3 (sc_occ1 fs) (sc_occ2 fs)) as Hafter.
  cbv beta in Hafter. rewrite !Hx0 in Hafter.
  replace (i1 + Z.of_nat 0)%Z with i1 in Hafter by lia.
  specialize (Hafter ltac:(unfold Go.min_int; lia)
                     ltac:(unfold Go.max_int; lia)
                     ltac:(intros y; reflexivity) ltac:(intros y; reflexivity)
                     ltac:(intros; lia) H0).
  destruct (scan_after _ _ _ _ _ _ _ _ _ _ _ _) as [[[[oa d2a] c1a] c2a] |];
    cbn [bind]; [| discriminate].
  destruct Hafter as (K5 & HK5 & HK5' & _ & _ & _ & Hc1 & Hc2 &
                      Ha1 & Ha2 & Ha3 & Ha5 & Ha4).
  pose proof (scan_before_run i1 di (1 / 7200) d3 d4 (sc_occ1 fs) (sc_occ2 fs)
                x1 fuel 0 d2a oa c1a c2a) as Hbefore.
  cbv beta in Hbefore. rewrite !Hx0' in Hbefore.
  replace (i1 - Z.of_nat 0)%Z with i1 in Hbefore by lia.
  specialize (Hbefore ltac:(unfold Go.max_int; lia)
                      ltac:(unfold Go.min_int; lia)
                      Hc1 Hc2 ltac:(intros; lia) H0).
  destruct (scan_before _ _ _ _ _ _ _ _ _ _ _ _) as [[[[ob d2b] c1b] c2b] |];
    cbn [bind]; [| discriminate].
  destruct Hbefore as (K1 & HK1 & HK1' & _ & _ & _ & _ & _ &
                       Hb5 & Hb4 & Hb3 & Hb1 & Hb2).
  intros Hret. injection Hret as <- <-. cbn [occ].
  assert (Ht3 : t3 ob = tmin).
  { rewrite Hb3, Ha3. reflexivity. }
  assert (Hafter_time : forall k : nat,
    di + (IZR (i1 + Z.of_nat k) - 5 / 10) * (1 / 7200)
    = tmin + (INR k - 1 / 2) / 7200).
  { intros k. unfold tmin. fold i1. rewrite plus_IZR, <- INR_IZR_INZ. field. }
  assert (Hbefore_time : forall k : nat,
    di + (IZR (i1 - Z.of_nat k) - 5 / 10) * (1 / 7200)
    = tmin - (INR k + 1 / 2) / 7200).
  { intros k. unfold tmin. fold i1. rewrite minus_IZR, <- INR_IZR_INZ. field. }
  split; [reflexivity |]. split; [exact Ht3 |].
  exists K1, K5. split; [lia |]. split; [lia |].
  split; [rewrite Hb1; apply Hbefore_time |].
  split; [rewrite Hb5, Ha5; apply Hafter_time |].
  split.
  - destruct Hb2 as [Hb2 | (j & Hj & Hj1 & Hb2 & _)].
    + left. rewrite Hb2, Ha2. reflexivity.
    + right. exists j. split; [lia |]. rewrite Hb2. apply Hbefore_time.
  - rewrite Hb4.
    destruct Ha4 as [Ha4 | (j & Hj & Hj1 & Ha4 & _)].
    + left. rewrite Ha4. reflexivity.
    + right. exists j. split; [lia |]. rewrite Ha4. apply Hafter_time.
Qed.

(** [contacts] is still in one of its two loops after [fuel] iterations
    exactly when the separation has stayed within [d4] for all the steps
    after the minimum, or for all the steps before it. *)
Lemma contacts_none_iff (G : Type) (fuel : nat) (fs : scan) (g : G) (di : R)
  (o : obj3) :
  let d4 := semi2 (act (sc_occ1 fs)) + semi2 (act (sc_occ2 fs)) in
  let x1 := sc_x fs - 1 / 120 in
  (Z.of_nat fuel <= 2 ^ 62)%Z ->
  (1 <= sc_i fs <= 241)%Z ->
  separation (sc_occ1 fs) (sc_occ2 fs) x1 <= d4 ->
  (contacts G fuel fs g di o = None <->
   (forall K, (1 <= K < fuel)%nat ->
      separation (sc_occ1 fs) (sc_occ2 fs) (x1 + INR K * (1 / 120)) <= d4) \/
   (forall K, (1 <= K < fuel)%nat ->
      separation (sc_occ1 fs) (sc_occ2 fs) (x1 - INR K * (1 / 120)) <= d4)).
Proof.
  intros d4 x1 Hfuel Hi H0. unfold contacts. cbv zeta. rewrite fine_dx.
  rewrite sub_int_pred by (unfold Go.min_int, Go.max_int; lia).
  set (i1 := (sc_i fs - 1)%Z). fold x1.
  set (d3 := if Go.ltb (semi2 (act (sc_occ1 fs)) - semi2 (act (sc_occ2 fs))) 0
             then - (semi2 (act (sc_occ1 fs)) - semi2 (act (sc_occ2 fs)))
             else semi2 (act (sc_occ1 fs)) - semi2 (act (sc_occ2 fs))).
  fold d4.
  set (o3 := with_c3 o (di + Go.float64 i1 * (1 / 7200))
                     (el (act (sc_occ1 fs)))).
  assert (Hx0 : x1 + INR 0 * (1 / 120) = x1) by (simpl; lra).
  assert (Hx0' : x1 - INR 0 * (1 / 120) = x1) by (simpl; lra).
  pose proof (scan_after_run i1 di (1 / 7200) d3 d4 (sc_occ1 fs) (sc_occ2 fs)
                x1 fuel 0 (sc_d2 fs) o3 (sc_occ1 fs) (sc_occ2 fs)) as Hafter.
  cbv beta in Hafter. rewrite !Hx0 in Hafter.
  replace (i1 + Z.of_nat 0)%Z with i1 in Hafter by lia.
  specialize (Hafter ltac:(unfold Go.min_int; lia)
                     ltac:(unfold Go.max_int; lia)
                     ltac:(intros y; reflexivity) ltac:(intros y; reflexivity)
                     ltac:(intros; lia) H0).
  destruct (scan_after _ _ _ _ _ _ _ _ _ _ _ _) as [[[[oa d2a] c1a] c2a] |];
    cbn [bind].
  - destruct Hafter as (K5 & HK5 & HK5' & Hgt5 & _ & _ & Hc1 & Hc2 & _).
    pose proof (scan_before_run i1 di (1 / 7200) d3 d4 (sc_occ1 fs)
                  (sc_occ2 fs) x1 fuel 0 d2a oa c1a c2a) as Hbefore.
    cbv beta in Hbefore. rewrite !Hx0' in Hbefore.
    replace (i1 - Z.of_nat 0)%Z with i1 in Hbefore by lia.
    specialize (Hbefore ltac:(unfold Go.max_int; lia)
                        ltac:(unfold Go.min_int; lia)
                        Hc1 Hc2 ltac:(intros; lia) H0).
    destruct (scan_before _ _ _ _ _ _ _ _ _ _ _ _) as [[[[ob d2b] c1b] c2b] |];
      cbn [bind].
    + destruct Hbefore as (K1 & HK1 & HK1' & Hgt1 & _).
      split; [discriminate |].
      intros [Hall | Hall]; exfalso.
      * specialize (Hall K5 ltac:(lia)). lra.
      * specialize (Hall K1 ltac:(lia)). lra.
    + split; [| reflexivity]. intros _. right.
      intros K HK. apply Hbefore; lia.
  - split; [| reflexivity]. intros _. left.
    intros K HK. apply Hafter; lia.
Qed.

(** Where a scan that found its minimum stopped. *)
Lemma minscan_found (oc1 oc2 : occt) (x0 step : R) (n : nat) (st : scan) :
  scan_inv oc1 oc2 x0 step 0 st ->
  sc_ok (minscan n 0 step st) = true ->
  exists k, (2 <= k < n)%nat /\
    let r := minscan n 0 step st in
    sc_i r = Z.of_nat k /\ sc_x r = x0 + INR k * step /\
    sc_d2 r = seps oc1 oc2 x0 step (k - 1) /\
    sc_occ1 r = setpt oc1 (sc_x r) /\ sc_occ2 r = setpt oc2 (sc_x r).
Proof.
  intros Hinv Hok.
  destruct (minscan_spec oc1 oc2 x0 step n 0 st Hinv)
    as [[Hf _] | (k & Hk & Hk2 & _ & _ & Hr)]; simpl Z.of_nat in *.
  - rewrite Hf in Hok; discriminate.
  - exists k. split; [lia |]. cbv zeta in *. tauto.
Qed.

Section OccultContacts.

Variable G : Type.
Variable setime : R -> G -> G.
Variable cur : G -> obj1.
Variable day : R.
Variable norm : R -> R.
Variable unrep : R -> Z.

Lemma medium_found (o1 o2 : obj2 G) (v : vars G) (c : nat * R * R * R) :
  sc_ok (medium G norm unrep o1 o2 v c) = true ->
  exists k, (2 <= k < 241)%nat /\
    sc_x (medium G norm unrep o1 o2 v c) = INR k * (1 / 120).
Proof.
  unfold medium. rewrite medium_steps_eq, medium_dx. intros Hok.
  destruct (minscan_found _ _ 0 (1 / 120) 241 _
              (medium_start_inv G norm o1 o2 v c (1 / 120)) Hok)
    as (k & Hk & Hr).
  exists k. split; [exact Hk |]. cbv zeta in Hr.
  destruct Hr as (_ & Hx & _). rewrite Hx. lra.
Qed.

Lemma fine_di (o1 o2 : obj2 G) (v : vars G) (i : nat) (d1 d2 d3 : R)
  (m : scan) :
  snd (fine G setime cur day norm o1 o2 v (i, d1, d2, d3) m)
  = IZR (Z.of_nat (i - 2)) + (sc_x m - 3 * (1 / 120)).
Proof.
  unfold fine, fine_start. rewrite medium_dx.
  destruct (resample _ _ _ _ _ _ _ _ _ _ _ _ _ _) as [[xo1 xo2] g].
  reflexivity.
Qed.

Lemma fine_found (o1 o2 : obj2 G) (v : vars G) (c : nat * R * R * R)
  (m : scan) :
  let fs := fst (fst (fine G setime cur day norm o1 o2 v c m)) in
  sc_ok fs = true ->
  exists k, (2 <= k < 241)%nat /\ sc_i fs = Z.of_nat k /\
    separation (sc_occ1 fs) (sc_occ2 fs) (sc_x fs - 1 / 120) = sc_d2 fs.
Proof.
  intros fs. unfold fs. rewrite fine_fst. intros Hok.
  destruct (minscan_found _ _ 0 (1 / 120) 241 _
              (fine_start_inv G setime cur day norm o1 o2 v c m (1 / 120))
              Hok) as (k & Hk & Hr).
  exists k. split; [exact Hk |]. cbv zeta in Hr.
  destruct Hr as (Hi & Hx & Hd2 & Ho1 & Ho2).
  split; [exact Hi |].
  rewrite Hd2, Ho1, Ho2. unfold seps, separation.
  rewrite !setpt_setpt. rewrite Hx.
  replace (0 + INR k * (1 / 120) - 1 / 120)
    with (0 + INR (k - 1) * (1 / 120)); [reflexivity |].
  rewrite minus_INR by lia. simpl INR. lra.
Qed.

(** When [occult] has found a minimum and run its contact scans, with
    fewer than 2^62 iterations each, the record it leaves has the time of
    the minimum, [t3], between -59/7200 and 13 + 59/7200; both outer
    contacts, [t1] and [t5], are set; and every contact is a whole number
    of steps of 1/7200 from [t3], less half a step after it and plus half
    a step before it: [t3 + (k - 1/2)/7200] for [t4 <= t5], and
    [t3 - (k + 1/2)/7200] for [t1 <= t2].  The inner contacts [t2] and
    [t4] are set or left at -100.  Otherwise the record is the reset one. *)
Theorem occult_contacts_times (fuel : nat) (o1 o2 : obj2 G) (v : vars G)
  (err : option error) (v' : vars G) :
  (Z.of_nat fuel <= 2 ^ 62)%Z ->
  occult G setime cur day norm unrep fuel o1 o2 v = Some (err, v') ->
  occ v' = occ_reset (occ v) \/
  (err = None /\
   - (59 / 7200) <= t3 (occ v') <= 13 + 59 / 7200 /\
   exists k1 k5 : nat, (1 <= k1 < fuel)%nat /\ (1 <= k5 < fuel)%nat /\
     t1 (occ v') = t3 (occ v') - (INR k1 + 1 / 2) / 7200 /\
     t5 (occ v') = t3 (occ v') + (INR k5 - 1 / 2) / 7200 /\
     (t2 (occ v') = -100 \/
      exists k2, (1 <= k2 <= k1)%nat /\
        t2 (occ v') = t3 (occ v') - (INR k2 + 1 / 2) / 7200) /\
     (t4 (occ v') = -100 \/
      exists k4, (1 <= k4 <= k5)%nat /\
        t4 (occ v') = t3 (occ v') + (INR k4 - 1 / 2) / 7200)).
Proof.
  intros Hfuel Hocc.
  destruct (occult_cases G setime cur day norm unrep fuel o1 o2 v)
    as [[_ H] | (c & Hc & Hcases)].
  { rewrite H in Hocc. injection Hocc as _ <-. left; reflexivity. }
  cbv zeta in Hcases.
  destruct Hcases as [[_ H] | [(_ & _ & H) | (Hm & _ & Hfine)]];
    try (rewrite H in Hocc; injection Hocc as _ <-; left; reflexivity).
  destruct Hfine as (fs & g & di & Hfine & Hcases). cbv zeta in Hcases.
  destruct Hcases as [[_ H] | [(_ & _ & H) | (Hfs & Hnear & H)]];
    try (rewrite H in Hocc; injection Hocc as _ <-; left; reflexivity).
  right. rewrite H in Hocc.
  apply coarse_some in Hc as (ic & Hic & _ & ->).
  set (c := (ic, dist (point o1 (ic - 2)%nat) (point o2 (ic - 2)%nat),
             dist (point o1 (ic - 1)%nat) (point o2 (ic - 1)%nat),
             dist (point o1 ic) (point o2 ic))) in *.
  set (m := medium G norm unrep o1 o2 v c) in *.
  destruct (medium_found o1 o2 v c Hm) as (km & Hkm & Hxm). fold m in Hxm.
  pose proof (fine_found o1 o2 v c m) as Hff.
  pose proof (fine_di o1 o2 v ic
                (dist (point o1 (ic - 2)%nat) (point o2 (ic - 2)%nat))
                (dist (point o1 (ic - 1)%nat) (point o2 (ic - 1)%nat))
                (dist (point o1 ic) (point o2 ic)) m) as Hdi.
  fold c in Hdi.
  rewrite Hfine in Hff, Hdi. cbn [fst snd] in Hff, Hdi.
  destruct (Hff Hfs) as (kf & Hkf & Hif & Hsep).
  destruct (contacts_times G fuel fs g di (occ_reset (occ v)) err v')
    as (Herr & Ht3 & k1 & k5 & Hk1 & Hk5 & Ht1 & Ht5 & Ht2 & Ht4);
    try assumption.
  { rewrite Hif; lia. }
  { rewrite Hsep; exact Hnear. }
  split; [exact Herr |].
  rewrite <- Ht3 in Ht1, Ht5, Ht2, Ht4.
  split.
  - rewrite Ht3, Hdi, Hxm, Hif.
    assert (Hic0 : 0 <= IZR (Z.of_nat (ic - 2)) <= 11).
    { split; [apply (IZR_le 0) | apply (IZR_le _ 11)]; lia. }
    assert (Hkm' : 2 <= INR km <= 240).
    { rewrite INR_IZR_INZ.
      split; [apply (IZR_le 2) | apply (IZR_le _ 240)]; lia. }
    assert (Hkf' : 1 <= IZR (Z.of_nat kf - 1) <= 239).
    { split; [apply (IZR_le 1) | apply (IZR_le _ 239)]; lia. }
    lra.
  - exists k1, k5. cbn [occ_reset t2 t4] in Ht2, Ht4.
    repeat match goal with |- _ /\ _ => split end; try assumption; lia.
Qed.

End OccultContacts.

Section OccultEnds.

Variable G : Type.
Variable setime : R -> G -> G.
Variable cur : G -> obj1.
Variable day : R.
Variable norm : R -> R.
Variable unrep : R -> Z.

(** A call of [occult] has not returned after [fuel] iterations of a
    contact scan exactly when the fine scan found a minimum within the sum
    [d4] of the semidiameters and the interpolated separation stays
    within [d4] for all the steps one of the two contact scans has made:
    the scans end when, and only when, the separation grows beyond [d4]
    on both sides of the minimum. *)
Theorem occult_ends (fuel : nat) (o1 o2 : obj2 G) (v : vars G) :
  (Z.of_nat fuel <= 2 ^ 62)%Z ->
  (occult G setime cur day norm unrep fuel o1 o2 v = None <->
   exists c, coarse (point o1) (point o2) = Some c /\
     let m := medium G norm unrep o1 o2 v c in
     let fs := fst (fst (fine G setime cur day norm o1 o2 v c m)) in
     let d4 := semi2 (act (sc_occ1 fs)) + semi2 (act (sc_occ2 fs)) in
     let x1 := sc_x fs - 1 / 120 in
     sc_ok m = true /\
     sc_d2 m <= semi2 (act (sc_occ1 m)) + semi2 (act (sc_occ2 m)) + 50 /\
     sc_ok fs = true /\ sc_d2 fs <= d4 /\
     ((forall K, (1 <= K < fuel)%nat ->
         separation (sc_occ1 fs) (sc_occ2 fs) (x1 + INR K * (1 / 120))
         <= d4) \/
      (forall K, (1 <= K < fuel)%nat ->
         separation (sc_occ1 fs) (sc_occ2 fs) (x1 - INR K * (1 / 120))
         <= d4))).
Proof.
  intros Hfuel.
  destruct (occult_cases G setime cur day norm unrep fuel o1 o2 v)
    as [[Hc H] | (c & Hc & Hcases)].
  { rewrite H. split; [discriminate |]. intros (c & Hc' & _); congruence. }
  cbv zeta in Hcases.
  match goal with |- _ <-> ?P => set (stuck := P) end.
  assert (Hother : forall r,
    occult G setime cur day norm unrep fuel o1 o2 v = Some r ->
    (let m := medium G norm unrep o1 o2 v c in
     let fs := fst (fst (fine G setime cur day norm o1 o2 v c m)) in
     sc_ok m = false \/
     sc_d2 m > semi2 (act (sc_occ1 m)) + semi2 (act (sc_occ2 m)) + 50 \/
     sc_ok fs = false \/
     sc_d2 fs > semi2 (act (sc_occ1 fs)) + semi2 (act (sc_occ2 fs))) ->
    occult G setime cur day norm unrep fuel o1 o2 v = None <-> stuck).
  { intros r Hr Hwhy. rewrite Hr. split; [discriminate |].
    cbv zeta in Hwhy.
    intros (c' & Hc' & Hm & Hfar & Hfs & Hnear & _). exfalso.
    assert (c' = c) by congruence. subst c'.
    destruct Hwhy as [Hw | [Hw | [Hw | Hw]]];
      try (rewrite Hw in *; discriminate); lra. }
  destruct Hcases as [[Hm H] | [(Hm & Hfar & H) | (Hm & Hfar & Hfine)]].
  { apply (Hother _ H). left; exact Hm. }
  { apply (Hother _ H). right; left; exact Hfar. }
  destruct Hfine as (fs & g & di & Hfine & Hcases). cbv zeta in Hcases.
  assert (Hfs_eq : fst (fst (fine G setime cur day norm o1 o2 v c
                     (medium G norm unrep o1 o2 v c))) = fs)
    by (rewrite Hfine; reflexivity).
  destruct Hcases as [[Hfs H] | [(Hfs & Hnear & H) | (Hfs & Hnear & H)]].
  { apply (Hother _ H). right; right; left. rewrite Hfs_eq; exact Hfs. }
  { apply (Hother _ H). right; right; right. rewrite Hfs_eq; exact Hnear. }
  rewrite H.
  pose proof (fine_found G setime cur day norm o1 o2 v c
                (medium G norm unrep o1 o2 v c)) as Hff.
  cbv zeta in Hff. rewrite Hfs_eq in Hff.
  destruct (Hff Hfs) as (kf & Hkf & Hif & Hsep).
  pose proof (contacts_none_iff G fuel fs g di (occ_reset (occ v))) as Hnone.
  cbv zeta in Hnone.
  specialize (Hnone Hfuel ltac:(rewrite Hif; lia)
                    ltac:(rewrite Hsep; exact Hnear)).
  rewrite Hnone. unfold stuck. split.
  - intros Hstay. exists c. split; [exact Hc |]. cbv zeta. rewrite Hfs_eq.
    repeat match goal with |- _ /\ _ => split end; assumption.
  - intros (c' & Hc' & Hrest). assert (c' = c) by congruence. subst c'.
    cbv zeta in Hrest. rewrite Hfs_eq in Hrest.
    destruct Hrest as (_ & _ & _ & _ & Hstay). exact Hstay.
Qed.

End OccultEnds.

(** ** A Moon that passes a star *)

Lemma dist_equator_abs (p q : obj1) :
  decl2 p = 0 -> decl2 q = 0 -> Rabs (ra p - ra q) < PI / 2 ->
  dist p q = Rabs (ra p - ra q) / radsec.
Proof.
  intros Hp Hq Ha. pose proof PI_RGT_0 as Hpi.
  pose proof (Rabs_pos (ra p - ra q)) as H0.
  unfold dist. cbv zeta. rewrite Hp, Hq, sin_0, cos_0.
  replace (0 * 0 + 1 * 1 * cos (ra p - ra q))
    with (cos (Rabs (ra p - ra q))).
  - rewrite pyth_cos by lra. rewrite Atan2_sin_cos by lra.
    rewrite Rabs_Rabsolu. reflexivity.
  - unfold Rabs. destruct (Rcase_abs (ra p - ra q)); [rewrite cos_neg |]; lra.
Qed.

Lemma on_equator_setpt (oc : occt) (a b s x : R) :
  on_equator oc a b s ->
  on_equator (setpt oc x) a b s /\
  ra (act (setpt oc x)) = a + x * b /\ decl2 (act (setpt oc x)) = 0 /\
  semi2 (act (setpt oc x)) = s.
Proof.
  intros ((H1 & H2 & H3) & (H4 & H5 & H6) & (H7 & H8 & H9)).
  unfold on_equator; simpl.
  rewrite H1, H2, H3, H4, H5, H6, H7, H8, H9.
  repeat split; lra.
Qed.

Lemma on_equator_separation (c1 c2 : occt) (a b s1 s2 x : R) :
  on_equator c1 a b s1 -> on_equator c2 0 0 s2 ->
  Rabs (a + x * b) < PI / 2 ->
  separation c1 c2 x = Rabs (a + x * b) / radsec.
Proof.
  intros H1 H2 Hx.
  destruct (on_equator_setpt c1 a b s1 x H1) as (_ & Hr1 & Hd1 & _).
  destruct (on_equator_setpt c2 0 0 s2 x H2) as (_ & Hr2 & Hd2 & _).
  unfold separation.
  rewrite dist_equator_abs; rewrite ?Hr1, ?Hr2; try assumption.
  - f_equal. f_equal. lra.
  - replace (a + x * b - (0 + x * 0)) with (a + x * b) by lra. exact Hx.
Qed.

(** A scan of separations that fall up to step [m] and do not fall at the
    next one stops at the step after it, with the separation of step [m]. *)
Lemma minscan_vee (oc1 oc2 : occt) (x0 step : R) (n m : nat) (st : scan) :
  scan_inv oc1 oc2 x0 step 0 st ->
  (1 <= m)%nat -> (m + 1 < n)%nat ->
  (forall j, (j < m)%nat ->
     seps oc1 oc2 x0 step (S j) < seps oc1 oc2 x0 step j) ->
  seps oc1 oc2 x0 step m <= seps oc1 oc2 x0 step (S m) ->
  let r := minscan n 0 step st in
  sc_ok r = true /\ sc_i r = Z.of_nat (S m) /\
  sc_x r = x0 + INR (S m) * step /\
  sc_d2 r = seps oc1 oc2 x0 step m /\
  sc_occ1 r = setpt oc1 (sc_x r) /\ sc_occ2 r = setpt oc2 (sc_x r).
Proof.
  intros Hinv Hm Hn Hfall Hturn.
  destruct (minscan_spec oc1 oc2 x0 step n 0 st Hinv)
    as [[_ Hnone] | (k & Hk & Hk2 & Hmin & Hfirst & Hr)]; simpl Z.of_nat in *.
  - exfalso. apply (Hnone (S m)); try lia. unfold min_at.
    replace (S m - 1)%nat with m by lia.
    split; [| exact Hturn].
    specialize (Hfall (m - 1)%nat ltac:(lia)).
    replace (S (m - 1)) with m in Hfall by lia.
    replace (S m - 2)%nat with (m - 1)%nat by lia. lra.
  - assert (Hkm : k = S m).
    { destruct (Nat.lt_trichotomy k (S m)) as [Hlt | [Heq | Hgt]];
        [| exact Heq |]; exfalso.
      - destruct Hmin as [_ Hmin].
        specialize (Hfall (k - 1)%nat ltac:(lia)).
        replace (S (k - 1)) with k in Hfall by lia. lra.
      - apply (Hfirst (S m)); try lia. unfold min_at.
        replace (S m - 1)%nat with m by lia.
        split; [| exact Hturn].
        specialize (Hfall (m - 1)%nat ltac:(lia)).
        replace (S (m - 1)) with m in Hfall by lia.
        replace (S m - 2)%nat with (m - 1)%nat by lia. lra. }
    subst k. cbv zeta in *.
    replace (S m - 1)%nat with m in Hr by lia. exact Hr.
Qed.

Lemma turn_rate : 7200 * radsec = PI / 90.
Proof. unfold radsec, radian. field. Qed.

Lemma passing_dist (t : R) :
  Rabs (t - 6) <= 7 -> dist (passing t) obj1_zero = Rabs (t - 6) * 7200.
Proof.
  intros Ht. pose proof PI_RGT_0 as Hpi. pose proof radsec_pos as Hr.
  pose proof PI_4 as Hpi4.
  assert (Hra : ra (passing t) - ra obj1_zero = (t - 6) * (7200 * radsec))
    by (simpl; lra).
  rewrite dist_equator_abs; try reflexivity; rewrite Hra.
  - rewrite Rabs_mult, (Rabs_pos_eq (7200 * radsec)) by lra. field. lra.
  - rewrite Rabs_mult, (Rabs_pos_eq (7200 * radsec)), turn_rate by lra.
    pose proof (Rabs_pos (t - 6)). nra.
Qed.

Lemma passing_sample (i : nat) :
  (i <= 13)%nat ->
  dist (point passing_moon i) (point equinox_star i)
  = Rabs (INR i - 6) * 7200.
Proof.
  intros Hi. cbn [point passing_moon equinox_star]. apply passing_dist.
  assert (H0 : 0 <= INR i) by apply pos_INR.
  assert (H13 : INR i <= INR 13) by (apply le_INR; exact Hi).
  replace (INR 13) with 13 in H13 by (simpl; lra).
  apply Rabs_le. lra.
Qed.

Ltac rabs := unfold Rabs; repeat destruct (Rcase_abs _); try lra.

Lemma passing_coarse :
  coarse (point passing_moon) (point equinox_star)
  = Some (7%nat, 7200, 0, 7200).
Proof.
  unfold coarse, len_point, npts. simpl Nat.sub.
  erewrite first_from_first with (i := 7%nat).
  - reflexivity.
  - lia.
  - intros j Hj. apply coarse_at_none. unfold min_at.
    rewrite !passing_sample by lia. intros [_ H].
    destruct j as [| [| [| [| [| [| [| j]]]]]]]; try lia;
      simpl in H; revert H; rabs.
  - rewrite coarse_at_some.
    + rewrite !passing_sample by lia. simpl.
      repeat f_equal; rabs.
    + unfold min_at. rewrite !passing_sample by lia. simpl. split; rabs.
Qed.

Lemma set3pt_passing (p : samples) (i : nat) (oc : occt) (t0 h : R) :
  p i = passing t0 -> p (i + 1)%nat = passing (t0 + h) ->
  p (i + 2)%nat = passing (t0 + 2 * h) -> 0 <= h <= 1 ->
  on_equator (set3pt pinorm p i oc)
             ((t0 - 6) * (7200 * radsec)) (h * (7200 * radsec)) 1.
Proof.
  intros H0 H1 H2 Hh. pose proof PI_RGT_0 as Hpi.
  unfold on_equator, set3pt. cbv zeta. rewrite H0, H1, H2.
  cbn [del0 del1 del2 ra decl2 semi2 passing].
  replace (0 - 0) with 0 by lra.
  replace (0 + 0 - 2 * 0) with 0 by lra.
  replace ((t0 + h - 6) * (7200 * radsec) - (t0 - 6) * (7200 * radsec))
    with (h * (7200 * radsec)) by ring.
  replace ((t0 - 6) * (7200 * radsec) + (t0 + 2 * h - 6) * (7200 * radsec)
           - 2 * ((t0 + h - 6) * (7200 * radsec))) with 0 by ring.
  rewrite pinorm_0, (pinorm_id (h * (7200 * radsec)))
    by (rewrite turn_rate; nra).
  repeat split; lra.
Qed.

Lemma set3pt_star (p : samples) (i : nat) (oc : occt) :
  p i = obj1_zero -> p (i + 1)%nat = obj1_zero ->
  p (i + 2)%nat = obj1_zero ->
  on_equator (set3pt pinorm p i oc) 0 0 0.
Proof.
  intros H0 H1 H2. unfold on_equator, set3pt. cbv zeta. rewrite H0, H1, H2.
  cbn [del0 del1 del2 ra decl2 semi2 obj1_zero].
  replace (0 - 0) with 0 by lra.
  replace (0 + 0 - 2 * 0) with 0 by lra.
  rewrite pinorm_0. repeat split; lra.
Qed.

(** The separations a scan sees when the Moon is [1 - x] times [w]
    seconds of arc from the star at [x]: they fall up to step 120, where
    they are 0. *)
Lemma passing_scan (c1 c2 : occt) (w : R) (n : nat) (st : scan) :
  0 < w <= 7200 ->
  on_equator c1 (- (w * radsec)) (w * radsec) 1 -> on_equator c2 0 0 0 ->
  scan_inv c1 c2 0 (1 / 120) 0 st ->
  (122 <= n)%nat ->
  let r := minscan n 0 (1 / 120) st in
  sc_ok r = true /\ sc_i r = 121%Z /\ sc_x r = 121 / 120 /\ sc_d2 r = 0 /\
  on_equator (sc_occ1 r) (- (w * radsec)) (w * radsec) 1 /\
  on_equator (sc_occ2 r) 0 0 0 /\
  semi2 (act (sc_occ1 r)) = 1 /\ semi2 (act (sc_occ2 r)) = 0 /\
  (forall x, Rabs (x - 1) <= 2 ->
     separation (sc_occ1 r) (sc_occ2 r) x = Rabs (x - 1) * w).
Proof.
  intros Hw H1 H2 Hinv Hn. pose proof PI_RGT_0 as Hpi.
  pose proof radsec_pos as Hr. pose proof turn_rate as Hturn.
  assert (Hsep : forall c1' c2' x,
    on_equator c1' (- (w * radsec)) (w * radsec) 1 ->
    on_equator c2' 0 0 0 -> Rabs (x - 1) <= 2 ->
    separation c1' c2' x = Rabs (x - 1) * w).
  { intros c1' c2' x H1' H2' Hx.
    rewrite (on_equator_separation c1' c2' _ _ 1 0 x H1' H2').
    - replace (- (w * radsec) + x * (w * radsec))
        with ((x - 1) * (w * radsec)) by ring.
      rewrite Rabs_mult, (Rabs_pos_eq (w * radsec)) by nra. field. lra.
    - replace (- (w * radsec) + x * (w * radsec))
        with ((x - 1) * (w * radsec)) by ring.
      rewrite Rabs_mult, (Rabs_pos_eq (w * radsec)) by nra.
      pose proof (Rabs_pos (x - 1)) as Hx0.
      assert (Hwr : 0 <= w * radsec <= PI / 90) by nra.
      assert (Hprod : Rabs (x - 1) * (w * radsec) <= 2 * (PI / 90))
        by (apply Rmult_le_compat; lra).
      lra. }
  assert (HD : forall k, (k <= 240)%nat ->
    seps c1 c2 0 (1 / 120) k = Rabs (INR k / 120 - 1) * w).
  { intros k Hk. unfold seps.
    assert (Hk0 : 0 <= INR k) by apply pos_INR.
    assert (Hk1 : INR k <= INR 240) by (apply le_INR; exact Hk).
    replace (INR 240) with 240 in Hk1
      by (rewrite INR_IZR_INZ; reflexivity).
    rewrite Hsep; try assumption.
    - f_equal. f_equal. lra.
    - apply Rabs_le. lra. }
  assert (H120 : INR 120 = 120) by (rewrite INR_IZR_INZ; reflexivity).
  assert (H121 : INR 121 = 121) by (rewrite INR_IZR_INZ; reflexivity).
  destruct (minscan_vee c1 c2 0 (1 / 120) n 120 st Hinv)
    as (Hok & Hi & Hx & Hd2 & Ho1 & Ho2); try lia.
  - intros j Hj. rewrite !HD by lia. rewrite S_INR.
    assert (Hj0 : 0 <= INR j) by apply pos_INR.
    assert (Hj1 : INR j <= INR 119) by (apply le_INR; lia).
    replace (INR 119) with 119 in Hj1 by (rewrite INR_IZR_INZ; reflexivity).
    rewrite !Rabs_left1 by lra. apply Rmult_lt_compat_r; lra.
  - rewrite !HD by lia. rewrite H120, H121.
    replace (120 / 120 - 1) with 0 by lra. rewrite Rabs_R0.
    pose proof (Rabs_pos (121 / 120 - 1)). nra.
  - cbv zeta. rewrite Hd2 in *. rewrite HD, H120 by lia.
    replace (120 / 120 - 1) with 0 by lra. rewrite Rabs_R0.
    assert (Hx' : sc_x (minscan n 0 (1 / 120) st) = 121 / 120).
    { rewrite Hx, H121. lra. }
    rewrite Ho1, Ho2.
    destruct (on_equator_setpt c1 _ _ _ (sc_x (minscan n 0 (1 / 120) st)) H1)
      as (Hc1 & _ & _ & Hs1).
    destruct (on_equator_setpt c2 _ _ _ (sc_x (minscan n 0 (1 / 120) st)) H2)
      as (Hc2 & _ & _ & Hs2).
    repeat match goal with |- _ /\ _ => split end;
      try assumption; try lra.
    intros x Hxr. apply Hsep; assumption.
Qed.

Lemma passing_medium (unrep : R -> Z) (v : vars clock) :
  let m := medium clock pinorm unrep passing_moon equinox_star v
                  (7%nat, 7200, 0, 7200) in
  sc_ok m = true /\ sc_x m = 121 / 120 /\ sc_d2 m = 0 /\
  semi2 (act (sc_occ1 m)) = 1 /\ semi2 (act (sc_occ2 m)) = 0.
Proof.
  unfold medium. rewrite medium_steps_eq, medium_dx.
  pose proof (medium_start_inv clock pinorm passing_moon equinox_star v
                (7%nat, 7200, 0, 7200) (1 / 120)) as Hinv.
  assert (H1 : on_equator
                 (sc_occ1 (medium_start clock pinorm passing_moon
                             equinox_star v (7%nat, 7200, 0, 7200)))
                 (- (7200 * radsec)) (7200 * radsec) 1).
  { cbn [medium_start sc_occ1 Nat.sub].
    pose proof (set3pt_passing (point passing_moon) 5 (occ1 v) 5 1) as H.
    replace ((5 - 6) * (7200 * radsec)) with (- (7200 * radsec)) in H by ring.
    replace (1 * (7200 * radsec)) with (7200 * radsec) in H by ring.
    apply H; cbn [point passing_moon]; try (f_equal; simpl; lra); lra. }
  assert (H2 : on_equator
                 (sc_occ2 (medium_start clock pinorm passing_moon
                             equinox_star v (7%nat, 7200, 0, 7200)))
                 0 0 0).
  { cbn [medium_start sc_occ2 Nat.sub]. apply set3pt_star; reflexivity. }
  destruct (passing_scan _ _ 7200 241 _ ltac:(lra) H1 H2 Hinv ltac:(lia))
    as (Hok & _ & Hx & Hd2 & _ & _ & Hs1 & Hs2 & _).
  cbv zeta. tauto.
Qed.

Lemma passing_resample (di dx : R) (z1 z2 : samples) (g : clock) :
  let r := resample clock setime_clock cur_clock 0 3 0
                    passing_moon equinox_star di dx 0 z1 z2 g in
  (fst (fst r) 0%nat = passing di /\
   fst (fst r) 1%nat = passing (di + 2 * dx) /\
   fst (fst r) 2%nat = passing (di + 2 * (2 * dx))) /\
  (snd (fst r) 0%nat = obj1_zero /\ snd (fst r) 1%nat = obj1_zero /\
   snd (fst r) 2%nat = obj1_zero).
Proof.
  cbn [resample fst snd]. unfold store. cbn [Nat.eqb].
  cbn [f passing_moon equinox_star setime_clock cur_clock fst snd].
  assert (Hd : forall t, (0 + deld * t) / deld = t).
  { intros t. unfold deld, per. rewrite INR_npts. field. }
  rewrite !Hd. repeat split; f_equal; lra.
Qed.

Lemma passing_fine (unrep : R -> Z) (v : vars clock) :
  let c := (7%nat, 7200, 0, 7200) in
  let m := medium clock pinorm unrep passing_moon equinox_star v c in
  let r := fine clock setime_clock cur_clock 0 pinorm
                passing_moon equinox_star v c m in
  let fs := fst (fst r) in
  snd r = 5 + 118 / 120 /\
  sc_ok fs = true /\ sc_i fs = 121%Z /\ sc_x fs = 121 / 120 /\ sc_d2 fs = 0 /\
  semi2 (act (sc_occ1 fs)) = 1 /\ semi2 (act (sc_occ2 fs)) = 0 /\
  (forall x, Rabs (x - 1) <= 2 ->
     separation (sc_occ1 fs) (sc_occ2 fs) x = Rabs (x - 1) * 120).
Proof.
  intros c m r fs.
  destruct (passing_medium unrep v) as (_ & Hxm & _). fold c m in Hxm.
  assert (Hdi : snd r = 5 + 118 / 120).
  { unfold r, c. rewrite fine_di. fold c m. rewrite Hxm. simpl. lra. }
  split; [exact Hdi |].
  unfold fs, r. rewrite fine_fst.
  pose proof (fine_start_inv clock setime_clock cur_clock 0 pinorm
                passing_moon equinox_star v c m (1 / 120)) as Hinv.
  cbv zeta in Hinv.
  set (st := fst (fst (fine_start clock setime_clock cur_clock 0 pinorm
                         passing_moon equinox_star v c m))) in *.
  assert (Hocc : on_equator (sc_occ1 st) (- (120 * radsec)) (120 * radsec) 1
                 /\ on_equator (sc_occ2 st) 0 0 0).
  { unfold st, fine_start, c. rewrite medium_dx. fold c m. rewrite Hxm.
    pose proof (passing_resample
                  (Go.float64 (Z.of_nat (7 - 2)) + (121 / 120 - 3 * (1 / 120)))
                  (1 / 120) (fun _ => obj1_zero) (fun _ => obj1_zero) (eph v))
      as [(H0 & H1 & H2) (H0' & H1' & H2')].
    destruct (resample _ _ _ _ _ _ _ _ _ _ _ _ _ _) as [[xo1 xo2] g].
    cbn [fst snd sc_occ1 sc_occ2] in *.
    split; [| apply set3pt_star; assumption].
    pose proof (set3pt_passing xo1 0 (sc_occ1 m)
                  (Go.float64 (Z.of_nat (7 - 2))
                   + (121 / 120 - 3 * (1 / 120))) (2 * (1 / 120))) as H.
    replace ((Go.float64 (Z.of_nat (7 - 2)) + (121 / 120 - 3 * (1 / 120)) - 6)
             * (7200 * radsec)) with (- (120 * radsec)) in H
      by (unfold Go.float64; simpl; field).
    replace (2 * (1 / 120) * (7200 * radsec)) with (120 * radsec) in H
      by field.
    apply H; try assumption; lra. }
  destruct Hocc as [H1 H2].
  destruct (passing_scan _ _ 120 241 _ ltac:(lra) H1 H2 Hinv ltac:(lia))
    as (Hok & Hi & Hx & Hd2 & _ & _ & Hs1 & Hs2 & Hsep).
  cbv zeta. tauto.
Qed.

(** [occult] on the passing Moon and the star, with room for three
    iterations of each contact scan: it returns nil, and the minimum it
    has found is at sample 6, where the Moon passes the star. *)
Lemma passing_occult :
  exists v',
    occult clock setime_clock cur_clock 0 pinorm unrep_amd64 3
           passing_moon equinox_star vars_clock = Some (None, v') /\
    t3 (occ v') = 6.
Proof.
  destruct (occult_cases clock setime_clock cur_clock 0 pinorm unrep_amd64 3
              passing_moon equinox_star vars_clock)
    as [[Hc _] | (c & Hc & Hcases)];
    rewrite passing_coarse in Hc; [discriminate |].
  injection Hc as <-. cbv zeta in Hcases.
  destruct (passing_medium unrep_amd64 vars_clock)
    as (Hm & _ & Hmd2 & Hms1 & Hms2).
  destruct (passing_fine unrep_amd64 vars_clock)
    as (Hdi & Hfs & Hfi & Hfx & Hfd2 & Hs1 & Hs2 & Hsep).
  cbv zeta in Hm, Hmd2, Hms1, Hms2, Hdi, Hfs, Hfi, Hfx, Hfd2, Hs1, Hs2, Hsep.
  destruct Hcases as [[Hbad _] | [(_ & Hfar & _) | (_ & _ & Hfine)]];
    [rewrite Hbad in Hm; discriminate | lra |].
  destruct Hfine as (fs & g & di & Hfine & Hcases). cbv zeta in Hcases.
  rewrite Hfine in *. cbn [fst snd] in *.
  destruct Hcases as [[Hbad _] | [(_ & Hnear & _) | (_ & _ & Hocc)]];
    [rewrite Hbad in Hfs; discriminate | lra |].
  rewrite Hocc.
  assert (Hfuel : (Z.of_nat 3 <= 2 ^ 62)%Z) by lia.
  assert (Hi : (1 <= sc_i fs <= 241)%Z) by (rewrite Hfi; lia).
  assert (H0 : separation (sc_occ1 fs) (sc_occ2 fs) (sc_x fs - 1 / 120)
               <= semi2 (act (sc_occ1 fs)) + semi2 (act (sc_occ2 fs))).
  { rewrite Hfx, Hs1, Hs2.
    replace (121 / 120 - 1 / 120) with 1 by lra.
    rewrite Hsep; replace (1 - 1) with 0 by lra; rewrite Rabs_R0; lra. }
  destruct (contacts clock 3 fs g di (occ_reset (occ vars_clock)))
    as [[err v'] |] eqn:Hcon.
  - destruct (contacts_times clock 3 fs g di (occ_reset (occ vars_clock))
                err v' Hfuel Hi H0 Hcon) as (-> & Ht3 & _).
    exists v'. split; [reflexivity |].
    rewrite Ht3, Hdi, Hfi. simpl. lra.
  - exfalso.
    apply (contacts_none_iff clock 3 fs g di (occ_reset (occ vars_clock))
             Hfuel Hi H0) in Hcon.
    assert (H2 : INR 2 = 2) by (simpl; lra).
    assert (Hup : Rabs (1 + 2 * (1 / 120) - 1) = 2 / 120).
    { replace (1 + 2 * (1 / 120) - 1) with (2 / 120) by lra.
      apply Rabs_pos_eq; lra. }
    assert (Hdown : Rabs (1 - 2 * (1 / 120) - 1) = 2 / 120).
    { replace (1 - 2 * (1 / 120) - 1) with (- (2 / 120)) by lra.
      rewrite Rabs_Ropp. apply Rabs_pos_eq; lra. }
    rewrite Hfx, Hs1, Hs2 in Hcon.
    replace (121 / 120 - 1 / 120) with 1 in Hcon by lra.
    destruct Hcon as [Hall | Hall]; specialize (Hall 2%nat ltac:(lia));
      rewrite H2, Hsep in Hall; rewrite ?Hup, ?Hdown in *; lra.
Qed.

(** The theorem at the passing Moon: the minimum is at sample 6, and the
    contacts are around it. *)
Lemma occult_contacts_times_witness :
  exists v',
    occult clock setime_clock cur_clock 0 pinorm unrep_amd64 3
           passing_moon equinox_star vars_clock = Some (None, v') /\
    t3 (occ v') = 6 /\
    (occ v' = occ_reset (occ vars_clock) \/
     (@None error = None /\
      - (59 / 7200) <= t3 (occ v') <= 13 + 59 / 7200 /\
      exists k1 k5 : nat, (1 <= k1 < 3)%nat /\ (1 <= k5 < 3)%nat /\
        t1 (occ v') = t3 (occ v') - (INR k1 + 1 / 2) / 7200 /\
        t5 (occ v') = t3 (occ v') + (INR k5 - 1 / 2) / 7200 /\
        (t2 (occ v') = -100 \/
         exists k2, (1 <= k2 <= k1)%nat /\
           t2 (occ v') = t3 (occ v') - (INR k2 + 1 / 2) / 7200) /\
        (t4 (occ v') = -100 \/
         exists k4, (1 <= k4 <= k5)%nat /\
           t4 (occ v') = t3 (occ v') + (INR k4 - 1 / 2) / 7200))).
Proof.
  destruct passing_occult as (v' & Hocc & Ht3).
  exists v'. split; [exact Hocc |]. split; [exact Ht3 |].
  apply (occult_contacts_times clock setime_clock cur_clock 0 pinorm
           unrep_amd64 3 passing_moon equinox_star vars_clock None v').
  - lia.
  - exact Hocc.
Defined.

(** The theorem at the passing Moon: the separation is beyond the
    semidiameter two steps from the minimum on either side, so the call
    with room for three iterations returns. *)
Lemma occult_ends_witness :
  (Z.of_nat 3 <= 2 ^ 62)%Z /\
  exists r,
    occult clock setime_clock cur_clock 0 pinorm unrep_amd64 3
           passing_moon equinox_star vars_clock = Some r.
Proof.
  assert (Hfuel : (Z.of_nat 3 <= 2 ^ 62)%Z) by lia.
  split; [exact Hfuel |].
  destruct (occult clock setime_clock cur_clock 0 pinorm unrep_amd64 3
                   passing_moon equinox_star vars_clock) as [r |] eqn:Hocc;
    [exists r; reflexivity | exfalso].
  apply (occult_ends clock setime_clock cur_clock 0 pinorm unrep_amd64 3
           passing_moon equinox_star vars_clock Hfuel) in Hocc.
  destruct Hocc as (c & Hc & Hstuck). rewrite passing_coarse in Hc.
  injection Hc as <-. cbv zeta in Hstuck.
  destruct (passing_fine unrep_amd64 vars_clock)
    as (_ & _ & _ & Hfx & _ & Hs1 & Hs2 & Hsep).
  cbv zeta in Hfx, Hs1, Hs2, Hsep.
  destruct Hstuck as (_ & _ & _ & _ & Hstay).
  rewrite Hfx, Hs1, Hs2 in Hstay.
  replace (121 / 120 - 1 / 120) with 1 in Hstay by lra.
  assert (H2 : INR 2 = 2) by (simpl; lra).
  assert (Hup : Rabs (1 + 2 * (1 / 120) - 1) = 2 / 120).
  { replace (1 + 2 * (1 / 120) - 1) with (2 / 120) by lra.
    apply Rabs_pos_eq; lra. }
  assert (Hdown : Rabs (1 - 2 * (1 / 120) - 1) = 2 / 120).
  { replace (1 - 2 * (1 / 120) - 1) with (- (2 / 120)) by lra.
    rewrite Rabs_Ropp. apply Rabs_pos_eq; lra. }
  destruct Hstay as [Hall | Hall]; specialize (Hall 2%nat ltac:(lia));
    rewrite H2, Hsep in Hall; rewrite ?Hup, ?Hdown in *; lra.
Defined.

(** At the passing Moon the coarse scan stops at sample 7, and the medium
    scan finds its minimum. *)
Lemma occult_bad_1_unreachable_witness :
  coarse (point passing_moon) (point equinox_star)
  = Some (7%nat, 7200, 0, 7200) /\
  sc_ok (medium clock pinorm unrep_amd64 passing_moon equinox_star
                vars_clock (7%nat, 7200, 0, 7200)) = true.
Proof.
  split; [apply passing_coarse |].
  apply (proj1 (occult_bad_1_unreachable clock setime_clock cur_clock 0
                  unrep_amd64 0 passing_moon equinox_star vars_clock)
               (7%nat, 7200, 0, 7200)).
  apply passing_coarse.
Defined.

(** ** Days and instants *)

Lemma trunc_bounds (x : R) :
  Rabs (IZR (Go.trunc x)) <= Rabs x /\ Rabs (IZR (Go.trunc x) - x) < 1.
Proof.
  unfold Go.trunc. destruct (Rle_dec 0 x) as [H0 | H0].
  - destruct (base_Int_part x) as [Hle Hgt].
    assert (Hi : 0 <= IZR (Int_part x)).
    { apply IZR_le. destruct (Z_lt_le_dec (Int_part x) 0) as [Hn | Hp];
        [| exact Hp].
      exfalso. assert (IZR (Int_part x) <= -1) by (apply (IZR_le _ (-1)); lia).
      lra. }
    rewrite !Rabs_pos_eq by lra. split; [exact Hle |].
    apply Rabs_def1; lra.
  - destruct (base_Int_part (- x)) as [Hle Hgt].
    rewrite opp_IZR.
    assert (Hi : 0 <= IZR (Int_part (- x))).
    { apply IZR_le. destruct (Z_lt_le_dec (Int_part (- x)) 0) as [Hn | Hp];
        [| exact Hp].
      exfalso.
      assert (IZR (Int_part (- x)) <= -1) by (apply (IZR_le _ (-1)); lia).
      lra. }
    rewrite Rabs_Ropp, (Rabs_pos_eq _ Hi), (Rabs_left1 x) by lra.
    split; [exact Hle |]. apply Rabs_def1; lra.
Qed.

Lemma Unix_after (n : Z) : Unix (Add t1899 (n * Second)) = (Unix t1899 + n)%Z.
Proof.
  unfold Unix, Add, Second, t1899.
  rewrite <- Z.mul_add_distr_r, !Z.div_mul by lia. reflexivity.
Qed.

(** With [float64] read as the exact reals: for a day number [jd] of at
    most 106751 days either way, [julianToTime] returns the instant the
    whole seconds of [jd] after the noon of the last day of 1899, the
    fraction of a second cut off toward zero, and [timeToJulian] returns
    that number of seconds as days: less than a second from [jd], and no
    further from 0.  From 106752 to 213503 days the multiplication by
    [time.Second] wraps around, and the instant returned is before that
    noon. *)
Theorem julian_round_trip (unrep : R -> Z) (jd : R) :
  let n := Go.trunc (jd * secondsPerDay) in
  (Rabs jd <= 106751 ->
   julianToTime unrep jd = Add t1899 (n * Second) /\
   timeToJulian (julianToTime unrep jd) = IZR n / secondsPerDay /\
   Rabs (timeToJulian (julianToTime unrep jd) - jd) < 1 / secondsPerDay /\
   Rabs (timeToJulian (julianToTime unrep jd)) <= Rabs jd) /\
  (106752 <= jd <= 213503 ->
   julianToTime unrep jd = Add t1899 (n * Second - 2 ^ 64) /\
   (julianToTime unrep jd < t1899)%Z).
Proof.
  intros n.
  assert (Hspd : secondsPerDay = 86400) by (unfold secondsPerDay; lra).
  destruct (trunc_bounds (jd * secondsPerDay)) as [Hmag Hfrac]. fold n in Hmag, Hfrac.
  split.
  - intros Hjd.
    assert (Hs : Rabs (jd * secondsPerDay) <= 106751 * 86400).
    { rewrite Rabs_mult, Hspd, (Rabs_pos_eq 86400) by lra. lra. }
    assert (Hn : (- (106751 * 86400) <= n <= 106751 * 86400)%Z).
    { assert (Hr : Rabs (IZR n) <= IZR (106751 * 86400)).
      { rewrite mult_IZR. lra. }
      assert (Hb : IZR (- (106751 * 86400)) <= IZR n <= IZR (106751 * 86400)).
      { rewrite opp_IZR. revert Hr. unfold Rabs.
        destruct (Rcase_abs (IZR n)); lra. }
      split; apply le_IZR; apply Hb. }
    assert (Hint : Go.int unrep (jd * secondsPerDay) = n).
    { unfold Go.int. cbv zeta. fold n.
      destruct (Z.leb_spec Go.min_int n), (Z.leb_spec n Go.max_int);
        unfold Go.min_int, Go.max_int in *; simpl; try lia; reflexivity. }
    assert (Hto : julianToTime unrep jd = Add t1899 (n * Second)).
    { unfold julianToTime. cbv zeta. rewrite Hint.
      rewrite wrap_id by (unfold Go.min_int, Go.max_int, Second; lia).
      reflexivity. }
    assert (Hback : timeToJulian (julianToTime unrep jd)
                    = IZR n / secondsPerDay).
    { rewrite Hto. unfold timeToJulian. rewrite Unix_after.
      unfold Go.sub_int.
      replace (Unix t1899 + n - Unix t1899)%Z with n by lia.
      rewrite wrap_id by (unfold Go.min_int, Go.max_int; lia).
      reflexivity. }
    split; [exact Hto |]. split; [exact Hback |]. rewrite Hback, Hspd in *.
    split.
    + replace (IZR n / 86400 - jd) with ((IZR n - jd * 86400) / 86400)
        by field.
      unfold Rdiv at 1. rewrite Rabs_mult, (Rabs_pos_eq (/ 86400)) by lra.
      apply Rmult_lt_compat_r; lra.
    + unfold Rdiv. rewrite Rabs_mult, (Rabs_pos_eq (/ 86400)) by lra.
      rewrite Rabs_mult, (Rabs_pos_eq 86400) in Hmag by lra.
      apply Rmult_le_reg_r with 86400; [lra |].
      rewrite Rmult_assoc, Rinv_l by lra. lra.
  - intros Hjd.
    assert (Hpos : 0 <= jd * secondsPerDay) by (rewrite Hspd; lra).
    assert (Hn : (106752 * 86400 - 1 < n <= 213503 * 86400)%Z).
    { rewrite (Rabs_pos_eq _ Hpos) in Hmag.
      apply Rabs_def2 in Hfrac as [Hf1 Hf2].
      split.
      - apply lt_IZR. rewrite minus_IZR, mult_IZR. rewrite Hspd in *. lra.
      - apply le_IZR. rewrite mult_IZR.
        assert (0 <= IZR n).
        { unfold n, Go.trunc. destruct (Rle_dec 0 (jd * secondsPerDay));
            [| contradiction].
          apply IZR_le.
          destruct (Z_lt_le_dec (Int_part (jd * secondsPerDay)) 0)
            as [Hneg | Hp]; [| exact Hp].
          exfalso.
          destruct (base_Int_part (jd * secondsPerDay)) as [_ Hgt].
          assert (IZR (Int_part (jd * secondsPerDay)) <= -1)
            by (apply (IZR_le _ (-1)); lia).
          lra. }
        rewrite Rabs_pos_eq in Hmag by assumption. rewrite Hspd in *. lra. }
    assert (Hint : Go.int unrep (jd * secondsPerDay) = n).
    { unfold Go.int. cbv zeta. fold n.
      destruct (Z.leb_spec Go.min_int n), (Z.leb_spec n Go.max_int);
        unfold Go.min_int, Go.max_int in *; simpl; try lia; reflexivity. }
    assert (Hto : julianToTime unrep jd = Add t1899 (n * Second - 2 ^ 64)).
    { unfold julianToTime. cbv zeta. rewrite Hint. f_equal.
      unfold Go.wrap, Second.
      replace (n * 10 ^ 9 + 2 ^ 63)%Z
        with ((n * 10 ^ 9 + 2 ^ 63 - 2 ^ 64) + 1 * 2 ^ 64)%Z by lia.
      rewrite Z.mod_add by lia. rewrite Z.mod_small by lia. lia. }
    split; [exact Hto |]. rewrite Hto. unfold Add, Second. lia.
Qed.

(** The theorem at half a day: the instant is the midnight that begins
    1900, and the way back gives half a day again. *)
Lemma julian_round_trip_witness :
  Rabs (1 / 2) <= 106751 /\
  julianToTime unrep_amd64 (1 / 2) = (- 2208988800 * 10 ^ 9)%Z /\
  timeToJulian (julianToTime unrep_amd64 (1 / 2)) = 1 / 2.
Proof.
  assert (H : Rabs (1 / 2) <= 106751) by (rewrite Rabs_pos_eq; lra).
  split; [exact H |].
  destruct (proj1 (julian_round_trip unrep_amd64 (1 / 2)) H)
    as (Hto & Hback & _).
  assert (Hn : Go.trunc (1 / 2 * secondsPerDay) = 43200%Z).
  { replace (1 / 2 * secondsPerDay) with (IZR 43200)
      by (unfold secondsPerDay; lra).
    apply trunc_IZR. }
  rewrite Hn in Hto, Hback. split.
  - rewrite Hto. reflexivity.
  - rewrite Hback. unfold secondsPerDay. lra.
Defined.

(** ** The series and their tables *)

Lemma sum_over_ext (n : nat) (g h : nat -> R) :
  (forall q, (q < n)%nat -> g q = h q) -> sum_over n g = sum_over n h.
Proof.
  revert g h; induction n as [| n IH]; intros g h Hext; simpl.
  - reflexivity.
  - rewrite (Hext 0%nat) by lia. f_equal. apply IH.
    intros q Hq. apply Hext. lia.
Qed.

Lemma phase_sum (cac : list Z) (coefs : list R) (j : nat) (a2 a : R)
  (j' : nat) :
  phase cac coefs j a2 = Some (a, j') ->
  j' = (j + List.length coefs)%nat /\
  a = a2 + sum_over (List.length coefs)
             (fun q => IZR (nth (j + q) cac 0%Z) * nth q coefs 0).
Proof.
  revert j a2; induction coefs as [| c coefs IH]; intros j a2 Hp.
  - simpl in Hp. injection Hp as <- <-. simpl. split; [lia | lra].
  - cbn [phase] in Hp.
    destruct (nth_error cac j) as [n |] eqn:Hn; cbn [bind] in Hp;
      [| discriminate].
    apply IH in Hp as [-> ->]. cbn [List.length sum_over nth].
    split; [lia |].
    rewrite Nat.add_0_r, (nth_error_nth cac j 0%Z Hn).
    unfold Go.float64.
    rewrite (sum_over_ext _ (fun q => IZR (nth (j + S q) cac 0%Z)
                                      * nth q coefs 0)
               (fun q => IZR (nth (S j + q) cac 0%Z) * nth q coefs 0)).
    + lra.
    + intros q _. replace (j + S q)%nat with (S j + q)%nat by lia.
      reflexivity.
Qed.

Lemma trigadd_from_sum (f : R -> R) (cac : list Z) (coefs : list R)
  (pairs : nat) :
  forall (caf : list R) (j : nat) (sum v : R),
  (List.length caf <= 2 * pairs + 1)%nat ->
  trigadd_from f caf cac coefs j sum = Some v ->
  v = sum + sum_over (List.length caf / 2) (fun p =>
        nth (2 * p) caf 0
        * f (nth (2 * p + 1) caf 0
             + sum_over (List.length coefs) (fun q =>
                 IZR (nth (j + p * List.length coefs + q) cac 0%Z)
                 * nth q coefs 0))).
Proof.
  induction pairs as [| pairs IH]; intros caf j sum v Hlen Hv.
  - destruct caf as [| a1 [| a2 caf]]; simpl in Hlen; try lia.
    + simpl in Hv. injection Hv as <-. simpl. lra.
    + simpl in Hv. discriminate.
  - destruct caf as [| a1 [| a2 caf]].
    + simpl in Hv. injection Hv as <-. simpl. lra.
    + simpl in Hv. discriminate.
    + cbn [trigadd_from] in Hv.
      destruct (phase cac coefs j a2) as [[a j'] |] eqn:Hp; cbn [bind] in Hv;
        [| discriminate].
      apply phase_sum in Hp as [-> ->]. cbn [fst snd] in Hv.
      apply IH in Hv; [| simpl in Hlen; lia].
      assert (Hdiv : (List.length (a1 :: a2 :: caf) / 2
                      = S (List.length caf / 2))%nat).
      { cbn [List.length].
        replace (S (S (List.length caf))) with (1 * 2 + List.length caf)%nat
          by lia.
        rewrite Nat.div_add_l by lia. lia. }
      rewrite Hdiv, Hv. cbn [sum_over].
      set (K := List.length coefs).
      assert (E1 : sum_over K (fun q =>
                     IZR (nth (j + 0 * K + q) cac 0%Z) * nth q coefs 0)
                   = sum_over K (fun q =>
                       IZR (nth (j + q) cac 0%Z) * nth q coefs 0)).
      { apply sum_over_ext. intros q _.
        replace (j + 0 * K + q)%nat with (j + q)%nat by lia. reflexivity. }
      assert (E2 : sum_over (List.length caf / 2) (fun p =>
                     nth (2 * S p) (a1 :: a2 :: caf) 0
                     * f (nth (2 * S p + 1) (a1 :: a2 :: caf) 0
                          + sum_over K (fun q =>
                              IZR (nth (j + S p * K + q) cac 0%Z)
                              * nth q coefs 0)))
                   = sum_over (List.length caf / 2) (fun p =>
                       nth (2 * p) caf 0
                       * f (nth (2 * p + 1) caf 0
                            + sum_over K (fun q =>
                                IZR (nth (j + K + p * K + q) cac 0%Z)
                                * nth q coefs 0)))).
      { apply sum_over_ext. intros p _.
        replace (2 * S p)%nat with (S (S (2 * p))) by lia.
        replace (2 * S p + 1)%nat with (S (S (2 * p + 1))) by lia.
        cbn [nth]. f_equal. f_equal. f_equal.
        apply sum_over_ext. intros q _.
        replace (j + S p * K + q)%nat with (j + K + p * K + q)%nat by lia.
        reflexivity. }
      rewrite E1, E2.
      cbn [Nat.mul Nat.add nth]. rewrite Rplus_assoc. reflexivity.
Qed.

(** With [float64] read as the exact reals, a call of [trigadd] that
    returns has added up the series of its tables: the running index [j]
    of the loop is [p * len(coefs) + q] at term [p] and coefficient [q]. *)
Theorem trigadd_series (f : R -> R) (caf : list R) (cac : list Z)
  (coefs : list R) (v : R) :
  trigadd f caf cac coefs = Some v -> v = series f caf cac coefs.
Proof.
  unfold trigadd, series. intros Hv.
  apply (trigadd_from_sum f cac coefs (List.length caf)) in Hv; [| lia].
  rewrite Hv, Rplus_0_l. reflexivity.
Qed.

(** The theorem at the last series of [nutate], with the three angles at
    0. *)
Lemma trigadd_series_witness :
  exists v,
    trigadd cos (nth 3 nutf []) (nth 3 nutc []) [0; 0; 0] = Some v /\
    v = series cos (nth 3 nutf []) (nth 3 nutc []) [0; 0; 0].
Proof.
  eexists. split; [reflexivity |].
  apply (trigadd_series cos (nth 3 nutf []) (nth 3 nutc []) [0; 0; 0]).
  reflexivity.
Defined.

Lemma trigadd_fits (f : R -> R) (caf : list R) (cac : list Z)
  (coefs : list R) :
  Nat.even (List.length caf) = true ->
  (List.length caf / 2 * List.length coefs <= List.length cac)%nat ->
  exists v, trigadd f caf cac coefs = Some v.
Proof.
  intros Heven Hlen. unfold trigadd.
  apply (trigadd_from_returns f cac coefs (List.length caf) caf 0 0);
    [lia | lia |].
  split; [exact Heven | exact Hlen].
Qed.

(** Every call of [cosadd] and [sinadd] in the program returns, whatever
    the function and the values of the coefficients are: each table of
    amplitudes and phases holds whole pairs, and the table of multiples
    that goes with it holds one multiple per pair and coefficient, no
    less and no more. *)
Theorem series_calls_fit :
  Forall (fun call : list R * list Z * nat =>
            let '(caf, cac, k) := call in
            (List.length caf / 2 * k)%nat = List.length cac /\
            forall (f : R -> R) (coefs : list R),
              List.length coefs = k ->
              exists v, trigadd f caf cac coefs = Some v)
         series_calls.
Proof.
  unfold series_calls.
  repeat (apply Forall_cons;
          [split; [reflexivity |];
           intros f coefs Hk; apply trigadd_fits; rewrite ?Hk;
           [reflexivity | apply Nat.eq_le_incl; reflexivity] |]).
  apply Forall_nil.
Qed.

(** ** The lunar table *)

Lemma walk_section (term : moonTab -> R) (l : list moonTab) (z : moonTab)
  (rest : list moonTab) (i : nat) (x : R) :
  Forall (fun e => mt_f e <> 0) l -> mt_f z = 0 ->
  walk term (l ++ z :: rest) i x
  = Some (fold_left (fun x e => x + term e) l x, (i + List.length l)%nat).
Proof.
  intros Hl Hz. revert i x. induction Hl as [| e l He Hl IH]; intros i x.
  - simpl. destruct (Req_dec_T (mt_f z) 0) as [_ | Hn]; [| contradiction].
    f_equal. f_equal. lia.
  - simpl. destruct (Req_dec_T (mt_f e) 0) as [H0 | _]; [contradiction |].
    rewrite IH. f_equal. f_equal. lia.
Qed.

Lemma skipn_nth_error {A : Type} (l : list A) (n : nat) (z : A) :
  nth_error l n = Some z -> skipn n l = z :: skipn (S n) l.
Proof.
  revert l; induction n as [| n IH]; intros [| a l] Hn;
    try discriminate.
  - injection Hn as ->. reflexivity.
  - apply (IH l Hn).
Qed.

Lemma walk_moontab (term : moonTab -> R) (lo hi : nat) (x : R) :
  (lo <= hi)%nat ->
  Forall (fun e => mt_f e <> 0) (firstn (hi - lo) (skipn lo moontab)) ->
  (exists z, nth_error moontab hi = Some z /\ mt_f z = 0) ->
  walk term (skipn lo moontab) lo x = Some (section_sum term lo hi x, hi).
Proof.
  intros Hle Hnz (z & Hz & Hz0).
  assert (Hlen : (hi < List.length moontab)%nat)
    by (apply nth_error_Some; congruence).
  assert (Hsplit : skipn lo moontab
                   = firstn (hi - lo) (skipn lo moontab)
                     ++ z :: skipn (S hi) moontab).
  { rewrite <- (firstn_skipn (hi - lo) (skipn lo moontab)) at 1.
    f_equal. rewrite skipn_skipn.
    replace (hi - lo + lo)%nat with hi by lia.
    apply skipn_nth_error, Hz. }
  rewrite Hsplit at 1. rewrite (walk_section term _ z _ lo x Hnz Hz0).
  unfold section_sum. f_equal. f_equal.
  rewrite length_firstn, length_skipn. lia.
Qed.

Ltac nonzero_terms :=
  repeat (apply Forall_cons; [cbn [mt_f]; lra |]); apply Forall_nil.

Ltac section_walk lo hi :=
  rewrite (walk_moontab _ lo hi);
  [ cbn [bind]
  | lia
  | cbn [firstn skipn moontab Nat.sub]; nonzero_terms
  | eexists; split; [reflexivity | cbn [mt_f]; lra] ].

Ltac same_terms :=
  repeat (apply f_equal2; [try reflexivity; f_equal; lra |]); reflexivity.

Lemma moonTabs_sections :
  moonTabs = [firstn 131 moontab; firstn 55 (skipn 132 moontab);
              firstn 24 (skipn 188 moontab); firstn 10 (skipn 213 moontab);
              firstn 56 (skipn 224 moontab)].
Proof.
  unfold moonTabs. cbn [firstn skipn moontab].
  repeat (apply f_equal2; [same_terms |]). reflexivity.
Qed.

(** [moon] reads [moontab] within its 281 entries: its five loops stop
    at the five entries whose coefficient is 0, the last of which is the
    last entry of the table, index 280, and the sums they leave are those
    of the five loops of the second revision over the slices of
    [moonTabs]: the same terms, added in the same order. *)
Theorem moon_sums_in_range (mnom msun noded dmoon k1 k2 k3 k4 : R) :
  moon_sums mnom msun noded dmoon k1 k2 k3 k4 moontab
  = Some (moon_sums' mnom msun noded dmoon k1 k2 k3 k4 moonTabs, 280%nat) /\
  List.length moontab = 281%nat.
Proof.
  split; [| reflexivity]. unfold moon_sums, moon_sums'.
  rewrite moonTabs_sections. cbn [nth].
  change moontab with (skipn 0 moontab) at 1.
  section_walk 0%nat 131%nat. section_walk 132%nat 187%nat.
  section_walk 188%nat 212%nat. section_walk 213%nat 223%nat.
  section_walk 224%nat 280%nat.
  unfold section_sum, range_sum. cbn [Nat.sub].
  change (skipn 0 moontab) with moontab.
  replace 3422.700 with 3422.7 by lra. reflexivity.
Qed.
